(** * Caching and pooled-access layer of the Digital Companion

    A shallow embedding of
      - [ContextCache] (auth_and_cache.py): the two-tier chunk cache,
      - [PostgreSQLService.get_cached_response] / [cache_response]
        (services/postgresql_service.py): the persisted response cache,
      - [DatabaseWrapper._run_async] (services/database_wrapper.py): the
        synchronous bridge,
    together with the properties stated about them. *)

From stdpp Require Import gmap strings list.

Open Scope Z_scope.

(** ** What the code takes from outside

    [sha256_hexdigest s] is [hashlib.sha256(s.encode()).hexdigest()] and
    [str_lower] is [str.lower]. *)
Class PyRuntime : Type := {
  sha256_hexdigest : string → string;
  str_lower : string → string
}.

(** The sentence-transformer and the float arithmetic of the similarity
    test: [encode chunk] is [model.encode([chunk], ...)[0]], and
    [sim_ge e emb thr] is the test
    [np.dot(e, emb) / (np.linalg.norm(e) * np.linalg.norm(emb)) >= thr]. *)
Class EmbeddingModel : Type := {
  Emb : Type;
  Threshold : Type;
  encode : string → Emb;
  sim_ge : Emb → Emb → Threshold → bool
}.

(** Small stand-ins for the digest and the embedding model, used to
    evaluate the definitions on concrete inputs: the digest is injective
    (it tags the text), lower-casing is the identity (the inputs used are
    in lower case), a text is embedded as its length, and two embeddings
    pass the similarity test when they differ by at most the threshold. *)
Definition toy_runtime : PyRuntime :=
  {| sha256_hexdigest := λ s, String.append "sha256:" s;
     str_lower := λ s, s |}.

Definition toy_model : EmbeddingModel :=
  {| Emb := nat; Threshold := nat;
     encode := String.length;
     sim_ge := λ e emb thr,
       (Nat.leb (e - emb) thr && Nat.leb (emb - e) thr)%nat |}.

(** ** ContextCache (auth_and_cache.py) *)

Module ContextCache.

(** What a call writes to the console, asks of the embedding model, or
    writes to disk, in program order. *)
Inductive event : Type :=
  | PrintExactHit (h8 : string)      (* print(f"... exact hit for hash {h[:8]}") *)
  | Encode (chunk : string)          (* self.model.encode([chunk], ...)[0] *)
  | PrintSemanticHit                 (* print(f"... semantic hit (sim=...)") *)
  | PrintMiss (h8 : string)          (* print(f"... MISS for chunk hash {h[:8]} ...") *)
  | SaveExact                        (* self._save_exact() *)
  | SaveSem.                         (* self._save_sem() *)

Section chunk_cache.
Context `{PyRuntime} `{EmbeddingModel}.

(** The object's fields, and the content of the two pickle files
    ([None]: the file does not exist). *)
Record cache : Type := Cache {
  exact_cache : gmap string string;
  sem_cache : list (Emb * string);
  sem_threshold : Threshold;
  exact_file : option (gmap string string);
  sem_file : option (list (Emb * string))
}.

Definition _hash (text : string) : string := sha256_hexdigest text.

(** [h[:8]] *)
Definition prefix8 (h : string) : string := String.substring 0 8 h.

(** The [for e, txt in self.sem_cache] loop: the first entry, in list
    order, that passes the similarity test. *)
Fixpoint scan (emb : Emb) (thr : Threshold) (l : list (Emb * string))
  : option string :=
  match l with
  | [] => None
  | (e, txt) :: rest =>
      if sim_ge e emb thr then Some txt else scan emb thr rest
  end.

Definition _save_exact (self : cache) : cache :=
  {| exact_cache := exact_cache self; sem_cache := sem_cache self;
     sem_threshold := sem_threshold self;
     exact_file := Some (exact_cache self); sem_file := sem_file self |}.

Definition _save_sem (self : cache) : cache :=
  {| exact_cache := exact_cache self; sem_cache := sem_cache self;
     sem_threshold := sem_threshold self;
     exact_file := exact_file self; sem_file := Some (sem_cache self) |}.

(** The miss branch: both indexes updated in memory, then both saved. *)
Definition register (self : cache) (h : string) (emb : Emb) (chunk : string)
  : cache :=
  _save_sem (_save_exact
    {| exact_cache := <[h := chunk]> (exact_cache self);
       sem_cache := sem_cache self ++ [(emb, chunk)];
       sem_threshold := sem_threshold self;
       exact_file := exact_file self; sem_file := sem_file self |}).

(** [get_chunk]: returned text, what the call did, and the object after. *)
Definition get_chunk (self : cache) (chunk : string)
  : string * list event * cache :=
  let h := _hash chunk in
  match exact_cache self !! h with
  | Some txt => (txt, [PrintExactHit (prefix8 h)], self)
  | None =>
      let emb := encode chunk in
      match scan emb (sem_threshold self) (sem_cache self) with
      | Some txt => (txt, [Encode chunk; PrintSemanticHit], self)
      | None =>
          (chunk,
           [Encode chunk; PrintMiss (prefix8 h); SaveExact; SaveSem],
           register self h emb chunk)
      end
  end.

Definition clear_caches (self : cache) : cache :=
  _save_sem (_save_exact
    {| exact_cache := ∅; sem_cache := [];
       sem_threshold := sem_threshold self;
       exact_file := exact_file self; sem_file := sem_file self |}).

Definition text_of (r : string * list event * cache) : string := r.1.1.
Definition log_of (r : string * list event * cache) : list event := r.1.2.
Definition after (r : string * list event * cache) : cache := r.2.

(** Which of the three ways out a call took, read off its log. *)
Definition exact_hit (log : list event) : bool :=
  match log with [PrintExactHit _] => true | _ => false end.
Definition semantic_hit (log : list event) : bool :=
  match log with [Encode _; PrintSemanticHit] => true | _ => false end.
Definition is_hit (log : list event) : bool :=
  exact_hit log || semantic_hit log.
Definition embeds (log : list event) : bool :=
  existsb (λ ev, match ev with Encode _ => true | _ => false end) log.

(** Sequences of the two public operations. *)
Inductive op : Type := GetChunk (chunk : string) | ClearCaches.

Definition apply_op (self : cache) (o : op) : cache :=
  match o with
  | GetChunk c => after (get_chunk self c)
  | ClearCaches => clear_caches self
  end.

Definition run_ops (ops : list op) (self : cache) : cache :=
  foldl apply_op self ops.

(** [n] lookups of the same chunk in a row: the logs, and the object at
    the end. *)
Fixpoint lookups (n : nat) (self : cache) (chunk : string)
  : list (string * list event) * cache :=
  match n with
  | O => ([], self)
  | S n' =>
      let r := get_chunk self chunk in
      let rest := lookups n' (after r) chunk in
      ((text_of r, log_of r) :: rest.1, rest.2)
  end.

End chunk_cache.

Definition toy_cache : Type := @cache toy_model.

(** A fresh cache with no files on disk, and the same cache after it has
    seen "abc" once. *)
Definition fresh_cache : toy_cache :=
  @Cache toy_model ∅ [] 0%nat None None.

Definition seen_abc : toy_cache :=
  after (get_chunk (H := toy_runtime) fresh_cache "abc").

End ContextCache.

(** ** The response cache (services/postgresql_service.py) *)

Module ResponseCache.

(** [response_data]: a structured value the cache never looks inside. *)
Definition payload : Type := string.

(** A row of table [response_cache]; the table is keyed by [query_hash].
    Timestamps are points on the database clock. *)
Record row : Type := Row {
  query_text : string;
  response_data : payload;
  created_at : Z;
  last_accessed : Z;
  expires_at : Z;
  hit_count : Z
}.

(** What an awaited call can raise. The first group are instances of
    [Exception]; the second group derive from [BaseException] only. *)
Inductive exn : Type :=
  | ConnectionRefusedError
  | TimeoutError
  | TooManyConnectionsError
  | PostgresError (msg : string)
  | AttributeError
  | CancelledError
  | KeyboardInterrupt.

Definition is_Exception (e : exn) : bool :=
  match e with
  | CancelledError | KeyboardInterrupt => false
  | _ => true
  end.

(** The interactions with the pool and the database, one per [await]
    (and one for the test [if not self.pool]). *)
Inductive stmt : Type :=
  | PoolCheck                       (* if not self.pool *)
  | CreatePool                      (* await asyncpg.create_pool(...) *)
  | Acquire                         (* await self.pool.acquire() *)
  | Release                         (* await self.pool.release(conn) *)
  | SelectLive (h : string)         (* SELECT response_data ... WHERE query_hash = $1
                                       AND expires_at > CURRENT_TIMESTAMP *)
  | TouchHit (h : string)           (* UPDATE ... SET hit_count = hit_count + 1,
                                       last_accessed = CURRENT_TIMESTAMP
                                       WHERE query_hash = $1 *)
  | Upsert (h q : string) (p : payload).
                                    (* INSERT ... ON CONFLICT (query_hash) DO UPDATE ... *)

Inductive resp : Type :=
  | RUnit
  | RPool (ready : bool)
  | RRow (data : option payload).

(** The service's pool (number of connections handed out, [None] before
    [initialize_pool]) and the table. *)
Record store : Type := Store {
  table : gmap string row;
  pool : option nat
}.

(** The fixed time-to-live of the table. *)
Class TTLPolicy : Type := { ttl : Z }.

Section statements.
Context `{PyRuntime} `{TTLPolicy}.

(** Modelled from the spec: the declaration of table [response_cache] is
    not among the sources, and the INSERT of [cache_response] names
    neither [hit_count] nor [expires_at], so a new row takes the column
    defaults. The spec gives them: a new row is inserted with
    [hit_count = 1]. *)
Definition default_hit_count : Z := 1.

(** Modelled from the spec: the column default of [expires_at] in the
    absent table declaration; a new row gets a freshly computed
    [expires_at], derived at write time from the fixed TTL. *)
Definition default_expires_at (now : Z) : Z := now + ttl.

(** The row written by the INSERT when there is no conflict. *)
Definition new_row (now : Z) (q : string) (p : payload) : row :=
  {| query_text := q; response_data := p;
     created_at := now; last_accessed := now;
     expires_at := default_expires_at now;
     hit_count := default_hit_count |}.

(** The DO UPDATE SET clause. *)
Definition overwrite (now : Z) (p : payload) (r : row) : row :=
  {| query_text := query_text r; response_data := p;
     created_at := created_at r; last_accessed := now;
     expires_at := expires_at r;
     hit_count := hit_count r + 1 |}.

(** The SET clause of the UPDATE on a hit. *)
Definition touch (now : Z) (r : row) : row :=
  {| query_text := query_text r; response_data := response_data r;
     created_at := created_at r; last_accessed := now;
     expires_at := expires_at r;
     hit_count := hit_count r + 1 |}.

Definition select_live (now : Z) (h : string) (tbl : gmap string row)
  : option payload :=
  match tbl !! h with
  | Some r => if bool_decide (now < expires_at r)
              then Some (response_data r) else None
  | None => None
  end.

Definition upsert (now : Z) (h q : string) (p : payload)
  (tbl : gmap string row) : gmap string row :=
  match tbl !! h with
  | None => <[h := new_row now q p]> tbl
  | Some r => <[h := overwrite now p r]> tbl
  end.

(** One statement, executed as a whole at time [now]. *)
Definition exec (s : stmt) (now : Z) (st : store) : (exn + resp) * store :=
  match s with
  | PoolCheck => (inr (RPool (bool_decide (is_Some (pool st)))), st)
  | CreatePool => (inr RUnit, {| table := table st; pool := Some 0%nat |})
  | Acquire =>
      match pool st with
      | Some n => (inr RUnit, {| table := table st; pool := Some (S n) |})
      | None => (inl AttributeError, st)
      end
  | Release =>
      match pool st with
      | Some n => (inr RUnit, {| table := table st; pool := Some (Nat.pred n) |})
      | None => (inl AttributeError, st)
      end
  | SelectLive h => (inr (RRow (select_live now h (table st))), st)
  | TouchHit h =>
      (inr RUnit, {| table := alter (touch now) h (table st); pool := pool st |})
  | Upsert h q p =>
      (inr RUnit, {| table := upsert now h q p (table st); pool := pool st |})
  end.

End statements.

(** *** Coroutines

    A coroutine is what it will do at its next [await]; the awaited call
    comes back with a result or with an exception. *)
Inductive prog (A : Type) : Type :=
  | Return (a : A)
  | Raise (e : exn)
  | Await (s : stmt) (k : exn + resp → prog A).
Arguments Return {A} a.
Arguments Raise {A} e.
Arguments Await {A} s k.

Fixpoint bind {A B : Type} (p : prog A) (f : A → prog B) : prog B :=
  match p with
  | Return a => f a
  | Raise e => Raise e
  | Await s k => Await s (λ r, bind (k r) f)
  end.

Notation "'let*' x := p 'in' q" := (bind p (λ x, q))
  (at level 10, x name, p at level 100, q at level 200, only parsing).
Notation "p >> q" := (bind p (λ _, q))
  (at level 100, q at level 200, right associativity, only parsing).

(** [try: p except e: handler e] *)
Fixpoint try_except {A : Type} (p : prog A) (handler : exn → prog A) : prog A :=
  match p with
  | Return a => Return a
  | Raise e => handler e
  | Await s k => Await s (λ r, try_except (k r) handler)
  end.

(** [try: p finally: fin]: [fin] runs on every way out of [p], and an
    exception of [fin] replaces the outcome of [p]. *)
Fixpoint try_finally {A : Type} (p : prog A) (fin : prog unit) : prog A :=
  match p with
  | Return a => fin >> Return a
  | Raise e => fin >> Raise e
  | Await s k => Await s (λ r, try_finally (k r) fin)
  end.

Definition call (s : stmt) : prog resp :=
  Await s (λ r, match r with inl e => Raise e | inr x => Return x end).

Definition pool_is_set : prog bool :=
  let* r := call PoolCheck in
  Return (match r with RPool b => b | _ => false end).

Definition execute (s : stmt) : prog unit := call s >> Return tt.

Definition fetchrow (s : stmt) : prog (option payload) :=
  let* r := call s in
  Return (match r with RRow data => data | _ => None end).

Section service.
Context `{PyRuntime} `{TTLPolicy}.

Definition initialize_pool : prog unit := execute CreatePool.

(** [async with self.get_connection() as conn: body] *)
Definition with_connection {A : Type} (body : prog A) : prog A :=
  let* ready := pool_is_set in
  (if ready then Return tt else initialize_pool) >>
  execute Acquire >>
  try_finally body (execute Release).

Definition query_hash_of (query : string) : string :=
  sha256_hexdigest (str_lower query).

(** [except Exception as e: print(...); return default] *)
Definition except_Exception {A : Type} (default : A) (e : exn) : prog A :=
  if is_Exception e then Return default else Raise e.

(** The [try] block of [get_cached_response]. *)
Definition get_cached_response_body (query : string)
  : prog (option payload) :=
  let query_hash := query_hash_of query in
  with_connection
    (let* row := fetchrow (SelectLive query_hash) in
     match row with
     | Some data =>
         (* Update hit count and last accessed *)
         execute (TouchHit query_hash) >>
         Return (Some data)
     | None => Return None
     end).

Definition get_cached_response (query : string) : prog (option payload) :=
  try_except (get_cached_response_body query) (except_Exception None).

(** The [try] block of [cache_response]. *)
Definition cache_response_body (query : string) (response_data : payload)
  : prog bool :=
  let query_hash := query_hash_of query in
  with_connection
    (execute (Upsert query_hash query response_data) >>
     Return true).

Definition cache_response (query : string) (response_data : payload)
  : prog bool :=
  try_except (cache_response_body query response_data)
    (except_Exception false).

End service.

(** *** Running coroutines

    The environment decides, for each awaited call, how much time has
    gone by on the database clock since the previous one and whether the
    call fails. *)
Record tick : Type := Tick { elapse : nat; fault : option exn }.

Definition calm : tick := {| elapse := 0; fault := None |}.

(** The store, the database clock, and the statements issued so far:
    who issued each and when. *)
Record world : Type := World {
  wstore : store;
  clock : Z;
  trace : list (nat * stmt * Z)
}.

Inductive outcome (A : Type) : Type :=
  | Returned (a : A)
  | Raised (e : exn).
Arguments Returned {A} a.
Arguments Raised {A} e.

(** Reading [self.pool] is not an [await]: it takes no time and cannot
    fail. *)
Definition is_sync (s : stmt) : bool :=
  match s with PoolCheck => true | _ => false end.

Section running.
Context `{PyRuntime} `{TTLPolicy}.

(** Thread [who] performs statement [s]; the statement takes effect as a
    whole, or fails and changes nothing. *)
Definition perform (who : nat) (s : stmt) (t : tick) (w : world)
  : (exn + resp) * world :=
  let now := if is_sync s then clock w else clock w + Z.of_nat (elapse t) in
  let tr := trace w ++ [(who, s, now)] in
  match (if is_sync s then None else fault t) with
  | Some e => (inl e, {| wstore := wstore w; clock := now; trace := tr |})
  | None =>
      let r := exec s now (wstore w) in
      (r.1, {| wstore := r.2; clock := now; trace := tr |})
  end.

(** One thread drives a coroutine to completion; [script] is what the
    environment does at each awaited call ([calm] once it runs out). The
    result is the outcome, the unused part of the script, and the world
    at the end. *)
Fixpoint run {A : Type} (who : nat) (p : prog A) (script : list tick)
  (w : world) : outcome A * list tick * world :=
  match p with
  | Return a => (Returned a, script, w)
  | Raise e => (Raised e, script, w)
  | Await s k =>
      let r := perform who s (hd calm script) w in
      run who (k r.1) (if is_sync s then script else tl script) r.2
  end.

Definition outcome_of {A : Type} (r : outcome A * list tick * world)
  : outcome A := r.1.1.
Definition world_of {A : Type} (r : outcome A * list tick * world)
  : world := r.2.

(** Several coroutines in flight on one store: a schedule says which
    thread performs its next statement, and under which tick. *)
Record config (A : Type) : Type := Config {
  cworld : world;
  threads : list (prog A)
}.
Global Arguments Config {A} cworld threads.
Global Arguments cworld {A} c.
Global Arguments threads {A} c.

Definition sched_step {A : Type} (c : config A) (it : nat * tick) : config A :=
  match threads c !! it.1 with
  | Some (Await s k) =>
      let r := perform it.1 s it.2 (cworld c) in
      {| cworld := r.2; threads := <[it.1 := k r.1]> (threads c) |}
  | _ => c
  end.

Definition run_sched {A : Type} (sched : list (nat * tick)) (c : config A)
  : config A :=
  foldl sched_step c sched.

(** [hit_count] of the row of key [h], 0 when there is no row. *)
Definition hits (h : string) (w : world) : Z :=
  match table (wstore w) !! h with
  | Some r => hit_count r
  | None => 0
  end.

End running.

(** *** The two coroutines, await by await

    [feed p r] is coroutine [p] resumed with answer [r] to the call it is
    waiting on. The points at which [get_cached_response] and
    [cache_response] can be suspended are named, each defined as the
    coroutine itself fed the answers that lead there. *)
Definition feed {A : Type} (p : prog A) (r : exn + resp) : prog A :=
  match p with
  | Await _ k => k r
  | _ => p
  end.

Definition finished {A : Type} (o : outcome A) : prog A :=
  match o with
  | Returned a => Return a
  | Raised e => Raise e
  end.

(** The outcome of [except Exception: return default] on [e]. *)
Definition handled {A : Type} (default : A) (e : exn) : outcome A :=
  if is_Exception e then Returned default else Raised e.

Inductive get_phase : Type :=
  | GCheck                         (* at [if not self.pool] *)
  | GCreate                        (* awaiting create_pool *)
  | GAcquire                       (* awaiting pool.acquire *)
  | GSelect                        (* awaiting the SELECT *)
  | GTouch (data : payload)        (* row found; awaiting the UPDATE *)
  | GReleaseHit (data : payload)   (* UPDATE done; awaiting pool.release *)
  | GReleaseMiss                   (* no row; awaiting pool.release *)
  | GReleaseFailed (e : exn)       (* a statement raised [e]; awaiting release *)
  | GDone (o : outcome (option payload)).

Definition get_next (ph : get_phase) (r : exn + resp) : get_phase :=
  match ph, r with
  | GDone o, _ => GDone o
  | GCheck, inr (RPool true) => GAcquire
  | GCheck, inr _ => GCreate
  | GCreate, inr _ => GAcquire
  | GAcquire, inr _ => GSelect
  | GSelect, inr (RRow (Some data)) => GTouch data
  | GSelect, inr _ => GReleaseMiss
  | GSelect, inl e => GReleaseFailed e
  | GTouch data, inr _ => GReleaseHit data
  | GTouch _, inl e => GReleaseFailed e
  | GReleaseHit data, inr _ => GDone (Returned (Some data))
  | GReleaseMiss, inr _ => GDone (Returned None)
  | GReleaseFailed e0, inr _ => GDone (handled None e0)
  | _, inl e => GDone (handled None e)
  end.

Inductive put_phase : Type :=
  | PCheck
  | PCreate
  | PAcquire
  | PUpsert                        (* awaiting the INSERT ... ON CONFLICT *)
  | PReleaseDone                   (* statement done; awaiting pool.release *)
  | PReleaseFailed (e : exn)       (* statement raised [e]; awaiting release *)
  | PDone (o : outcome bool).

Definition put_next (ph : put_phase) (r : exn + resp) : put_phase :=
  match ph, r with
  | PDone o, _ => PDone o
  | PCheck, inr (RPool true) => PAcquire
  | PCheck, inr _ => PCreate
  | PCreate, inr _ => PAcquire
  | PAcquire, inr _ => PUpsert
  | PUpsert, inr _ => PReleaseDone
  | PUpsert, inl e => PReleaseFailed e
  | PReleaseDone, inr _ => PDone (Returned true)
  | PReleaseFailed e0, inr _ => PDone (handled false e0)
  | _, inl e => PDone (handled false e)
  end.

Section phases.
Context `{PyRuntime} `{TTLPolicy}.

Definition get_at (query : string) (ph : get_phase) : prog (option payload) :=
  let start := get_cached_response query in
  let acquire := feed start (inr (RPool true)) in
  let select := feed acquire (inr RUnit) in
  match ph with
  | GCheck => start
  | GCreate => feed start (inr (RPool false))
  | GAcquire => acquire
  | GSelect => select
  | GTouch data => feed select (inr (RRow (Some data)))
  | GReleaseHit data => feed (feed select (inr (RRow (Some data)))) (inr RUnit)
  | GReleaseMiss => feed select (inr (RRow None))
  | GReleaseFailed e => feed select (inl e)
  | GDone o => finished o
  end.

Definition put_at (query : string) (data : payload) (ph : put_phase)
  : prog bool :=
  let start := cache_response query data in
  let acquire := feed start (inr (RPool true)) in
  let upsert := feed acquire (inr RUnit) in
  match ph with
  | PCheck => start
  | PCreate => feed start (inr (RPool false))
  | PAcquire => acquire
  | PUpsert => upsert
  | PReleaseDone => feed upsert (inr RUnit)
  | PReleaseFailed e => feed upsert (inl e)
  | PDone o => finished o
  end.

End phases.

(** The statement a suspended coroutine is waiting on. *)
Definition awaited {A : Type} (p : prog A) : option stmt :=
  match p with
  | Await s _ => Some s
  | _ => None
  end.

Definition get_waits (h : string) (ph : get_phase) : option stmt :=
  match ph with
  | GCheck => Some PoolCheck
  | GCreate => Some CreatePool
  | GAcquire => Some Acquire
  | GSelect => Some (SelectLive h)
  | GTouch _ => Some (TouchHit h)
  | GReleaseHit _ | GReleaseMiss | GReleaseFailed _ => Some Release
  | GDone _ => None
  end.

Definition put_waits (h q : string) (data : payload) (ph : put_phase)
  : option stmt :=
  match ph with
  | PCheck => Some PoolCheck
  | PCreate => Some CreatePool
  | PAcquire => Some Acquire
  | PUpsert => Some (Upsert h q data)
  | PReleaseDone | PReleaseFailed _ => Some Release
  | PDone _ => None
  end.

(** A tick whose failure, if any, is an instance of [Exception]. *)
Definition benign (t : tick) : Prop :=
  match fault t with
  | Some e => is_Exception e = true
  | None => True
  end.

(** A finished reader that returned a payload. *)
Definition served (p : prog (option payload)) : bool :=
  match p with
  | Return (Some _) => true
  | _ => false
  end.

(** Stand-ins to evaluate on: a one-hour TTL (in seconds), an empty
    database with no pool yet, and a database at time 100 holding one row
    for query "q" that expired at time 10. *)
Definition hour : TTLPolicy := {| ttl := 3600 |}.

Definition empty_world : world :=
  {| wstore := {| table := ∅; pool := None |}; clock := 0; trace := [] |}.

Definition sample_row : row :=
  {| query_text := "q"; response_data := "old";
     created_at := 0; last_accessed := 0; expires_at := 10; hit_count := 3 |}.

Definition expired_world : world :=
  {| wstore := {| table := {[ "sha256:q" := sample_row ]}; pool := Some 0%nat |};
     clock := 100; trace := [] |}.

(** The same database at time 5, before the row expires. *)
Definition live_world : world :=
  {| wstore := {| table := {[ "sha256:q" := sample_row ]}; pool := Some 0%nat |};
     clock := 5; trace := [] |}.

(** What holds of a suspended reader or writer while no exception other
    than an instance of [Exception] has been raised. *)
Definition get_quiet (ph : get_phase) : Prop :=
  match ph with
  | GReleaseFailed e => is_Exception e = true
  | GDone (Raised _) => False
  | _ => True
  end.

Definition put_quiet (ph : put_phase) : Prop :=
  match ph with
  | PReleaseFailed e => is_Exception e = true
  | PDone (Raised _) => False
  | _ => True
  end.

(** A reader that has not seen a live row. *)
Definition get_unserved (ph : get_phase) : Prop :=
  match ph with
  | GTouch _ | GReleaseHit _ | GDone (Returned (Some _)) => False
  | _ => True
  end.

(** The row a successful upsert at time [t] leaves, given the row (if
    any) it found. *)
Definition written_row `{TTLPolicy} (before : option row) (t : Z)
  (q : string) (data : payload) : row :=
  match before with
  | None => new_row t q data
  | Some r => overwrite t data r
  end.

(** How far a writer has got: until its statement has run the row is as
    it was, afterwards it is the written row. *)
Definition put_progress `{TTLPolicy} (h q : string) (data : payload)
  (before : option row) (c0 : Z) (ph : put_phase) (w : world) : Prop :=
  c0 ≤ clock w ∧
  match ph with
  | PReleaseDone | PDone (Returned true) =>
      ∃ t, c0 ≤ t ≤ clock w ∧
           table (wstore w) !! h = Some (written_row before t q data)
  | PDone _ => True
  | _ => table (wstore w) !! h = before
  end.

(** [cache_response] and then [get_cached_response], as in the caller's
    round trip. *)
Definition put_then_get `{PyRuntime} `{TTLPolicy} (query : string)
  (data : payload) : prog (bool * option payload) :=
  let* ok := cache_response query data in
  let* got := get_cached_response query in
  Return (ok, got).

(** Bookkeeping for several writers of one key [h] whose payloads come
    from [D]: [n] is what the writer has added to [hit_count] so far. *)
Definition put_counted (h : string) (D : list payload)
  (tbl : gmap string row) (ph : payload * put_phase) (n : nat) : Prop :=
  ph.1 ∈ D ∧
  match ph.2 with
  | PReleaseDone | PDone (Returned true) =>
      n = 1%nat ∧ ∃ r, tbl !! h = Some r ∧ response_data r ∈ D
  | PDone _ => (n ≤ 1)%nat
  | _ => n = 0%nat
  end.

Definition keeps_written (h : string) (D : list payload)
  (tbl tbl' : gmap string row) : Prop :=
  (∃ r, tbl !! h = Some r ∧ response_data r ∈ D) →
  (∃ r, tbl' !! h = Some r ∧ response_data r ∈ D).

(** The same for several readers of one key. *)
Definition get_counted (h : string) (tbl : gmap string row)
  (ph : get_phase) (n : nat) : Prop :=
  match ph with
  | GTouch _ => n = 0%nat ∧ is_Some (tbl !! h)
  | GReleaseHit _ | GDone (Returned (Some _)) => n = 1%nat
  | GDone _ => (n ≤ 1)%nat
  | _ => n = 0%nat
  end.

Definition keeps_row (h : string) (tbl tbl' : gmap string row) : Prop :=
  is_Some (tbl !! h) → is_Some (tbl' !! h).

(** Writers of one query, each with its own payload. *)
Definition writer_at `{PyRuntime} `{TTLPolicy} (q : string)
  (x : payload * put_phase) : prog bool := put_at q x.1 x.2.
Definition writer_next (x : payload * put_phase) (r : exn + resp)
  : payload * put_phase := (x.1, put_next x.2 r).
Definition writer_waits (h q : string) (x : payload * put_phase)
  : option stmt := put_waits h q x.1 x.2.

(** The statements of a trace that read or write the table. *)
Definition on_table (s : stmt) : bool :=
  match s with
  | SelectLive _ | TouchHit _ | Upsert _ _ _ => true
  | _ => false
  end.

Definition table_stmts (tr : list (nat * stmt * Z)) : list stmt :=
  filter (λ s, on_table s = true) (tr.*1.*2).

(** The table statements a writer, respectively a reader, has issued by
    the time it is at a given point. *)
Definition put_issued (h q : string) (data : payload) (ph : put_phase)
  (stmts : list stmt) : Prop :=
  match ph with
  | PCheck | PCreate | PAcquire | PUpsert => stmts = []
  | PReleaseDone | PReleaseFailed _ | PDone (Returned true) =>
      stmts = [Upsert h q data]
  | PDone _ => stmts = [] ∨ stmts = [Upsert h q data]
  end.

Definition get_issued (h : string) (ph : get_phase) (stmts : list stmt)
  : Prop :=
  match ph with
  | GCheck | GCreate | GAcquire | GSelect => stmts = []
  | GTouch _ | GReleaseMiss => stmts = [SelectLive h]
  | GReleaseHit _ | GDone (Returned (Some _)) =>
      stmts = [SelectLive h; TouchHit h]
  | GReleaseFailed _ | GDone _ =>
      stmts = [] ∨ stmts = [SelectLive h] ∨ stmts = [SelectLive h; TouchHit h]
  end.

(** What a reader of key [h] that started at time [c0] on table [tbl0]
    has done by the time it is at a given point, [new] being the
    statements it has issued: until its UPDATE has run the table is as
    it was; once the UPDATE has run, at time [t_u], the row it read has
    one more hit and [last_accessed = t_u], and nothing else of it has
    changed. *)
Definition get_stamped (who : nat) (h : string) (tbl0 : gmap string row)
  (c0 : Z) (ph : get_phase) (w : world) (new : list (nat * stmt * Z))
  : Prop :=
  c0 ≤ clock w ∧
  match ph with
  | GTouch d =>
      table (wstore w) = tbl0 ∧
      ∃ r0 t_s, tbl0 !! h = Some r0 ∧ response_data r0 = d ∧
        (who, SelectLive h, t_s) ∈ new ∧
        c0 ≤ t_s ≤ clock w ∧ t_s < expires_at r0
  | GReleaseHit d | GDone (Returned (Some d)) =>
      ∃ r0 r1 t_s t_u, tbl0 !! h = Some r0 ∧ response_data r0 = d ∧
        (who, SelectLive h, t_s) ∈ new ∧ (who, TouchHit h, t_u) ∈ new ∧
        c0 ≤ t_s ≤ t_u ∧ t_u ≤ clock w ∧ t_s < expires_at r0 ∧
        table (wstore w) !! h = Some r1 ∧
        last_accessed r1 = t_u ∧ hit_count r1 = hit_count r0 + 1 ∧
        query_text r1 = query_text r0 ∧ response_data r1 = response_data r0 ∧
        created_at r1 = created_at r0 ∧ expires_at r1 = expires_at r0
  | GReleaseFailed _ | GDone _ => True
  | _ => table (wstore w) = tbl0
  end.

(** The number of finished readers that returned a payload. *)
Definition served_count (l : list (prog (option payload))) : nat :=
  length (filter (λ p, served p = true) l).

(** A tick with no failure. *)
Definition smooth (t : tick) : Prop := fault t = None.

(** A writer, and a reader of key [h] holding row [r0], while nothing
    fails. *)
Definition put_smooth (ph : put_phase) (w : world) : Prop :=
  match ph with
  | PCheck | PCreate => True
  | PAcquire | PUpsert | PReleaseDone => is_Some (pool (wstore w))
  | PReleaseFailed _ => False
  | PDone o => o = Returned true
  end.

Definition get_smooth (h : string) (r0 : row) (ph : get_phase) (w : world)
  : Prop :=
  let tbl := table (wstore w) in
  match ph with
  | GCheck | GCreate => tbl !! h = Some r0
  | GAcquire | GSelect => is_Some (pool (wstore w)) ∧ tbl !! h = Some r0
  | GTouch d =>
      is_Some (pool (wstore w)) ∧ tbl !! h = Some r0 ∧ d = response_data r0
  | GReleaseHit d =>
      is_Some (pool (wstore w)) ∧ d = response_data r0 ∧
      ∃ t, tbl !! h = Some (touch t r0)
  | GReleaseMiss =>
      is_Some (pool (wstore w)) ∧ tbl !! h = Some r0 ∧ expires_at r0 ≤ clock w
  | GDone (Returned (Some d)) =>
      d = response_data r0 ∧ ∃ t, tbl !! h = Some (touch t r0)
  | GDone (Returned None) => tbl !! h = Some r0 ∧ expires_at r0 ≤ clock w
  | GReleaseFailed _ | GDone (Raised _) => False
  end.

End ResponseCache.

(** ** The synchronous bridge (services/database_wrapper.py) *)

Module DatabaseWrapper.
Import ResponseCache.

(** The thread that calls the wrapper, and the thread the executor
    starts. *)
Definition caller : nat := 0%nat.
Definition worker : nat := 1%nat.

(** Event loops, told apart by a number. *)
Definition loop_id : Type := nat.

(** [self.loop], captured once, in [__init__]; [self.pg_service] is the
    store of the world. *)
Record wrapper : Type := Wrapper { loop : loop_id }.

(** The event loops around a call: the loop running in the calling
    thread, if any, the loops running in other threads, and the loops
    that have been closed. *)
Record loops : Type := Loops {
  running_here : option loop_id;
  running_elsewhere : list loop_id;
  closed : list loop_id
}.

(** [loop.is_running()]: the loop is being run, by whichever thread. *)
Definition is_running (l : loop_id) (ctx : loops) : bool :=
  bool_decide (running_here ctx = Some l ∨ l ∈ running_elsewhere ctx).

(** [loop.is_closed()] *)
Definition is_closed (l : loop_id) (ctx : loops) : bool :=
  bool_decide (l ∈ closed ctx).

(** What the caller of the bridge gets: the coroutine's result, the
    coroutine's exception, or the [RuntimeError] with which asyncio
    refuses to run anything. *)
Inductive bridge_result (A : Type) : Type :=
  | Result (a : A)
  | Reraised (e : exn)
  | RuntimeError (msg : string).
Arguments Result {A} a.
Arguments Reraised {A} e.
Arguments RuntimeError {A} msg.

Definition of_outcome {A : Type} (o : outcome A) : bridge_result A :=
  match o with
  | Returned a => Result a
  | Raised e => Reraised e
  end.

(** What the bridge itself does, in program order. *)
Inductive bridge_event : Type :=
  | RunUntilComplete   (* self.loop.run_until_complete(coro) *)
  | Submit             (* executor.submit(asyncio.run, coro) *)
  | AsyncioRun         (* the worker: asyncio.run(coro), on a loop of its own *)
  | FutureResult       (* future.result(): the caller waits for the worker *)
  | Shutdown.          (* leaving the with block: executor.shutdown(wait=True) *)

Record bridged (A : Type) : Type := Bridged {
  bridge_outcome : bridge_result A;
  bridge_script : list tick;
  bridge_world : world;
  bridge_events : list bridge_event
}.
Arguments Bridged {A} _ _ _ _.
Arguments bridge_outcome {A} _.
Arguments bridge_script {A} _.
Arguments bridge_world {A} _.
Arguments bridge_events {A} _.

Section bridge.
Context `{PyRuntime} `{TTLPolicy}.

(** [loop.run_until_complete(coro)]: asyncio first checks the loop
    ([_check_closed], then [_check_running]) and raises [RuntimeError],
    without starting the coroutine, when the loop is closed, when it is
    already running, or when another loop is running in the calling
    thread. Otherwise the calling thread drives the coroutine; its
    result is returned, its exception raised. *)
Definition run_until_complete {A : Type} (l : loop_id) (ctx : loops)
  (coro : prog A) (script : list tick) (w : world)
  : bridge_result A * list tick * world :=
  if is_closed l ctx then
    (RuntimeError "Event loop is closed", script, w)
  else if is_running l ctx then
    (RuntimeError "This event loop is already running", script, w)
  else if running_here ctx is Some _ then
    (RuntimeError "Cannot run the event loop while another loop is running",
     script, w)
  else
    let r := run caller coro script w in
    (of_outcome (outcome_of r), r.1.2, world_of r).

(** [asyncio.run(coro)] in a thread where loop [here] is running, or
    none: it refuses when a loop is running there; otherwise it makes a
    loop of its own, drives the coroutine on it and closes it. The loop
    is new at every call, while the pool of [pg_service] stays in the
    store from one call to the next: what an awaited call on the pool
    does, raising included, is what the script says. *)
Definition asyncio_run {A : Type} (here : option loop_id) (coro : prog A)
  (script : list tick) (w : world) : bridge_result A * list tick * world :=
  if here is Some _ then
    (RuntimeError "asyncio.run() cannot be called from a running event loop",
     script, w)
  else
    let r := run worker coro script w in
    (of_outcome (outcome_of r), r.1.2, world_of r).

(** [future.result()]: the stored result, or the stored exception raised
    in the caller. *)
Definition future_result {A : Type} (future : bridge_result A)
  : bridge_result A :=
  match future with
  | Result a => Result a
  | Reraised e => Reraised e
  | RuntimeError msg => RuntimeError msg
  end.

(** The test is on the wrapper's own loop, [self.loop.is_running()], not
    on the calling thread. The executor's thread is new: no loop is
    running in it. *)
Definition _run_async {A : Type} (self : wrapper) (ctx : loops)
  (coro : prog A) (script : list tick) (w : world) : bridged A :=
  if negb (is_running (loop self) ctx) then
    let r := run_until_complete (loop self) ctx coro script w in
    Bridged r.1.1 r.1.2 r.2 [RunUntilComplete]
  else
    let r := asyncio_run None coro script w in
    let future := r.1.1 in
    Bridged (future_result future) r.1.2 r.2
      [Submit; AsyncioRun; FutureResult; Shutdown].

(** The sync interface built on the bridge. *)
Definition get_cached_response (self : wrapper) (ctx : loops)
  (query : string) :=
  _run_async self ctx (ResponseCache.get_cached_response query).

Definition cache_response (self : wrapper) (ctx : loops) (query : string)
  (response_data : payload) :=
  _run_async self ctx (ResponseCache.cache_response query response_data).

(** What the spec calls driving an operation to completion on a thread
    of control, stated on its own: the thread performs each call the
    operation awaits, in order, and hands the answer back, until the
    operation returns or raises. [driven who p sc w o sc' w'] reads:
    driven by [who] from world [w] under script [sc], [p] ends with
    outcome [o], leaving script [sc'] and world [w']. *)
Inductive driven {A : Type} (who : nat)
  : prog A → list tick → world → outcome A → list tick → world → Prop :=
  | driven_Return a sc w : driven who (Return a) sc w (Returned a) sc w
  | driven_Raise e sc w : driven who (Raise e) sc w (Raised e) sc w
  | driven_Await s k sc w answer w1 o sc' w' :
      perform who s (hd calm sc) w = (answer, w1) →
      driven who (k answer) (if is_sync s then sc else tl sc) w1 o sc' w' →
      driven who (Await s k) sc w o sc' w'.

End bridge.

(** A wrapper around loop 0; a thread with no loop running; and a thread
    in which another loop, 1, is running while loop 0 is not. *)
Definition wrapper0 : wrapper := {| loop := 0%nat |}.

Definition idle_thread : loops :=
  {| running_here := None; running_elsewhere := []; closed := [] |}.

Definition inside_other_loop : loops :=
  {| running_here := Some 1%nat; running_elsewhere := []; closed := [] |}.

(** A thread called back from the wrapper's own loop. *)
Definition inside_own_loop : loops :=
  {| running_here := Some 0%nat; running_elsewhere := []; closed := [] |}.

End DatabaseWrapper.

(** ** ContextCache: construction and persistence (auth_and_cache.py) *)

Module ChunkCachePersistence.
Import ContextCache.

Section persistence.
Context `{PyRuntime} `{EmbeddingModel}.

(** The two pickle files, [None] when a file does not exist. *)
Record disk : Type := Disk {
  exact_pkl : option (gmap string string);
  sem_pkl : option (list (Emb * string))
}.

(** [_load_caches]: both indexes start empty and are replaced by the
    content of their file when the file exists. *)
Definition _load_caches (thr : Threshold) (d : disk) : cache :=
  {| exact_cache := default ∅ (exact_pkl d);
     sem_cache := default [] (sem_pkl d);
     sem_threshold := thr;
     exact_file := exact_pkl d;
     sem_file := sem_pkl d |}.

(** [__init__]: the fields are set and the caches loaded. *)
Definition __init__ (thr : Threshold) (d : disk) : cache := _load_caches thr d.

(** What is on disk when the process stops. *)
Definition disk_of (self : cache) : disk :=
  {| exact_pkl := exact_file self; sem_pkl := sem_file self |}.

(** The files hold what the indexes hold (a missing file standing for an
    empty index). *)
Definition written_through (self : cache) : Prop :=
  exact_cache self = default ∅ (exact_file self) ∧
  sem_cache self = default [] (sem_file self).

(** The two indexes agree: every text of the exact index is stored
    under its own hash, every entry of the semantic index pairs a text
    with its own embedding and that text is in the exact index, and no
    text is in the semantic index twice. *)
Definition coupled (self : cache) : Prop :=
  (∀ h t, exact_cache self !! h = Some t → h = _hash t) ∧
  Forall (λ et, et.1 = encode et.2 ∧
                exact_cache self !! _hash et.2 = Some et.2)
         (sem_cache self) ∧
  NoDup (sem_cache self).*2 ∧
  size (exact_cache self) = length (sem_cache self).

(** The similarity test of an entry against a chunk. *)
Definition passes (self : cache) (chunk : string) (et : Emb * string) : bool :=
  sim_ge et.1 (encode chunk) (sem_threshold self).

End persistence.

Definition no_files : @disk toy_model :=
  {| exact_pkl := None; sem_pkl := None |}.

(** A cache with threshold 1 that has seen three texts of lengths 7, 2
    and 4: a text of length 3 is close to the second and to the third. *)
Definition near_cache : toy_cache :=
  run_ops (H := toy_runtime)
    [GetChunk "abcdefg"; GetChunk "ab"; GetChunk "abcd"]
    (__init__ (H0 := toy_model) 1%nat no_files).

End ChunkCachePersistence.

(** ** User accounts (auth_and_cache.py) *)

Module UserAuth.

(** An entry of [db["usernames"]]. *)
Record user_rec : Type := UserRec {
  rec_name : string;
  rec_email : string;
  rec_password : string;
  rec_role : string
}.

(** What [login_user] returns. *)
Record user_info : Type := UserInfo {
  info_username : string;
  info_name : string;
  info_role : string;
  info_email : string
}.

Inductive auth_error : Type :=
  | KeyError (key : string)
  | ValueError (msg : string).

Section accounts.
Context `{PyRuntime}.

(** The content of users.yaml: [None] when the file does not exist,
    otherwise the mapping under "usernames". *)
Definition load_users (file : option (gmap string user_rec))
  : gmap string user_rec * option (gmap string user_rec) :=
  match file with
  | None => (∅, Some ∅)
  | Some db => (db, Some db)
  end.

Definition save_users (db : gmap string user_rec)
  : option (gmap string user_rec) := Some db.

(** [all(form_data.values())]: no value is the empty string. *)
Definition all_filled (form_data : gmap string string) : bool :=
  forallb (λ kv, negb (String.eqb kv.2 "")) (map_to_list form_data).

Definition signup_user (form_data : gmap string string)
  (file : option (gmap string user_rec))
  : (auth_error + bool) * option (gmap string user_rec) :=
  let '(db, file) := load_users file in
  match form_data !! "username" with
  | None => (inl (KeyError "username"), file)
  | Some u =>
  if negb (all_filled form_data)
  then (inl (ValueError "All fields are required."), file) else
  match form_data !! "password" with
  | None => (inl (KeyError "password"), file)
  | Some password =>
  match form_data !! "confirm_password" with
  | None => (inl (KeyError "confirm_password"), file)
  | Some confirm =>
  if negb (String.eqb password confirm)
  then (inl (ValueError "Passwords must match."), file) else
  if bool_decide (is_Some (db !! u))
  then (inl (ValueError "Username already exists."), file) else
  let pw_hash := sha256_hexdigest password in
  match form_data !! "name" with
  | None => (inl (KeyError "name"), file)
  | Some name =>
  match form_data !! "email" with
  | None => (inl (KeyError "email"), file)
  | Some email =>
  match form_data !! "role" with
  | None => (inl (KeyError "role"), file)
  | Some role =>
      let rec := {| rec_name := name; rec_email := email;
                    rec_password := pw_hash; rec_role := role |} in
      (inr true, save_users (<[u := rec]> db))
  end end end end end
  end.

Definition login_user (username password : string)
  (file : option (gmap string user_rec))
  : (auth_error + user_info) * option (gmap string user_rec) :=
  let '(db, file) := load_users file in
  match db !! username with
  | None => (inl (ValueError "Unknown username."), file)
  | Some rec =>
      if negb (String.eqb (sha256_hexdigest password) (rec_password rec))
      then (inl (ValueError "Invalid credentials."), file)
      else (inr {| info_username := username; info_name := rec_name rec;
                   info_role := rec_role rec; info_email := rec_email rec |},
            file)
  end.

(** [logout_user]: a placeholder. *)
Definition logout_user (file : option (gmap string user_rec))
  : option (gmap string user_rec) := file.

(** The registered users. *)
Definition users_of (file : option (gmap string user_rec))
  : gmap string user_rec := default ∅ file.

(** Any sequence of calls. *)
Inductive auth_op : Type :=
  | Signup (form_data : gmap string string)
  | Login (username password : string)
  | Logout.

Definition apply_auth (file : option (gmap string user_rec)) (o : auth_op)
  : option (gmap string user_rec) :=
  match o with
  | Signup form_data => (signup_user form_data file).2
  | Login u p => (login_user u p file).2
  | Logout => logout_user file
  end.

Definition run_auth (ops : list auth_op) (file : option (gmap string user_rec))
  : option (gmap string user_rec) := foldl apply_auth file ops.

End accounts.

(** A filled-in signup form. *)
Definition alice_form : gmap string string :=
  list_to_map [("username", "alice"); ("name", "Alice Johnson");
               ("email", "alice@student.edu"); ("password", "student123");
               ("confirm_password", "student123"); ("role", "student")].

End UserAuth.

(** ** Roles and permissions (models/user.py) *)

Module Models.

Inductive UserRole : Type := ADMIN | STUDENT | TEACHER | PARENT.

(** [role.value] *)
Definition role_value (r : UserRole) : string :=
  match r with
  | ADMIN => "admin"
  | STUDENT => "student"
  | TEACHER => "teacher"
  | PARENT => "parent"
  end.

(** [UserRole(s)]: the member with value [s]; [None] stands for the
    [ValueError] raised when there is none. *)
Definition role_of_value (s : string) : option UserRole :=
  if String.eqb s "admin" then Some ADMIN
  else if String.eqb s "student" then Some STUDENT
  else if String.eqb s "teacher" then Some TEACHER
  else if String.eqb s "parent" then Some PARENT
  else None.

Global Instance UserRole_eq_dec : EqDecision UserRole.
Proof. solve_decision. Defined.

Record User : Type := MkUser {
  id : string;
  username : string;
  name : string;
  email : string;
  password_hash : string;
  role : UserRole;
  parent_ids : option (list string);
  student_ids : option (list string);
  class_ids : option (list string);
  created_at : option string;
  last_login : option string;
  is_active : bool
}.

Definition can_upload_documents (u : User) : bool :=
  bool_decide (role u = ADMIN).

Definition can_view_analytics (u : User) : bool :=
  bool_decide (role u ∈ [ADMIN; TEACHER]).

Definition can_view_student_progress (u : User) : bool :=
  bool_decide (role u ∈ [PARENT; TEACHER]).

End Models.

(** ** The response cache: rows, keys and the pool *)

Module ResponseCacheLifecycle.
Import ResponseCache.

(** Row [r'] is row [r] some time later: same query text, creation time
    and expiry, and no fewer hits. *)
Definition later_row (r r' : row) : Prop :=
  query_text r' = query_text r ∧
  created_at r' = created_at r ∧
  expires_at r' = expires_at r ∧
  hit_count r ≤ hit_count r'.

(** Key [h] holds row [r], possibly some time later. *)
Definition holds_row (h : string) (r : row) (w : world) : Prop :=
  ∃ r', table (wstore w) !! h = Some r' ∧ later_row r r'.

(** A write under one query followed by a read under another. *)
Definition put_then_get_as `{PyRuntime} `{TTLPolicy} (written : string)
  (data : payload) (read : string) : prog (bool * option payload) :=
  let* ok := cache_response written data in
  let* got := get_cached_response read in
  Return (ok, got).

(** The number of connections handed out, 0 before there is a pool. *)
Definition handed_out (w : world) : nat := default 0%nat (pool (wstore w)).

(** Where a reader, respectively a writer, stands with the pool, given
    the pool [p0] it started with. *)
Definition get_holds (p0 : option nat) (ph : get_phase) (w : world) : Prop :=
  let p := pool (wstore w) in
  match ph with
  | GCheck => p = p0
  | GCreate => p = None ∧ p0 = None
  | GAcquire => p = Some (default 0%nat p0)
  | GSelect | GTouch _ | GReleaseHit _ | GReleaseMiss | GReleaseFailed _ =>
      p = Some (S (default 0%nat p0))
  | GDone (Returned (Some _)) => p = Some (default 0%nat p0)
  | GDone _ => True
  end.

Definition put_holds (p0 : option nat) (ph : put_phase) (w : world) : Prop :=
  let p := pool (wstore w) in
  match ph with
  | PCheck => p = p0
  | PCreate => p = None ∧ p0 = None
  | PAcquire => p = Some (default 0%nat p0)
  | PUpsert | PReleaseDone | PReleaseFailed _ => p = Some (S (default 0%nat p0))
  | PDone (Returned true) => p = Some (default 0%nat p0)
  | PDone _ => True
  end.

(** The statements of a trace. *)
Definition stmts_of (tr : list (nat * stmt * Z)) : list stmt := tr.*1.*2.

(** A reader, respectively a writer, that started with a pool in place:
    it is never at [create_pool], the pool is still there, and the
    statements [new] it has issued hold no [create_pool]. *)
Definition get_reuses (ph : get_phase) (w : world) (new : list stmt) : Prop :=
  is_Some (pool (wstore w)) ∧ ph ≠ GCreate ∧ CreatePool ∉ new.

Definition put_reuses (ph : put_phase) (w : world) (new : list stmt) : Prop :=
  is_Some (pool (wstore w)) ∧ ph ≠ PCreate ∧ CreatePool ∉ new.

(** A reader, respectively a writer, while nothing fails: past
    [create_pool] there is a pool. *)
Definition get_pooled (ph : get_phase) (w : world) : Prop :=
  match ph with
  | GCheck | GCreate => True
  | GReleaseFailed _ | GDone (Raised _) => False
  | _ => is_Some (pool (wstore w))
  end.

Definition put_pooled (ph : put_phase) (w : world) : Prop :=
  match ph with
  | PCheck | PCreate => True
  | PReleaseFailed _ | PDone (Raised _) => False
  | _ => is_Some (pool (wstore w))
  end.

End ResponseCacheLifecycle.

(** ** Activities (models/activity.py) *)

Module Activity.

Inductive ActivityType : Type :=
  QUERY | LOGIN | LOGOUT | DOCUMENT_VIEW | RESPONSE_RATING.

(** [activity_type.value] *)
Definition activity_type_value (t : ActivityType) : string :=
  match t with
  | QUERY => "query"
  | LOGIN => "login"
  | LOGOUT => "logout"
  | DOCUMENT_VIEW => "document_view"
  | RESPONSE_RATING => "response_rating"
  end.

(** A float; the code hands it on unread. *)
Definition float : Type := Stdlib.QArith.QArith_base.Q.

Record StudentActivity : Type := MkStudentActivity {
  activity_id : string;
  student_id : string;
  session_id : string;
  activity_type : ActivityType;
  timestamp : string;
  query_text : option string;
  response_text : option string;
  sources_used : option (list string);
  response_time_ms : option Z;
  grounding_confidence : option float;
  detected_topics : option (list string);
  difficulty_level : option string;
  session_duration_sec : option Z;
  follow_up_questions : option Z;
  satisfaction_rating : option Z;
  ip_address : option string;
  user_agent : option string;
  metadata : option (gmap string string)
}.

End Activity.

(** ** PostgreSQLService: users, activities and closing the pool
    (services/postgresql_service.py) *)

Module UserService.
Import Models Activity.

(** [datetime.isoformat()] and [datetime.fromisoformat(s)], the latter
    [None] where Python raises [ValueError]. *)
Class Calendar : Type := {
  isoformat : Z → string;
  fromisoformat : string → option Z
}.

(** What can be raised in these methods: what an awaited call raises,
    [AttributeError] included, and the two exceptions of the code's own
    conversions. All of [ValueError] and [KeyError] are instances of
    [Exception]. *)
Inductive raised : Type :=
  | Exn (e : ResponseCache.exn)
  | ValueError (value : string)
  | KeyError (key : string).

Definition is_Exception (e : raised) : bool :=
  match e with
  | Exn e => ResponseCache.is_Exception e
  | ValueError _ | KeyError _ => true
  end.

(** A row of table [users] as the code reads it: [row_id] is
    [str(row['id'])]; the three lists are read with [row.get] and are
    [None] when there are none; the two timestamps can be NULL. *)
Record user_row : Type := UserRow {
  row_id : string;
  row_username : string;
  row_name : string;
  row_email : string;
  row_password_hash : string;
  row_role : string;
  row_parent_ids : option (list string);
  row_student_ids : option (list string);
  row_class_ids : option (list string);
  row_created_at : option Z;
  row_last_login : option Z;
  row_is_active : bool
}.

(** The values of one row of the INSERT of [log_activity], the fresh
    [str(uuid.uuid4())] of $1 apart: the activity's own fields for
    $2, $3 and $6 to $17, and the three computed ones. *)
Record activity_values : Type := ActivityValues {
  values_of : StudentActivity;
  type_value : string;                  (* $4: activity.activity_type.value *)
  at_time : Z;                          (* $5: datetime.fromisoformat(activity.timestamp) *)
  metadata_value : gmap string string   (* $18: activity.metadata if activity.metadata else {} *)
}.

(** A value of an activity dict; the code hands it on unread. *)
Definition value : Type := string.

(** One tuple of the [executemany] of [log_activity_batch], the fresh
    [str(uuid.uuid4())] apart. *)
Record batch_values : Type := BatchValues {
  batch_student_id : value;
  batch_session_id : value;
  batch_activity_type : value;
  batch_query_text : option value;
  batch_response_text : option value;
  batch_response_time_ms : option value;
  batch_grounding_confidence : option value
}.

(** The interactions with the pool and the database, one per [await],
    and one each for reading and for resetting [self.pool]. *)
Inductive request : Type :=
  | CheckPool                                (* if self.pool / if not self.pool *)
  | NewPool                                  (* await asyncpg.create_pool(...) *)
  | AcquireConn                              (* await self.pool.acquire() *)
  | ReleaseConn                              (* await self.pool.release(conn) *)
  | ClosePool                                (* await self.pool.close() *)
  | DropPool                                 (* self.pool = None *)
  | SelectUserByUsername (username : string) (* SELECT * FROM users WHERE username = $1 *)
  | SelectUserById (user_id : string)        (* SELECT * FROM users WHERE id = $1::uuid *)
  | SelectStudentsOfParent (parent_id : string)
                                             (* SELECT u.* FROM users u JOIN user_relationships ... *)
  | InsertActivity (v : activity_values)     (* INSERT INTO student_activities ... *)
  | InsertActivities (vs : list batch_values).
                                             (* executemany(INSERT INTO student_activities ...) *)

Inductive answer : Type :=
  | AUnit
  | APool (ready : bool)
  | ARows (rows : list user_row).

(** The service as these methods see it: the pool (number of
    connections handed out, [None] when there is no pool), what the
    database answers to each query, and the requests made so far. *)
Record service : Type := Service {
  pool : option nat;
  database : request → list user_row;
  issued : list request
}.

(** Reading and resetting [self.pool] are not awaited: they cannot
    fail. *)
Definition is_local (s : request) : bool :=
  match s with CheckPool | DropPool => true | _ => false end.

(** One request that does not fail. *)
Definition effect (s : request) (rows : list user_row) (p : option nat)
  : (raised + answer) * option nat :=
  match s with
  | CheckPool => (inr (APool (bool_decide (is_Some p))), p)
  | NewPool => (inr AUnit, Some 0%nat)
  | AcquireConn =>
      match p with
      | Some n => (inr AUnit, Some (S n))
      | None => (inl (Exn ResponseCache.AttributeError), p)
      end
  | ReleaseConn =>
      match p with
      | Some n => (inr AUnit, Some (Nat.pred n))
      | None => (inl (Exn ResponseCache.AttributeError), p)
      end
  | ClosePool =>
      match p with
      | Some n => (inr AUnit, p)
      | None => (inl (Exn ResponseCache.AttributeError), p)
      end
  | DropPool => (inr AUnit, None)
  | SelectUserByUsername _ | SelectUserById _ | SelectStudentsOfParent _ =>
      (inr (ARows rows), p)
  | InsertActivity _ | InsertActivities _ => (inr AUnit, p)
  end.

(** A request made under [failure]: an awaited call that fails raises
    and changes nothing. *)
Definition perform (s : request) (failure : option ResponseCache.exn)
  (w : service) : (raised + answer) * service :=
  let log := issued w ++ [s] in
  match (if is_local s then None else failure) with
  | Some e => (inl (Exn e),
               {| pool := pool w; database := database w; issued := log |})
  | None =>
      let r := effect s (database w s) (pool w) in
      (r.1, {| pool := r.2; database := database w; issued := log |})
  end.

(** *** Coroutines *)

Inductive task (A : Type) : Type :=
  | Done (a : A)
  | Throw (e : raised)
  | Wait (s : request) (k : raised + answer → task A).
Arguments Done {A} a.
Arguments Throw {A} e.
Arguments Wait {A} s k.

Fixpoint and_then {A B : Type} (p : task A) (f : A → task B) : task B :=
  match p with
  | Done a => f a
  | Throw e => Throw e
  | Wait s k => Wait s (λ r, and_then (k r) f)
  end.

Notation "'let*' x := p 'in' q" := (and_then p (λ x, q))
  (at level 10, x name, p at level 100, q at level 200, only parsing).
Notation "p >> q" := (and_then p (λ _, q))
  (at level 100, q at level 200, right associativity, only parsing).

(** [try: p except e: handler e] *)
Fixpoint try_except {A : Type} (p : task A) (handler : raised → task A)
  : task A :=
  match p with
  | Done a => Done a
  | Throw e => handler e
  | Wait s k => Wait s (λ r, try_except (k r) handler)
  end.

(** [try: p finally: fin] *)
Fixpoint try_finally {A : Type} (p : task A) (fin : task unit) : task A :=
  match p with
  | Done a => fin >> Done a
  | Throw e => fin >> Throw e
  | Wait s k => Wait s (λ r, try_finally (k r) fin)
  end.

(** A value computed in place, or the exception of computing it. *)
Definition evaluate {A : Type} (x : raised + A) : task A :=
  match x with inl e => Throw e | inr a => Done a end.

Definition call (s : request) : task answer := Wait s evaluate.

Definition pool_is_set : task bool :=
  let* r := call CheckPool in
  Done (match r with APool b => b | _ => false end).

Definition execute (s : request) : task unit := call s >> Done tt.

(** [conn.fetch]: the rows of the result. *)
Definition fetch (s : request) : task (list user_row) :=
  let* r := call s in
  Done (match r with ARows rows => rows | _ => [] end).

(** [conn.fetchrow]: the first row of the result, [None] when it has
    none. *)
Definition fetchrow (s : request) : task (option user_row) :=
  let* rows := fetch s in
  Done (head rows).

(** [except Exception as e: print(...); return default] *)
Definition except_Exception {A : Type} (default : A) (e : raised) : task A :=
  if is_Exception e then Done default else Throw e.

Definition initialize_pool : task unit := execute NewPool.

(** [get_connection] up to its [yield]. *)
Definition acquire_connection : task unit :=
  let* ready := pool_is_set in
  (if ready then Done tt else initialize_pool) >>
  execute AcquireConn.

(** [async with self.get_connection() as conn: body] *)
Definition with_connection {A : Type} (body : task A) : task A :=
  acquire_connection >>
  try_finally body (execute ReleaseConn).

Section service_methods.
Context `{Calendar}.

(** [User(id=str(row['id']), ..., role=UserRole(row['role']), ...,
    created_at=row['created_at'].isoformat(), last_login=... )]: the
    arguments are evaluated in order, so a bad role is reported before a
    NULL [created_at]. *)
Definition user_of_row (row : user_row) : raised + User :=
  match role_of_value (row_role row) with
  | None => inl (ValueError (row_role row))
  | Some r =>
      match row_created_at row with
      | None => inl (Exn ResponseCache.AttributeError)
      | Some created =>
          inr {| id := row_id row;
                 username := row_username row;
                 name := row_name row;
                 email := row_email row;
                 password_hash := row_password_hash row;
                 role := r;
                 parent_ids := row_parent_ids row;
                 student_ids := row_student_ids row;
                 class_ids := row_class_ids row;
                 created_at := Some (isoformat created);
                 last_login := isoformat <$> row_last_login row;
                 is_active := row_is_active row |}
      end
  end.

(** [if row: return User(...)] then [return None] *)
Definition user_of_fetched (row : option user_row) : task (option User) :=
  match row with
  | Some row =>
      let* user := evaluate (user_of_row row) in
      Done (Some user)
  | None => Done None
  end.

Definition get_user_by_username (username : string) : task (option User) :=
  try_except
    (with_connection
       (let* row := fetchrow (SelectUserByUsername username) in
        user_of_fetched row))
    (except_Exception None).

Definition get_user_by_id (user_id : string) : task (option User) :=
  try_except
    (with_connection
       (let* row := fetchrow (SelectUserById user_id) in
        user_of_fetched row))
    (except_Exception None).

(** [for row in rows: students.append(User(...))] *)
Fixpoint append_students (rows : list user_row) (students : list User)
  : task (list User) :=
  match rows with
  | [] => Done students
  | row :: rows =>
      let* user := evaluate (user_of_row row) in
      append_students rows (students ++ [user])
  end.

Definition get_students_for_parent (parent_id : string) : task (list User) :=
  try_except
    (with_connection
       (let* rows := fetch (SelectStudentsOfParent parent_id) in
        append_students rows []))
    (except_Exception []).

(** The arguments of the INSERT of [log_activity], evaluated after the
    connection is acquired and before the statement is awaited. *)
Definition values_of_activity (activity : StudentActivity)
  : raised + activity_values :=
  match fromisoformat (timestamp activity) with
  | None => inl (ValueError (timestamp activity))
  | Some t =>
      inr {| values_of := activity;
             type_value := activity_type_value (activity_type activity);
             at_time := t;
             metadata_value :=
               match metadata activity with
               | Some m => if bool_decide (m = ∅) then ∅ else m
               | None => ∅
               end |}
  end.

Definition log_activity (activity : StudentActivity) : task bool :=
  try_except
    (with_connection
       (let* v := evaluate (values_of_activity activity) in
        execute (InsertActivity v) >>
        Done true))
    (except_Exception false).

End service_methods.

(** [activity['student_id']]: [KeyError] when the key is missing. *)
Definition item (activity : gmap string value) (key : string)
  : raised + value :=
  match activity !! key with
  | Some v => inr v
  | None => inl (KeyError key)
  end.

(** One tuple of the list comprehension of [log_activity_batch]. *)
Definition values_of_dict (activity : gmap string value)
  : raised + batch_values :=
  match item activity "student_id" with
  | inl e => inl e
  | inr student =>
      match item activity "session_id" with
      | inl e => inl e
      | inr session =>
          match item activity "activity_type" with
          | inl e => inl e
          | inr type =>
              inr {| batch_student_id := student;
                     batch_session_id := session;
                     batch_activity_type := type;
                     batch_query_text := activity !! "query_text";
                     batch_response_text := activity !! "response_text";
                     batch_response_time_ms := activity !! "response_time_ms";
                     batch_grounding_confidence :=
                       activity !! "grounding_confidence" |}
          end
      end
  end.

(** [[(...) for activity in activities]] *)
Fixpoint values_of_dicts (activities : list (gmap string value))
  : raised + list batch_values :=
  match activities with
  | [] => inr []
  | activity :: activities =>
      match values_of_dict activity with
      | inl e => inl e
      | inr v =>
          match values_of_dicts activities with
          | inl e => inl e
          | inr vs => inr (v :: vs)
          end
      end
  end.

(** No [try] here: whatever is raised reaches the caller. *)
Definition log_activity_batch (activities : list (gmap string value))
  : task bool :=
  with_connection
    (let* vs := evaluate (values_of_dicts activities) in
     execute (InsertActivities vs) >>
     Done true).

Definition close : task unit :=
  let* ready := pool_is_set in
  if ready then
    execute ClosePool >>
    execute DropPool
  else Done tt.

(** *** Running a coroutine

    [script] says, for each awaited call in turn, whether it fails and
    with what; nothing fails once it runs out. The result is what the
    coroutine returned or raised, the unused part of the script, and the
    service at the end. *)
Fixpoint run {A : Type} (p : task A) (script : list (option ResponseCache.exn))
  (w : service) : (raised + A) * list (option ResponseCache.exn) * service :=
  match p with
  | Done a => (inr a, script, w)
  | Throw e => (inl e, script, w)
  | Wait s k =>
      let r := perform s (hd None script) w in
      run (k r.1) (if is_local s then script else tl script) r.2
  end.

(** Every failure of the script is an instance of [Exception]. *)
Definition benign (f : option ResponseCache.exn) : Prop :=
  match f with
  | Some e => ResponseCache.is_Exception e = true
  | None => True
  end.

(** A coroutine whose own [raise]s, as long as the calls it awaits raise
    instances of [Exception] only, are instances of [Exception]. *)
Inductive tame {A : Type} : task A → Prop :=
  | tame_Done a : tame (Done a)
  | tame_Throw e : is_Exception e = true → tame (Throw e)
  | tame_Wait s k :
      (∀ r, (if r is inl e then is_Exception e = true else True) → tame (k r)) →
      tame (Wait s k).

(** A [datetime] as seconds, with an ISO text for the first second
    only. *)
Definition toy_calendar : Calendar := {|
  isoformat t := if bool_decide (t = 0) then "1970-01-01T00:00:00" else "later";
  fromisoformat s :=
    if String.eqb s "1970-01-01T00:00:00" then Some 0 else None
|}.

Definition bob_row : user_row := {|
  row_id := "7"; row_username := "bob"; row_name := "Bob";
  row_email := "bob@example.org"; row_password_hash := "x";
  row_role := "student";
  row_parent_ids := None; row_student_ids := None; row_class_ids := None;
  row_created_at := Some 0; row_last_login := None; row_is_active := true
|}.

(** A database that holds [bob_row] under every query, and a service
    with no pool yet. *)
Definition bob_service : service :=
  {| pool := None; database := λ _, [bob_row]; issued := [] |}.

(** The same database, with two connections handed out. *)
Definition busy_service : service :=
  {| pool := Some 2%nat; database := λ _, [bob_row]; issued := [] |}.

(** A row whose role is none of the four. *)
Definition guest_row : user_row := {|
  row_id := "8"; row_username := "eve"; row_name := "Eve";
  row_email := "eve@example.org"; row_password_hash := "y";
  row_role := "guest";
  row_parent_ids := None; row_student_ids := None; row_class_ids := None;
  row_created_at := Some 0; row_last_login := None; row_is_active := true
|}.

Definition mixed_service : service :=
  {| pool := None; database := λ _, [bob_row; guest_row]; issued := [] |}.

Definition login_of_bob : StudentActivity := {|
  activity_id := "a1"; student_id := "7"; session_id := "s1";
  activity_type := LOGIN; timestamp := "1970-01-01T00:00:00";
  query_text := None; response_text := None; sources_used := None;
  response_time_ms := None; grounding_confidence := None;
  detected_topics := None; difficulty_level := None;
  session_duration_sec := None; follow_up_questions := None;
  satisfaction_rating := None; ip_address := None; user_agent := None;
  metadata := None
|}.

(** The same activity with a timestamp that is not ISO text. *)
Definition undated_login : StudentActivity := {|
  activity_id := "a2"; student_id := "7"; session_id := "s1";
  activity_type := LOGIN; timestamp := "yesterday";
  query_text := None; response_text := None; sources_used := None;
  response_time_ms := None; grounding_confidence := None;
  detected_topics := None; difficulty_level := None;
  session_duration_sec := None; follow_up_questions := None;
  satisfaction_rating := None; ip_address := None; user_agent := None;
  metadata := None
|}.

(** An activity dict without ["session_id"]. *)
Definition no_session : gmap string value :=
  {[ "student_id" := "7" ]}.

End UserService.

(** * Properties *)

(** ** ContextCache *)

Module ContextCacheProofs.
Import ContextCache.

Section chunk_cache_facts.
Context `{PyRuntime} `{EmbeddingModel}.
Implicit Types (self : cache) (chunk h t : string) (log : list event).

Lemma get_chunk_exact self chunk txt :
  exact_cache self !! _hash chunk = Some txt →
  get_chunk self chunk = (txt, [PrintExactHit (prefix8 (_hash chunk))], self).
Proof. intros Hh. unfold get_chunk. by rewrite Hh. Qed.

Lemma get_chunk_semantic self chunk txt :
  exact_cache self !! _hash chunk = None →
  scan (encode chunk) (sem_threshold self) (sem_cache self) = Some txt →
  get_chunk self chunk = (txt, [Encode chunk; PrintSemanticHit], self).
Proof. intros Hh Hs. unfold get_chunk. by rewrite Hh, Hs. Qed.

Lemma get_chunk_miss self chunk :
  exact_cache self !! _hash chunk = None →
  scan (encode chunk) (sem_threshold self) (sem_cache self) = None →
  get_chunk self chunk =
    (chunk, [Encode chunk; PrintMiss (prefix8 (_hash chunk)); SaveExact; SaveSem],
     register self (_hash chunk) (encode chunk) chunk).
Proof. intros Hh Hs. unfold get_chunk. by rewrite Hh, Hs. Qed.

(** The three ways out of [get_chunk], as a case analysis. *)
Lemma get_chunk_cases self chunk :
  (∃ txt, exact_cache self !! _hash chunk = Some txt ∧
     get_chunk self chunk =
       (txt, [PrintExactHit (prefix8 (_hash chunk))], self)) ∨
  (∃ txt, exact_cache self !! _hash chunk = None ∧
     scan (encode chunk) (sem_threshold self) (sem_cache self) = Some txt ∧
     get_chunk self chunk = (txt, [Encode chunk; PrintSemanticHit], self)) ∨
  (exact_cache self !! _hash chunk = None ∧
     scan (encode chunk) (sem_threshold self) (sem_cache self) = None ∧
     get_chunk self chunk =
       (chunk,
        [Encode chunk; PrintMiss (prefix8 (_hash chunk)); SaveExact; SaveSem],
        register self (_hash chunk) (encode chunk) chunk)).
Proof.
  destruct (exact_cache self !! _hash chunk) as [txt|] eqn:Hh.
  - left. exists txt. split; [done|]. by apply get_chunk_exact.
  - right.
    destruct (scan (encode chunk) (sem_threshold self) (sem_cache self))
      as [txt|] eqn:Hs.
    + left. exists txt. repeat split; try done. by apply get_chunk_semantic.
    + right. repeat split; try done. by apply get_chunk_miss.
Qed.

Lemma register_exact self h emb chunk :
  exact_cache (register self h emb chunk) = <[h := chunk]> (exact_cache self).
Proof. reflexivity. Qed.

(** A lookup never overwrites: an entry of the exact index survives it. *)
Lemma get_chunk_keeps self chunk h t :
  exact_cache self !! h = Some t →
  exact_cache (after (get_chunk self chunk)) !! h = Some t.
Proof.
  intros Hh.
  destruct (get_chunk_cases self chunk)
    as [(txt & _ & ->) | [(txt & _ & _ & ->) | (Hnone & _ & ->)]];
    simpl; try done.
  rewrite lookup_insert_ne; [done|]. intros <-. congruence.
Qed.

Lemma run_ops_keeps (ops : list op) self h t :
  exact_cache self !! h = Some t →
  exact_cache (run_ops ops self) !! h = Some t ∨ ClearCaches ∈ ops.
Proof.
  revert self. induction ops as [|o ops IH]; intros self Hh; [by left|].
  destruct o as [c|].
  - destruct (IH (apply_op self (GetChunk c))) as [Hk|Hc].
    + simpl. by apply get_chunk_keeps.
    + by left.
    + right. by apply list_elem_of_further.
  - right. apply list_elem_of_here.
Qed.

Lemma hit_unchanged self chunk :
  is_hit (log_of (get_chunk self chunk)) = true →
  after (get_chunk self chunk) = self.
Proof.
  destruct (get_chunk_cases self chunk)
    as [(txt & _ & ->) | [(txt & _ & _ & ->) | (_ & _ & ->)]];
    simpl; try done.
Qed.

Lemma lookups_fixed (n : nat) self chunk :
  after (get_chunk self chunk) = self →
  lookups n self chunk =
    (replicate n (text_of (get_chunk self chunk), log_of (get_chunk self chunk)),
     self).
Proof.
  intros Hfix. induction n as [|n IH]; [done|].
  simpl. rewrite Hfix, IH. done.
Qed.

End chunk_cache_facts.

(** C2, as stated, fails: a chunk that is first resolved by semantic
    similarity is resolved by semantic similarity again on the second
    call, which computes a new embedding. Here "xyz" is close to the
    stored "abc" and is looked up twice. *)
Lemma second_lookup_semantic_counterexample :
  let r1 := get_chunk (H := toy_runtime) seen_abc "xyz" in
  let r2 := get_chunk (H := toy_runtime) (after r1) "xyz" in
  text_of r1 = "abc" ∧ text_of r2 = "abc" ∧
  exact_hit (log_of r2) = false ∧
  log_of r2 = [Encode "xyz"; PrintSemanticHit].
Proof. vm_compute. done. Qed.

Section chunk_cache_claims.
Context `{PyRuntime} `{EmbeddingModel}.
Implicit Types (self : cache) (chunk h t : string).

(** C2 (amended): for every chunk and every starting cache, two calls of
    [get_chunk] in a row return the same text; the second call is an
    exact hit, with no embedding computed, exactly when the first call
    was not a semantic hit; after a semantic hit the second call repeats
    the first: same log, embedding computed again. *)
Theorem get_chunk_twice self chunk :
  let r1 := get_chunk self chunk in
  let r2 := get_chunk (after r1) chunk in
  text_of r2 = text_of r1 ∧
  exact_hit (log_of r2) = negb (semantic_hit (log_of r1)) ∧
  embeds (log_of r2) = semantic_hit (log_of r1) ∧
  (if semantic_hit (log_of r1) then log_of r2 = log_of r1
   else log_of r2 = [PrintExactHit (prefix8 (_hash chunk))]).
Proof.
  intros r1 r2. subst r1 r2.
  destruct (get_chunk_cases self chunk)
    as [(txt & Hh & ->) | [(txt & Hh & Hs & ->) | (Hh & Hs & ->)]]; simpl.
  - rewrite (get_chunk_exact _ _ _ Hh). done.
  - rewrite (get_chunk_semantic _ _ _ Hh Hs). done.
  - erewrite get_chunk_exact; [done|].
    rewrite register_exact. apply lookup_insert_eq.
Qed.

(** C9: over every sequence of [get_chunk] and [clear_caches] calls the
    exact index holds at most one entry per hash, and a text stored under
    a hash is still the text under that hash afterwards unless the
    sequence contains a full clear. *)
Theorem exact_cache_entries_immutable (ops : list op) self h t :
  exact_cache self !! h = Some t →
  NoDup (map_to_list (exact_cache (run_ops ops self))).*1 ∧
  (exact_cache (run_ops ops self) !! h = Some t ∨ ClearCaches ∈ ops).
Proof.
  intros Hh. split.
  - apply NoDup_fst_map_to_list.
  - by apply run_ops_keeps.
Qed.

End chunk_cache_claims.

Lemma exact_cache_entries_immutable_witness :
  exact_cache seen_abc !! "sha256:abc" = Some "abc" ∧
  NoDup (map_to_list (exact_cache
    (run_ops (H := toy_runtime) [GetChunk "xyz"; GetChunk "hello"] seen_abc))).*1 ∧
  (exact_cache
     (run_ops (H := toy_runtime) [GetChunk "xyz"; GetChunk "hello"] seen_abc)
     !! "sha256:abc" = Some "abc" ∨
   ClearCaches ∈ [GetChunk "xyz"; GetChunk "hello"]).
Proof.
  split; [by vm_compute|].
  apply (exact_cache_entries_immutable (H := toy_runtime)). by vm_compute.
Defined.

End ContextCacheProofs.

(** ** The response cache *)

Module ResponseCacheProofs.
Import ResponseCache.

Section running_facts.
Context `{PyRuntime} `{TTLPolicy}.

(** A statement is issued by the thread that performs it, and adds one
    entry to the trace. *)
Lemma perform_trace who s t w :
  ∃ now, trace (perform who s t w).2 = trace w ++ [(who, s, now)].
Proof.
  unfold perform. destruct (is_sync s); [by eexists|].
  destruct (fault t); by eexists.
Qed.

(** The outcome and the store do not depend on which thread drives. *)
Lemma perform_who who who' s t w w' :
  wstore w = wstore w' → clock w = clock w' →
  (perform who s t w).1 = (perform who' s t w').1 ∧
  wstore (perform who s t w).2 = wstore (perform who' s t w').2 ∧
  clock (perform who s t w).2 = clock (perform who' s t w').2.
Proof.
  intros Hst Hcl. unfold perform. rewrite Hst, Hcl.
  destruct (is_sync s); [done|]. by destruct (fault t).
Qed.

Lemma run_invariant {A : Type} who (P : tick → Prop)
  (Inv : prog A → world → Prop) :
  P calm →
  (∀ s k t w, P t → Inv (Await s k) w →
     Inv (k (perform who s t w).1) (perform who s t w).2) →
  ∀ p sc w, Forall P sc → Inv p w →
    Inv (finished (outcome_of (run who p sc w))) (world_of (run who p sc w)).
Proof.
  intros Hcalm Hstep p. induction p as [a|e|s k IH]; intros sc w Hsc Hinv.
  - done.
  - done.
  - cbn [run]. apply IH.
    + destruct (is_sync s); [done|]. destruct sc; [done|].
      by eapply Forall_cons_1.
    + apply Hstep; [|done]. destruct sc as [|t sc]; [done|].
      by apply Forall_cons_1 in Hsc as [? _].
Qed.


Lemma run_bind {A B : Type} who (p : prog A) (f : A → prog B) sc w :
  run who (bind p f) sc w =
    match run who p sc w with
    | (Returned a, sc', w') => run who (f a) sc' w'
    | (Raised e, sc', w') => (Raised e, sc', w')
    end.
Proof.
  revert sc w. induction p as [a|e|s k IH]; intros sc w; cbn [bind run].
  - done.
  - done.
  - apply IH.
Qed.

End running_facts.

(** A coroutine followed through named suspension points. *)
Section machine.
Context `{PyRuntime} `{TTLPolicy}.
Context {A Ph : Type}.
Variable at_ : Ph → prog A.
Variable next : Ph → exn + resp → Ph.
Variable waits : Ph → option stmt.
Variable stopped : outcome A → Ph.
Hypothesis at_awaited : ∀ ph, awaited (at_ ph) = waits ph.
Hypothesis at_exact : ∀ ph r, feed (at_ ph) r = at_ (next ph r).
Hypothesis at_stopped : ∀ ph, waits ph = None → ∃ o, ph = stopped o ∧ at_ ph = finished o.

Lemma finished_inj (o o' : outcome A) : finished o = finished o' → o = o'.
Proof. destruct o, o'; simpl; congruence. Qed.

Lemma awaited_finished (o : outcome A) : awaited (finished o) = None.
Proof. by destruct o. Qed.

(** An invariant of the named points that every statement preserves holds
    at the end of a run. *)
Lemma machine_run who (P : tick → Prop) (J : Ph → world → Prop) :
  P calm →
  (∀ ph s t w, P t → waits ph = Some s → J ph w →
     J (next ph (perform who s t w).1) (perform who s t w).2) →
  ∀ ph sc w, Forall P sc → J ph w →
    J (stopped (outcome_of (run who (at_ ph) sc w)))
      (world_of (run who (at_ ph) sc w)).
Proof.
  intros Hcalm Hstep ph sc w Hsc HJ.
  pose (Inv := λ (p : prog A) (w : world), ∃ ph, p = at_ ph ∧ J ph w).
  assert (Inv (finished (outcome_of (run who (at_ ph) sc w)))
              (world_of (run who (at_ ph) sc w))) as (ph' & Heq & HJ').
  { apply (run_invariant who P Inv); [done| |done|by exists ph].
    intros s k t w0 Ht (ph0 & Heq & HJ0).
    exists (next ph0 (perform who s t w0).1). split.
    - rewrite <-at_exact, <-Heq. done.
    - apply Hstep; [done| |done]. by rewrite <-at_awaited, <-Heq. }
  destruct (at_stopped ph') as (o & -> & Ho).
  { by rewrite <-at_awaited, <-Heq, awaited_finished. }
  rewrite Ho in Heq. apply finished_inj in Heq. by rewrite Heq.
Qed.

End machine.

Section phases_exact.
Context `{PyRuntime} `{TTLPolicy}.

Lemma get_at_awaited q ph :
  awaited (get_at q ph) = get_waits (query_hash_of q) ph.
Proof. destruct ph as [| | | | | | | |[]]; reflexivity. Qed.

Lemma get_at_exact q ph r : feed (get_at q ph) r = get_at q (get_next ph r).
Proof.
  destruct ph as [| | | | | | |e0|[]]; destruct r as [e1|[|[]|[]]];
    try reflexivity; cbn; unfold except_Exception, handled;
    try (destruct (is_Exception e1); reflexivity);
    try (destruct (is_Exception e0); reflexivity).
Qed.

Lemma get_at_stopped q ph :
  get_waits (query_hash_of q) ph = None →
  ∃ o, ph = GDone o ∧ get_at q ph = finished o.
Proof. destruct ph; try done. intros _. by eexists. Qed.

Lemma put_at_awaited q data ph :
  awaited (put_at q data ph) = put_waits (query_hash_of q) q data ph.
Proof. destruct ph as [| | | | | |[]]; reflexivity. Qed.

Lemma put_at_exact q data ph r :
  feed (put_at q data ph) r = put_at q data (put_next ph r).
Proof.
  destruct ph as [| | | | |e0|[]]; destruct r as [e1|[|[]|[]]];
    try reflexivity; cbn; unfold except_Exception, handled;
    try (destruct (is_Exception e1); reflexivity);
    try (destruct (is_Exception e0); reflexivity).
Qed.

Lemma put_at_stopped q data ph :
  put_waits (query_hash_of q) q data ph = None →
  ∃ o, ph = PDone o ∧ put_at q data ph = finished o.
Proof. destruct ph; try done. intros _. by eexists. Qed.

End phases_exact.

(** Case analysis on what one statement does. *)
Ltac perform_cases t w :=
  unfold perform; cbn [is_sync];
  try (destruct (fault t) as [?e|] eqn:?Hfault); cbn;
  repeat first
    [ progress case_bool_decide
    | match goal with
      | |- context [match pool (wstore w) with _ => _ end] =>
          destruct (pool (wstore w)) eqn:?Hpool; cbn
      end ].

Section absorbed.
Context `{PyRuntime} `{TTLPolicy}.

Lemma benign_fault t e : benign t → fault t = Some e → is_Exception e = true.
Proof. unfold benign. intros Hb Hf. by rewrite Hf in Hb. Qed.

Lemma handled_benign {A : Type} (d : A) e :
  is_Exception e = true → handled d e = Returned d.
Proof. unfold handled. by intros ->. Qed.

Lemma get_quiet_step who h ph s t w :
  benign t → get_waits h ph = Some s → get_quiet ph →
  get_quiet (get_next ph (perform who s t w).1).
Proof.
  intros Ht Hw HJ.
  destruct ph; simpl in Hw; simplify_eq; perform_cases t w;
    try match goal with
        | Hf : fault t = Some _ |- _ => apply (benign_fault _ _ Ht) in Hf
        end;
    rewrite ?handled_benign by done; try done.
  by destruct (select_live _ _ _).
Qed.

Lemma put_quiet_step who h q data ph s t w :
  benign t → put_waits h q data ph = Some s → put_quiet ph →
  put_quiet (put_next ph (perform who s t w).1).
Proof.
  intros Ht Hw HJ.
  destruct ph; simpl in Hw; simplify_eq; perform_cases t w;
    try match goal with
        | Hf : fault t = Some _ |- _ => apply (benign_fault _ _ Ht) in Hf
        end;
    rewrite ?handled_benign by done; done.
Qed.

Lemma get_never_raises who q sc w :
  Forall benign sc →
  ∃ r, outcome_of (run who (get_cached_response q) sc w) = Returned r.
Proof.
  intros Hsc.
  pose proof (machine_run (get_at q) get_next (get_waits (query_hash_of q))
    GDone (get_at_awaited q) (get_at_exact q) (get_at_stopped q)
    who benign (λ ph _, get_quiet ph)) as Hrun.
  specialize (Hrun I (λ ph s t w0, get_quiet_step who _ ph s t w0)
    GCheck sc w Hsc I).
  cbn [get_at] in Hrun.
  destruct (outcome_of _) as [r|e]; [by exists r|done].
Qed.

Lemma put_never_raises who q data sc w :
  Forall benign sc →
  ∃ b, outcome_of (run who (cache_response q data) sc w) = Returned b.
Proof.
  intros Hsc.
  pose proof (machine_run (put_at q data) put_next
    (put_waits (query_hash_of q) q data)
    PDone (put_at_awaited q data) (put_at_exact q data) (put_at_stopped q data)
    who benign (λ ph _, put_quiet ph)) as Hrun.
  specialize (Hrun I (λ ph s t w0, put_quiet_step who _ _ _ ph s t w0)
    PCheck sc w Hsc I).
  cbn [put_at] in Hrun.
  destruct (outcome_of _) as [r|e]; [by exists r|done].
Qed.



End absorbed.

Section reads_and_writes.
Context `{PyRuntime} `{TTLPolicy}.

Lemma get_expired_step who h r c0 tbl0 ph s t w :
  tbl0 !! h = Some r → expires_at r ≤ c0 →
  get_waits h ph = Some s →
  table (wstore w) = tbl0 ∧ c0 ≤ clock w ∧ get_unserved ph →
  table (wstore (perform who s t w).2) = tbl0 ∧
  c0 ≤ clock (perform who s t w).2 ∧
  get_unserved (get_next ph (perform who s t w).1).
Proof.
  intros Hr Hexp Hw (Htbl & Hclock & HJ).
  destruct ph; simpl in Hw, HJ; simplify_eq; perform_cases t w;
    repeat split; try done; try lia;
    try (by unfold handled; destruct (is_Exception _)).
  unfold select_live. rewrite Hr.
  rewrite bool_decide_eq_false_2 by lia. done.
Qed.

(** C5: a read of a query whose row has [expires_at] at or before the
    current time returns no payload, whatever else happens during the
    call; the table, and with it the row and its [hit_count], is left as
    it was; and unless something other than an [Exception] is raised the
    call returns [None]. *)
Theorem expired_entry_reads_absent who query sc w r :
  table (wstore w) !! query_hash_of query = Some r →
  expires_at r ≤ clock w →
  let res := run who (get_cached_response query) sc w in
  table (wstore (world_of res)) = table (wstore w) ∧
  table (wstore (world_of res)) !! query_hash_of query = Some r ∧
  (∀ data, outcome_of res ≠ Returned (Some data)) ∧
  (Forall benign sc → outcome_of res = Returned None).
Proof.
  intros Hr Hexp res.
  pose proof (machine_run (get_at query) get_next
    (get_waits (query_hash_of query))
    GDone (get_at_awaited query) (get_at_exact query) (get_at_stopped query)
    who (λ _, True)
    (λ ph w0, table (wstore w0) = table (wstore w) ∧ clock w ≤ clock w0 ∧
              get_unserved ph)) as Hrun.
  specialize (Hrun I
    (λ ph s t w0 _ Hw HJ,
       get_expired_step who _ r (clock w) _ ph s t w0 Hr Hexp Hw HJ)
    GCheck sc w).
  destruct Hrun as (Htbl & _ & Hun).
  { by apply Forall_true. }
  { split; [done|]. split; [lia|done]. }
  cbn [get_at] in Htbl, Hun. fold res in Htbl, Hun.
  assert (∀ data, outcome_of res ≠ Returned (Some data)) as Hno.
  { intros data Hd. by rewrite Hd in Hun. }
  repeat split; [done|by rewrite Htbl|done|].
  intros Hsc. destruct (get_never_raises who query sc w Hsc) as [[data|] Hres].
  - by destruct (Hno data).
  - done.
Qed.

Lemma put_progress_step who h q data before c0 ph s t w :
  put_waits h q data ph = Some s →
  put_progress h q data before c0 ph w →
  put_progress h q data before c0
    (put_next ph (perform who s t w).1) (perform who s t w).2.
Proof.
  intros Hw (Hclock & HJ). unfold put_progress.
  destruct ph; simpl in Hw, HJ; simplify_eq; perform_cases t w;
    (split; [lia|]); try done;
    try (by unfold handled; destruct (is_Exception _)).
  - exists (clock w + Z.of_nat (elapse t)). split; [lia|].
    unfold upsert, written_row.
    destruct (table (wstore w) !! h); by rewrite lookup_insert_eq.
  - destruct HJ as (t0 & Ht0 & Hrow). exists t0. split; [lia|done].
Qed.

(** A write that reports success has executed its statement once, at
    some time [t] during the call, on the row it found. *)
Lemma put_writes_once who query data sc w :
  let res := run who (cache_response query data) sc w in
  let h := query_hash_of query in
  outcome_of res = Returned true →
  ∃ t, clock w ≤ t ≤ clock (world_of res) ∧
       table (wstore (world_of res)) !! h =
         Some (written_row (table (wstore w) !! h) t query data).
Proof.
  intros res h Hres.
  pose proof (machine_run (put_at query data) put_next
    (put_waits h query data)
    PDone (put_at_awaited query data) (put_at_exact query data)
    (put_at_stopped query data)
    who (λ _, True)
    (put_progress h query data (table (wstore w) !! h) (clock w))) as Hrun.
  specialize (Hrun I
    (λ ph s t w0 _ Hw HJ,
       put_progress_step who h query data _ _ ph s t w0 Hw HJ)
    PCheck sc w).
  destruct Hrun as (_ & Hrow).
  { by apply Forall_true. }
  { split; [lia|done]. }
  cbn [put_at] in Hrow. fold res in Hrow. by rewrite Hres in Hrow.
Qed.

(** The insert half of C6: for every query with no row, a
    [cache_response] that reports success has inserted a row that holds
    the payload, has [hit_count = 1], and expires one TTL after the time
    [t] at which the statement ran, [t] lying within the call. *)
Theorem insert_counts_one_and_expires_after_ttl who query data sc w :
  let res := run who (cache_response query data) sc w in
  let h := query_hash_of query in
  table (wstore w) !! h = None →
  outcome_of res = Returned true →
  ∃ t r, clock w ≤ t ≤ clock (world_of res) ∧
         table (wstore (world_of res)) !! h = Some r ∧
         response_data r = data ∧ hit_count r = 1 ∧
         created_at r = t ∧ expires_at r = t + ttl.
Proof.
  intros res h Hnone Hres.
  destruct (put_writes_once who query data sc w Hres) as (t & Ht & Hrow).
  fold h in Hrow. rewrite Hnone in Hrow.
  exists t, (new_row t query data). destruct Ht. by repeat split.
Qed.

(** X18: The overwrite half: on a query that has a row a successful write
    replaces the payload and adds one to [hit_count]; [expires_at] and
    [created_at] stay what they were. *)
Lemma overwrite_keeps_expiry who query data sc w r :
  let res := run who (cache_response query data) sc w in
  let h := query_hash_of query in
  table (wstore w) !! h = Some r →
  outcome_of res = Returned true →
  ∃ r', table (wstore (world_of res)) !! h = Some r' ∧
        response_data r' = data ∧ hit_count r' = hit_count r + 1 ∧
        created_at r' = created_at r ∧ expires_at r' = expires_at r.
Proof.
  intros res h Hsome Hres.
  destruct (put_writes_once who query data sc w Hres) as (t & Ht & Hrow).
  fold h in Hrow. rewrite Hsome in Hrow.
  exists (overwrite t data r). by repeat split.
Qed.

(** What is left of the script after a run is a suffix of it. *)
Lemma run_script_rest {A : Type} who (p : prog A) sc w :
  ∃ k, (run who p sc w).1.2 = drop k sc.
Proof.
  revert sc w. induction p as [a|e|s k IH]; intros sc w.
  - by exists 0%nat.
  - by exists 0%nat.
  - cbn [run].
    destruct (IH (perform who s (hd calm sc) w).1
                 (if is_sync s then sc else tail sc)
                 (perform who s (hd calm sc) w).2) as (n & Hn).
    rewrite Hn. destruct (is_sync s); [by exists n|].
    exists (S n). destruct sc as [|t sc]; [|done].
    simpl. by rewrite drop_nil.
Qed.

Lemma put_smooth_step who h q data ph s t w :
  smooth t → put_waits h q data ph = Some s → put_smooth ph w →
  put_smooth (put_next ph (perform who s t w).1) (perform who s t w).2.
Proof.
  unfold smooth. intros Ht Hw HJ.
  destruct ph; simpl in Hw, HJ; simplify_eq; unfold perform; cbn [is_sync];
    rewrite ?Ht; cbn; try done.
  - case_bool_decide; simpl; done.
  - destruct HJ as [n Hn]. rewrite Hn. simpl. by eexists.
  - destruct HJ as [n Hn]. rewrite Hn. done.
Qed.

(** With nothing failing, a write reports success. *)
Lemma put_succeeds who query data sc w :
  Forall smooth sc →
  outcome_of (run who (cache_response query data) sc w) = Returned true.
Proof.
  intros Hsc.
  pose proof (machine_run (put_at query data) put_next
    (put_waits (query_hash_of query) query data)
    PDone (put_at_awaited query data) (put_at_exact query data)
    (put_at_stopped query data) who smooth put_smooth) as Hrun.
  exact (Hrun eq_refl
    (λ ph s t w0, put_smooth_step who _ _ _ ph s t w0) PCheck sc w Hsc I).
Qed.

Lemma get_smooth_step who h r0 ph s t w :
  smooth t → get_waits h ph = Some s → get_smooth h r0 ph w →
  get_smooth h r0 (get_next ph (perform who s t w).1) (perform who s t w).2.
Proof.
  unfold smooth. intros Ht Hw HJ.
  destruct ph; simpl in Hw, HJ; simplify_eq; unfold perform; cbn [is_sync];
    rewrite ?Ht; cbn.
  - case_bool_decide; simpl; by repeat split.
  - by repeat split.
  - destruct HJ as ([n Hn] & Hrow). rewrite Hn. simpl. by repeat split.
  - destruct HJ as (Hpool & Hrow). unfold select_live. rewrite Hrow.
    case_bool_decide; simpl; repeat split; (done || lia).
  - destruct HJ as (Hpool & Hrow & ->). repeat split; [done..|].
    eexists. by rewrite lookup_alter_eq, Hrow.
  - destruct HJ as ([n Hn] & -> & Hrow). rewrite Hn. simpl. by repeat split.
  - destruct HJ as ([n Hn] & Hrow & Hexp). rewrite Hn. simpl.
    split; [done|lia].
  - done.
Qed.

(** With nothing failing, a read of a query that has row [r0] either
    returns its payload and leaves the row touched, or finds it expired. *)
Lemma get_serves_or_expired who query sc w r0 :
  Forall smooth sc →
  table (wstore w) !! query_hash_of query = Some r0 →
  get_smooth (query_hash_of query) r0
    (GDone (outcome_of (run who (get_cached_response query) sc w)))
    (world_of (run who (get_cached_response query) sc w)).
Proof.
  intros Hsc Hrow.
  pose proof (machine_run (get_at query) get_next
    (get_waits (query_hash_of query))
    GDone (get_at_awaited query) (get_at_exact query) (get_at_stopped query)
    who smooth (get_smooth (query_hash_of query) r0)) as Hrun.
  exact (Hrun eq_refl
    (λ ph s t w0, get_smooth_step who _ r0 ph s t w0) GCheck sc w Hsc Hrow).
Qed.

(** The round trip of C1 where it holds: with nothing failing, a write
    followed by a read of the same query returns the payload written and
    has added two to [hit_count], provided the row the write left has not
    expired when the read is over. For a query that had no row this is
    any read that ends less than one TTL after the call began. *)
Lemma round_trip_of_live_row who query data sc w :
  let h := query_hash_of query in
  let res := run who (put_then_get query data) sc w in
  Forall smooth sc →
  (∀ r, table (wstore (world_of res)) !! h = Some r →
        clock (world_of res) < expires_at r) →
  outcome_of res = Returned (true, Some data) ∧
  hits h (world_of res) = hits h w + 2.
Proof.
  intros h res Hsc Hlive. subst res. unfold put_then_get in *.
  rewrite run_bind in *.
  pose proof (put_succeeds who query data sc w Hsc) as Hput.
  pose proof (put_writes_once who query data sc w Hput) as (t & Ht & Hrow).
  destruct (run_script_rest who (cache_response query data) sc w) as (k & Hk).
  destruct (run who (cache_response query data) sc w) as [[o1 sc1] w1].
  unfold outcome_of, world_of in Hput, Hrow, Ht. simpl in Hput, Hrow, Ht, Hk.
  subst o1 sc1. rewrite run_bind in *.
  pose proof (get_serves_or_expired who query (drop k sc) w1 _
    (Forall_drop _ _ _ Hsc) Hrow) as Hget.
  destruct (run who (get_cached_response query) (drop k sc) w1)
    as [[o2 sc2] w2].
  unfold outcome_of, world_of in Hget, Hlive |- *. simpl in Hget, Hlive |- *.
  destruct o2 as [[d|]|e]; simpl in Hget, Hlive |- *.
  - destruct Hget as (-> & t' & Hrow2). split.
    + by destruct (table (wstore w) !! query_hash_of query).
    + unfold hits. fold h in Hrow2 |- *. rewrite Hrow2.
      unfold written_row.
      destruct (table (wstore w) !! h); simpl; unfold default_hit_count; lia.
  - destruct Hget as (Hrow2 & Hexp). specialize (Hlive _ Hrow2). lia.
  - done.
Qed.

End reads_and_writes.

Lemma sum_list_insert (ns : list nat) (i n n' : nat) :
  ns !! i = Some n →
  (sum_list (<[i := n']> ns) + n = sum_list ns + n')%nat.
Proof.
  revert i. induction ns as [|m ns IH]; intros [|i] Hi; simplify_eq/=.
  - lia.
  - specialize (IH i Hi). lia.
Qed.

(** Several coroutines of one kind in flight: what each has added to the
    [hit_count] of key [h] adds up to what the row shows. *)
Section concurrent.
Context `{PyRuntime} `{TTLPolicy}.
Context {A Ph : Type}.
Variable at_ : Ph → prog A.
Variable next : Ph → exn + resp → Ph.
Variable waits : Ph → option stmt.
Hypothesis at_awaited : ∀ ph, awaited (at_ ph) = waits ph.
Hypothesis at_exact : ∀ ph r, feed (at_ ph) r = at_ (next ph r).
Variable h : string.
Variable ok : gmap string row → Ph → nat → Prop.
Variable rely : gmap string row → gmap string row → Prop.
Hypothesis ok_frame : ∀ tbl tbl' ph n, rely tbl tbl' → ok tbl ph n → ok tbl' ph n.
Hypothesis ok_step : ∀ who ph n s t w,
  waits ph = Some s → ok (table (wstore w)) ph n →
  ∃ n', ok (table (wstore (perform who s t w).2))
           (next ph (perform who s t w).1) n' ∧
        hits h (perform who s t w).2 + Z.of_nat n = hits h w + Z.of_nat n' ∧
        rely (table (wstore w)) (table (wstore (perform who s t w).2)).

Lemma sched_step_counted (c : config A) it phs ns :
  threads c = at_ <$> phs →
  Forall2 (ok (table (wstore (cworld c)))) phs ns →
  ∃ phs' ns',
    threads (sched_step c it) = at_ <$> phs' ∧
    Forall2 (ok (table (wstore (cworld (sched_step c it))))) phs' ns' ∧
    hits h (cworld (sched_step c it)) + Z.of_nat (sum_list ns) =
      hits h (cworld c) + Z.of_nat (sum_list ns').
Proof.
  intros Hthr Hok. unfold sched_step.
  destruct (threads c !! it.1) as [[a|e|s k]|] eqn:Hi;
    try (exists phs, ns; by repeat split).
  rewrite Hthr, list_lookup_fmap in Hi.
  destruct (phs !! it.1) as [ph|] eqn:Hph; simplify_eq/=.
  destruct (Forall2_lookup_l _ _ _ _ _ Hok Hph) as (n & Hn & Hokn).
  assert (waits ph = Some s) as Hw by (by rewrite <-at_awaited, Hi).
  destruct (ok_step it.1 ph n s it.2 (cworld c) Hw Hokn) as (n' & Hok' & Hh & HR).
  exists (<[it.1 := next ph (perform it.1 s it.2 (cworld c)).1]> phs),
         (<[it.1 := n']> ns).
  repeat split.
  - rewrite Hthr, list_fmap_insert, <-at_exact, Hi. done.
  - apply Forall2_insert; [|done].
    eapply Forall2_impl; [exact Hok|]. intros ph0 n0. by apply ok_frame.
  - pose proof (sum_list_insert ns it.1 n n' Hn). lia.
Qed.

Lemma run_sched_counted sched (c : config A) phs ns :
  threads c = at_ <$> phs →
  Forall2 (ok (table (wstore (cworld c)))) phs ns →
  ∃ phs' ns',
    threads (run_sched sched c) = at_ <$> phs' ∧
    Forall2 (ok (table (wstore (cworld (run_sched sched c))))) phs' ns' ∧
    hits h (cworld (run_sched sched c)) + Z.of_nat (sum_list ns) =
      hits h (cworld c) + Z.of_nat (sum_list ns').
Proof.
  revert c phs ns. induction sched as [|it sched IH]; intros c phs ns Hthr Hok.
  - exists phs, ns. by repeat split.
  - destruct (sched_step_counted c it phs ns Hthr Hok)
      as (phs1 & ns1 & Hthr1 & Hok1 & Hh1).
    destruct (IH _ phs1 ns1 Hthr1 Hok1) as (phs2 & ns2 & Hthr2 & Hok2 & Hh2).
    exists phs2, ns2. repeat split; [done..|].
    unfold run_sched in *. simpl. lia.
Qed.

End concurrent.

Section concurrent_calls.
Context `{PyRuntime} `{TTLPolicy}.

Lemma hits_upsert now h q data w :
  hits h {| wstore := {| table := upsert now h q data (table (wstore w));
                         pool := pool (wstore w) |};
            clock := now; trace := trace w |} = hits h w + 1.
Proof.
  unfold hits, upsert. simpl.
  destruct (table (wstore w) !! h) as [r|]; by rewrite lookup_insert_eq.
Qed.

Lemma put_counted_step who h q D ph n s t w :
  writer_waits h q ph = Some s →
  put_counted h D (table (wstore w)) ph n →
  ∃ n', put_counted h D (table (wstore (perform who s t w).2))
          (writer_next ph (perform who s t w).1) n' ∧
        hits h (perform who s t w).2 + Z.of_nat n = hits h w + Z.of_nat n' ∧
        keeps_written h D (table (wstore w))
          (table (wstore (perform who s t w).2)).
Proof.
  destruct ph as [data ph]. unfold writer_waits, writer_next, put_counted.
  intros Hw (HD & Hn).
  assert (∀ tbl, keeps_written h D tbl tbl) as Hrefl by (by intros tbl ?).
  destruct ph; simpl in Hw, Hn |- *; simplify_eq; perform_cases t w;
    unfold hits; simpl;
    try (exists 0%nat; repeat split;
         by (done || lia || (unfold handled; destruct (is_Exception _); simpl; lia))).
  - exists 1%nat. unfold keeps_written, upsert.
    destruct (table (wstore w) !! h) as [r|]; rewrite lookup_insert_eq;
      repeat split; try done; simpl; try lia; try (by eexists);
      intros; by eexists.
  - destruct Hn as (-> & Hrow). exists 1%nat. repeat split; try done.
    unfold handled. destruct (is_Exception e); simpl; lia.
  - destruct Hn as (-> & Hrow). exists 1%nat. by repeat split.
  - destruct Hn as (-> & Hrow). exists 1%nat. repeat split; (done || lia).
Qed.

Lemma writer_at_awaited q x :
  awaited (writer_at q x) = writer_waits (query_hash_of q) q x.
Proof. apply put_at_awaited. Qed.

Lemma writer_at_exact q x r :
  feed (writer_at q x) r = writer_at q (writer_next x r).
Proof. apply put_at_exact. Qed.

Lemma put_at_returned q data ph b :
  put_at q data ph = Return b → ph = PDone (Returned b).
Proof.
  intros Heq. pose proof (put_at_awaited q data ph) as Hw.
  rewrite Heq in Hw. simpl in Hw.
  destruct ph as [| | | | | |[b'|e]]; simplify_eq/=. done.
Qed.

Lemma get_at_returned q ph o :
  get_at q ph = Return o → ph = GDone (Returned o).
Proof.
  intros Heq. pose proof (get_at_awaited q ph) as Hw.
  rewrite Heq in Hw. simpl in Hw.
  destruct ph as [| | | | | | | |[o'|e]]; simplify_eq/=. done.
Qed.

Lemma table_stmts_snoc tr who s now :
  table_stmts (tr ++ [(who, s, now)]) =
    table_stmts tr ++ (if on_table s then [s] else []).
Proof.
  unfold table_stmts. rewrite !fmap_app, filter_app. f_equal.
  simpl. destruct s; reflexivity.
Qed.

(** All a call of [cache_response] does to the table is one statement,
    the upsert. *)
Lemma put_issues_one_statement who query data sc w :
  let res := run who (cache_response query data) sc w in
  ∃ new, trace (world_of res) = trace w ++ new ∧
         put_issued (query_hash_of query) query data
           (PDone (outcome_of res)) (table_stmts new).
Proof.
  intros res. set (h := query_hash_of query).
  pose proof (machine_run (put_at query data) put_next
    (put_waits h query data)
    PDone (put_at_awaited query data) (put_at_exact query data)
    (put_at_stopped query data)
    who (λ _, True)
    (λ ph w0, ∃ new, trace w0 = trace w ++ new ∧
                     put_issued h query data ph (table_stmts new))) as Hrun.
  refine (Hrun I _ PCheck sc w _ _); [|by apply Forall_true|].
  - intros ph s t w0 _ Hw (new & Htr & Hiss).
    destruct (perform_trace who s t w0) as (now & Hnow).
    exists (new ++ [(who, s, now)]). split.
    { by rewrite Hnow, Htr, <-app_assoc. }
    rewrite table_stmts_snoc.
    destruct (perform who s t w0).1 as [e|[|[]|]];
      destruct ph; simpl in Hw, Hiss |- *; simplify_eq;
      rewrite ?Hiss; simpl; try done;
      unfold handled; try destruct (is_Exception _); simpl; auto.
  - exists []. by rewrite app_nil_r.
Qed.

(** A call of [get_cached_response] that returns a payload has issued two
    statements: the SELECT, and after it the UPDATE. *)
Lemma get_issues_two_statements who query sc w :
  let res := run who (get_cached_response query) sc w in
  ∃ new, trace (world_of res) = trace w ++ new ∧
         get_issued (query_hash_of query) (GDone (outcome_of res))
           (table_stmts new).
Proof.
  intros res. set (h := query_hash_of query).
  pose proof (machine_run (get_at query) get_next (get_waits h)
    GDone (get_at_awaited query) (get_at_exact query) (get_at_stopped query)
    who (λ _, True)
    (λ ph w0, ∃ new, trace w0 = trace w ++ new ∧
                     get_issued h ph (table_stmts new))) as Hrun.
  refine (Hrun I _ GCheck sc w _ _); [|by apply Forall_true|].
  - intros ph s t w0 _ Hw (new & Htr & Hiss).
    destruct (perform_trace who s t w0) as (now & Hnow).
    exists (new ++ [(who, s, now)]). split.
    { by rewrite Hnow, Htr, <-app_assoc. }
    rewrite table_stmts_snoc.
    destruct (perform who s t w0).1 as [e|[|[]|[]]];
      destruct ph; simpl in Hw, Hiss |- *; simplify_eq;
      rewrite ?Hiss; simpl; try done;
      unfold handled; try destruct (is_Exception _); simpl; auto;
      destruct Hiss as [->|[->| ->]]; simpl; auto.
  - exists []. by rewrite app_nil_r.
Qed.

Lemma get_counted_step who h ph n s t w :
  get_waits h ph = Some s →
  get_counted h (table (wstore w)) ph n →
  ∃ n', get_counted h (table (wstore (perform who s t w).2))
          (get_next ph (perform who s t w).1) n' ∧
        hits h (perform who s t w).2 + Z.of_nat n = hits h w + Z.of_nat n' ∧
        keeps_row h (table (wstore w)) (table (wstore (perform who s t w).2)).
Proof.
  intros Hw Hn. unfold keeps_row.
  destruct ph; simpl in Hw, Hn |- *; simplify_eq; perform_cases t w;
    unfold hits; simpl;
    try (exists 0%nat; repeat split;
         by (done || lia || (unfold handled; destruct (is_Exception _); simpl; lia))).
  - exists 0%nat. unfold select_live.
    destruct (table (wstore w) !! h) as [r|] eqn:Hr; [|by repeat split].
    case_bool_decide; by repeat split.
  - destruct Hn as (-> & [r Hr]). exists 1%nat.
    rewrite lookup_alter_eq, Hr. simpl. repeat split; (done || lia).
  - exists 1%nat. repeat split; try done.
    unfold handled. destruct (is_Exception e); simpl; lia.
  - exists 1%nat. by repeat split.
  - exists 1%nat. repeat split; (done || lia).
Qed.

Lemma get_counted_frame h tbl tbl' ph n :
  keeps_row h tbl tbl' → get_counted h tbl ph n → get_counted h tbl' ph n.
Proof. unfold keeps_row. destruct ph; simpl; try done. intros ? []; auto. Qed.

Lemma put_counted_frame h D tbl tbl' ph n :
  keeps_written h D tbl tbl' →
  put_counted h D tbl ph n → put_counted h D tbl' ph n.
Proof.
  unfold keeps_written, put_counted. destruct ph as [data []]; simpl; try done.
  - intros Hk (? & ? & ?). auto.
  - destruct o as [[]|]; try done. intros Hk (? & ? & ?). auto.
Qed.

Lemma served_counted h q tbl phs ns :
  Forall2 (get_counted h tbl) phs ns →
  (served_count (get_at q <$> phs) ≤ sum_list ns)%nat.
Proof.
  unfold served_count. induction 1 as [|ph n phs ns Hok _ IH]; [done|].
  rewrite fmap_cons, filter_cons. simpl.
  destruct (decide (served (get_at q ph) = true)) as [Hs|Hs]; simpl; [|lia].
  enough (n = 1%nat) by lia.
  unfold served in Hs.
  destruct (get_at q ph) as [[d|]| |] eqn:Hat; try done.
  apply get_at_returned in Hat. by subst ph.
Qed.

(** C3: all [cache_response] does to the table is its one upsert
    statement (it issues no other statement on the table, before or
    after); and when two calls for the same query run at the same time,
    interleaved in any way, and both report success, the table, keyed by
    [query_hash], has one row for the query, its [hit_count] is two more
    than before (counting from 0 when there was no row), and its payload
    is that of one of the two calls. *)
Theorem concurrent_writes_counted who query p1 p2 sc sched w :
  let h := query_hash_of query in
  let alone := run who (cache_response query p1) sc w in
  let c := run_sched sched
    {| cworld := w;
       threads := [cache_response query p1; cache_response query p2] |} in
  (∃ new, trace (world_of alone) = trace w ++ new ∧
          match outcome_of alone with
          | Returned true => table_stmts new = [Upsert h query p1]
          | _ => table_stmts new = [] ∨ table_stmts new = [Upsert h query p1]
          end) ∧
  (threads c = [Return true; Return true] →
   ∃ r, table (wstore (cworld c)) !! h = Some r ∧
        hit_count r = hits h w + 2 ∧
        (response_data r = p1 ∨ response_data r = p2)).
Proof.
  intros h alone c. split.
  { destruct (put_issues_one_statement who query p1 sc w) as (new & Htr & Hiss).
    fold alone h in Htr, Hiss. exists new. split; [done|].
    by destruct (outcome_of alone) as [[]|]. }
  intros Hdone.
  destruct (run_sched_counted (writer_at query) writer_next
    (writer_waits h query) (writer_at_awaited query) (writer_at_exact query)
    h (put_counted h [p1; p2]) (keeps_written h [p1; p2])
    (put_counted_frame h [p1; p2])
    (λ who ph n s t w0, put_counted_step who h query [p1; p2] ph n s t w0)
    sched {| cworld := w;
             threads := [cache_response query p1; cache_response query p2] |}
    [(p1, PCheck); (p2, PCheck)] [0%nat; 0%nat])
    as (phs & ns & Hthr & Hok & Hhits).
  { done. }
  { repeat constructor; simpl; rewrite !elem_of_cons; auto. }
  fold c in Hthr, Hok, Hhits. rewrite Hdone in Hthr.
  destruct phs as [|[d1 ph1] [|[d2 ph2] [|]]]; simplify_eq/=.
  match goal with
  | Ha : Return true = writer_at _ _, Hb : Return true = writer_at _ _ |- _ =>
      symmetry in Ha, Hb; apply put_at_returned in Ha, Hb
  end.
  simpl in *. subst ph1 ph2.
  apply Forall2_cons_inv_l in Hok as (n1 & ns1 & (_ & -> & r & Hr & Hd) & Hok & ->).
  apply Forall2_cons_inv_l in Hok as (n2 & ns2 & (_ & -> & _) & Hok & ->).
  apply Forall2_nil_inv_l in Hok as ->.
  exists r. split; [done|]. split.
  - unfold hits in Hhits at 1. rewrite Hr in Hhits. simpl in Hhits. lia.
  - rewrite !elem_of_cons in Hd. destruct Hd as [?|[?|Hd]]; auto.
    by apply not_elem_of_nil in Hd.
Qed.

(** What one statement of a reader does to the row it reads. *)
Lemma get_stamped_step who h tbl0 c0 ph new s t w :
  get_waits h ph = Some s →
  get_stamped who h tbl0 c0 ph w new →
  ∃ now, trace (perform who s t w).2 = trace w ++ [(who, s, now)] ∧
         get_stamped who h tbl0 c0 (get_next ph (perform who s t w).1)
           (perform who s t w).2 (new ++ [(who, s, now)]).
Proof.
  intros Hw (Hclock & HJ). unfold get_stamped.
  destruct ph; simpl in Hw, HJ; simplify_eq; perform_cases t w;
    (eexists; split; [reflexivity|]); (split; [lia|]); try done;
    try (by unfold handled; destruct (is_Exception _)).
  - unfold select_live.
    destruct (table (wstore w) !! h) as [r|] eqn:Hr; [|done].
    case_bool_decide as Hlive; [|done]. split; [done|].
    exists r, (clock w + Z.of_nat (elapse t)). repeat split; try done; try lia.
    apply elem_of_app. right. apply list_elem_of_here.
  - destruct HJ as (Htbl & r0 & t_s & Hr0 & Hd & Hin & Hts & Hlive).
    exists r0, (touch (clock w + Z.of_nat (elapse t)) r0), t_s,
      (clock w + Z.of_nat (elapse t)).
    rewrite lookup_alter_eq, Htbl, Hr0. simpl.
    repeat split; try done; try lia.
    + apply elem_of_app. by left.
    + apply elem_of_app. right. apply list_elem_of_here.
  - destruct HJ as (r0 & r1 & t_s & t_u & ? & ? & ? & ? & ? & ? & ? & ? & Hrow).
    exists r0, r1, t_s, t_u.
    split; [done|]. split; [done|].
    split; [apply elem_of_app; by left|].
    split; [apply elem_of_app; by left|].
    split; [lia|]. split; [lia|]. done.
Qed.

(** A read stamps the row it found: by the end of the call, if a payload
    is returned, the UPDATE has run once, after the SELECT. *)
Lemma get_stamps_row who query sc w :
  let res := run who (get_cached_response query) sc w in
  ∃ new, trace (world_of res) = trace w ++ new ∧
         get_stamped who (query_hash_of query) (table (wstore w)) (clock w)
           (GDone (outcome_of res)) (world_of res) new.
Proof.
  intros res. set (h := query_hash_of query).
  pose proof (machine_run (get_at query) get_next (get_waits h)
    GDone (get_at_awaited query) (get_at_exact query) (get_at_stopped query)
    who (λ _, True)
    (λ ph w0, ∃ new, trace w0 = trace w ++ new ∧
                     get_stamped who h (table (wstore w)) (clock w) ph w0 new))
    as Hrun.
  refine (Hrun I _ GCheck sc w _ _); [|by apply Forall_true|].
  - intros ph s t w0 _ Hw (new & Htr & Hst).
    destruct (get_stamped_step who h _ _ ph new s t w0 Hw Hst)
      as (now & Hnow & Hst').
    exists (new ++ [(who, s, now)]). split; [|done].
    by rewrite Hnow, Htr, <-app_assoc.
  - exists []. rewrite app_nil_r. split; [done|]. split; [lia|done].
Qed.

(** C4 (amended): on a hit [get_cached_response] runs the SELECT and
    then, as a second statement, the UPDATE. A call that returns a
    payload has issued exactly these two statements on the table, the
    SELECT at a time when the row was live and the UPDATE at or after
    it, whether or not the row is still live by then; the UPDATE has
    added one to [hit_count] and set [last_accessed] to its own time,
    leaving the rest of the row as it was. That UPDATE is one statement,
    so with any number of readers of the same query in flight,
    interleaved in any way, [hit_count] has grown by at least the number
    of readers that returned a payload. *)
Theorem hit_counted_by_second_statement who query sc (n : nat) sched w :
  let h := query_hash_of query in
  let alone := run who (get_cached_response query) sc w in
  let c := run_sched sched
    {| cworld := w; threads := replicate n (get_cached_response query) |} in
  (∃ new, trace (world_of alone) = trace w ++ new ∧
          match outcome_of alone with
          | Returned (Some data) =>
              table_stmts new = [SelectLive h; TouchHit h] ∧
              ∃ r0 r1 t_s t_u,
                table (wstore w) !! h = Some r0 ∧ response_data r0 = data ∧
                (who, SelectLive h, t_s) ∈ new ∧
                (who, TouchHit h, t_u) ∈ new ∧
                clock w ≤ t_s ≤ t_u ∧ t_u ≤ clock (world_of alone) ∧
                t_s < expires_at r0 ∧
                table (wstore (world_of alone)) !! h = Some r1 ∧
                last_accessed r1 = t_u ∧
                hit_count r1 = hit_count r0 + 1 ∧
                query_text r1 = query_text r0 ∧
                response_data r1 = response_data r0 ∧
                created_at r1 = created_at r0 ∧
                expires_at r1 = expires_at r0
          | _ => True
          end) ∧
  hits h w + Z.of_nat (served_count (threads c)) ≤ hits h (cworld c).
Proof.
  intros h alone c. split.
  { destruct (get_issues_two_statements who query sc w) as (new & Htr & Hiss).
    destruct (get_stamps_row who query sc w) as (new' & Htr' & _ & Hst).
    fold alone h in Htr, Hiss, Htr', Hst.
    assert (new' = new) as -> by (rewrite Htr in Htr'; by apply app_inv_head in Htr').
    exists new. split; [done|].
    by destruct (outcome_of alone) as [[]|]. }
  destruct (run_sched_counted (get_at query) get_next
    (get_waits h) (get_at_awaited query) (get_at_exact query)
    h (get_counted h) (keeps_row h)
    (get_counted_frame h)
    (λ who ph n s t w0, get_counted_step who h ph n s t w0)
    sched {| cworld := w; threads := replicate n (get_cached_response query) |}
    (replicate n GCheck) (replicate n 0%nat))
    as (phs & ns & Hthr & Hok & Hhits).
  { simpl. by rewrite fmap_replicate. }
  { simpl. clear. induction n; by constructor. }
  fold c in Hthr, Hok, Hhits. rewrite Hthr.
  pose proof (served_counted h query _ phs ns Hok) as Hle.
  rewrite sum_list_replicate, Nat.mul_0_r in Hhits. cbn [cworld] in Hhits.
  lia.
Qed.

End concurrent_calls.

Section evaluated.
Local Existing Instance toy_runtime.
Local Existing Instance hour.

(** C1, where the code departs from it: the database at time 100 holds a
    row for "q" that expired at time 10. [cache_response] reports
    success and the read that follows at once returns nothing: the row
    has the new payload and one more hit, but still expires at 10. *)
Lemma cached_over_expired_row_is_not_served :
  let res := run 0 (put_then_get "q" "new") [] expired_world in
  outcome_of res = Returned (true, None) ∧
  clock (world_of res) = 100 ∧
  table (wstore (world_of res)) !! "sha256:q" =
    Some {| query_text := "q"; response_data := "new";
            created_at := 0; last_accessed := 100;
            expires_at := 10; hit_count := 4 |}.
Proof. vm_compute. done. Qed.

(** C6, where the code departs from it: every write is to derive
    [expires_at] at write time, but the DO UPDATE SET list of the upsert
    leaves [expires_at] out. On the same database a write at time 100
    reports success and leaves [expires_at = 10] on the row, where one
    TTL after the write is 3700. *)
Lemma overwrite_leaves_stale_expiry :
  let res := run 0 (cache_response "q" "new") [] expired_world in
  outcome_of res = Returned true ∧
  clock (world_of res) = 100 ∧
  expires_at <$> table (wstore (world_of res)) !! "sha256:q" = Some 10 ∧
  default_expires_at 100 = 3700.
Proof. vm_compute. done. Qed.

(** C4, as stated, fails: the read and the increment are two statements,
    and time can pass between them. Here the SELECT runs at time 5 and
    finds the row live (it expires at 10); the UPDATE runs at time 20 and
    stamps [last_accessed = 20] on a row that has expired by then. *)
Lemma hit_update_is_a_separate_statement :
  let res := run 0 (get_cached_response "q")
               [calm; calm; {| elapse := 15; fault := None |}] live_world in
  outcome_of res = Returned (Some "old") ∧
  trace (world_of res) =
    [(0%nat, PoolCheck, 5); (0%nat, Acquire, 5);
     (0%nat, SelectLive "sha256:q", 5); (0%nat, TouchHit "sha256:q", 20);
     (0%nat, Release, 20)] ∧
  table (wstore (world_of res)) !! "sha256:q" =
    Some {| query_text := "q"; response_data := "old";
            created_at := 0; last_accessed := 20;
            expires_at := 10; hit_count := 4 |}.
Proof. vm_compute. done. Qed.


Lemma expired_entry_reads_absent_witness :
  table (wstore expired_world) !! query_hash_of "q" = Some sample_row ∧
  expires_at sample_row ≤ clock expired_world ∧
  outcome_of (run 0 (get_cached_response "q") [] expired_world) =
    Returned None ∧
  table (wstore (world_of (run 0 (get_cached_response "q") [] expired_world)))
    !! query_hash_of "q" = Some sample_row.
Proof.
  assert (table (wstore expired_world) !! query_hash_of "q" = Some sample_row)
    as Hrow by (by vm_compute).
  assert (expires_at sample_row ≤ clock expired_world) as Hexp
    by (by vm_compute).
  split; [exact Hrow|]. split; [exact Hexp|].
  destruct (expired_entry_reads_absent 0%nat "q" [] expired_world sample_row
    Hrow Hexp) as (_ & Hkept & _ & Hnone).
  split; [apply Hnone; constructor|exact Hkept].
Defined.

Lemma insert_counts_one_and_expires_after_ttl_witness :
  table (wstore empty_world) !! query_hash_of "q" = None ∧
  outcome_of (run 0 (cache_response "q" "new") [] empty_world) =
    Returned true ∧
  ∃ t r, clock empty_world ≤ t ≤
           clock (world_of (run 0 (cache_response "q" "new") [] empty_world)) ∧
         table (wstore (world_of
           (run 0 (cache_response "q" "new") [] empty_world)))
           !! query_hash_of "q" = Some r ∧
         response_data r = "new" ∧ hit_count r = 1 ∧
         created_at r = t ∧ expires_at r = t + ttl.
Proof.
  assert (table (wstore empty_world) !! query_hash_of "q" = None) as Hnone
    by (by vm_compute).
  assert (outcome_of (run 0 (cache_response "q" "new") [] empty_world) =
          Returned true) as Hok by (by vm_compute).
  split; [exact Hnone|]. split; [exact Hok|].
  exact (insert_counts_one_and_expires_after_ttl 0%nat "q" "new" []
           empty_world Hnone Hok).
Defined.

(** Two writers of "q" on an empty database, their statements
    alternating: both report success. *)
Lemma concurrent_writes_counted_witness :
  ∃ r, table (wstore (cworld (run_sched
         [(0%nat, calm); (1%nat, calm); (0%nat, calm); (1%nat, calm);
          (0%nat, calm); (1%nat, calm); (1%nat, calm); (0%nat, calm);
          (0%nat, calm); (1%nat, calm)]
         {| cworld := empty_world;
            threads := [cache_response "q" "one"; cache_response "q" "two"] |})))
       !! query_hash_of "q" = Some r ∧
       hit_count r = hits (query_hash_of "q") empty_world + 2 ∧
       (response_data r = "one" ∨ response_data r = "two").
Proof.
  apply (concurrent_writes_counted 0%nat "q" "one" "two" []). by vm_compute.
Defined.

End evaluated.

End ResponseCacheProofs.

(** ** The synchronous bridge *)

Module DatabaseWrapperProofs.
Import ResponseCache ResponseCacheProofs DatabaseWrapper.

Section bridge_facts.
Context `{PyRuntime} `{TTLPolicy}.

(** Every statement of a run is issued by the thread that drives it. *)
Lemma run_trace_by {A : Type} who (p : prog A) sc w :
  ∃ new, trace (world_of (run who p sc w)) = trace w ++ new ∧
         Forall (λ e, e.1.1 = who) new.
Proof.
  revert sc w. induction p as [a|e|s k IH]; intros sc w.
  - exists []. by rewrite app_nil_r.
  - exists []. by rewrite app_nil_r.
  - cbn [run].
    destruct (IH (perform who s (hd calm sc) w).1
                 (if is_sync s then sc else tail sc)
                 (perform who s (hd calm sc) w).2) as (new & Htr & Hby).
    destruct (perform_trace who s (hd calm sc) w) as (now & Hnow).
    exists ((who, s, now) :: new). split.
    + rewrite Htr, Hnow, <-app_assoc. done.
    + by constructor.
Qed.

(** What a run returns, and what it does to the store, is the same
    whichever thread drives it. *)
Lemma run_who {A : Type} who who' (p : prog A) sc w w' :
  wstore w = wstore w' → clock w = clock w' →
  outcome_of (run who p sc w) = outcome_of (run who' p sc w') ∧
  (run who p sc w).1.2 = (run who' p sc w').1.2 ∧
  wstore (world_of (run who p sc w)) = wstore (world_of (run who' p sc w')) ∧
  clock (world_of (run who p sc w)) = clock (world_of (run who' p sc w')).
Proof.
  revert sc w w'. induction p as [a|e|s k IH]; intros sc w w' Hst Hcl.
  - done.
  - done.
  - cbn [run].
    destruct (perform_who who who' s (hd calm sc) w w' Hst Hcl)
      as (Hr & Hst' & Hcl').
    rewrite Hr. by apply IH.
Qed.

(** [run] drives the coroutine to completion. *)
Lemma run_driven {A : Type} who (p : prog A) sc w :
  driven who p sc w (outcome_of (run who p sc w)) (run who p sc w).1.2
    (world_of (run who p sc w)).
Proof.
  revert sc w. induction p as [a|e|s k IH]; intros sc w.
  - constructor.
  - constructor.
  - cbn [run]. eapply driven_Await; [apply surjective_pairing|]. apply IH.
Qed.

(** C8, and where the code departs from it: what [_run_async] does
    depends on the wrapper's own loop, not on the calling thread. When
    that loop is running the coroutine is handed to a worker thread,
    which drives it to completion while the caller waits, and the
    caller gets its result or its exception. When that loop is not
    running, is open, and no loop is running in the calling thread, the
    calling thread drives the coroutine to completion, with the same
    guarantee. But when that loop is not running and another loop is
    running in the calling thread (or the wrapper's loop is closed), the
    bridge takes the direct path all the same: nothing is handed to a
    worker, the coroutine is never started, no statement is issued, and
    the caller gets the [RuntimeError] of [run_until_complete]. *)
Theorem run_async_dispatch {A : Type} (self : wrapper) (ctx : loops)
  (coro : prog A) sc w :
  let r := _run_async self ctx coro sc w in
  (is_running (loop self) ctx = true →
   bridge_events r = [Submit; AsyncioRun; FutureResult; Shutdown] ∧
   ∃ o, driven worker coro sc w o (bridge_script r) (bridge_world r) ∧
        bridge_outcome r = of_outcome o) ∧
  (is_running (loop self) ctx = false →
   is_closed (loop self) ctx = false →
   running_here ctx = None →
   bridge_events r = [RunUntilComplete] ∧
   ∃ o, driven caller coro sc w o (bridge_script r) (bridge_world r) ∧
        bridge_outcome r = of_outcome o) ∧
  (is_running (loop self) ctx = false →
   is_closed (loop self) ctx = true ∨ is_Some (running_here ctx) →
   bridge_events r = [RunUntilComplete] ∧
   (∃ msg, bridge_outcome r = RuntimeError msg) ∧
   bridge_script r = sc ∧ bridge_world r = w).
Proof.
  intros r. subst r. unfold _run_async. split; [|split].
  - intros Hruns. rewrite Hruns. cbn [negb bridge_events bridge_outcome
      bridge_script bridge_world]. split; [done|].
    unfold asyncio_run. cbn [fst snd].
    exists (outcome_of (run worker coro sc w)). split; [apply run_driven|].
    by destruct (outcome_of (run worker coro sc w)).
  - intros Hidle Hopen Hnone. rewrite Hidle. cbn [negb bridge_events
      bridge_outcome bridge_script bridge_world]. split; [done|].
    unfold run_until_complete. rewrite Hopen, Hidle, Hnone. cbn [fst snd].
    exists (outcome_of (run caller coro sc w)). split; [apply run_driven|done].
  - intros Hidle Hrefused. rewrite Hidle. cbn [negb bridge_events
      bridge_outcome bridge_script bridge_world]. split; [done|].
    unfold run_until_complete. rewrite Hidle.
    destruct (is_closed (loop self) ctx) eqn:Hclosed; cbn [fst snd].
    { split; [by eexists|done]. }
    destruct Hrefused as [Hc|[l Hl]]; [done|]. rewrite Hl. cbn [fst snd].
    split; [by eexists|done].
Qed.

End bridge_facts.

Section bridge_evaluated.
Local Existing Instance toy_runtime.
Local Existing Instance hour.

Lemma run_async_dispatch_witness :
  is_running (loop wrapper0) inside_other_loop = false ∧
  is_Some (running_here inside_other_loop) ∧
  bridge_outcome (_run_async wrapper0 inside_other_loop
    (ResponseCache.cache_response "q" "new") [] empty_world) =
    RuntimeError "Cannot run the event loop while another loop is running" ∧
  bridge_world (_run_async wrapper0 inside_other_loop
    (ResponseCache.cache_response "q" "new") [] empty_world) = empty_world ∧
  bridge_outcome (_run_async wrapper0 inside_own_loop
    (ResponseCache.cache_response "q" "new") [] empty_world) = Result true.
Proof.
  assert (is_running (loop wrapper0) inside_other_loop = false) as Hidle
    by (by vm_compute).
  assert (is_Some (running_here inside_other_loop)) as Hother
    by (by eexists).
  split; [exact Hidle|]. split; [exact Hother|].
  destruct (run_async_dispatch wrapper0 inside_other_loop
    (ResponseCache.cache_response "q" "new") [] empty_world)
    as (_ & _ & Hrefused).
  destruct (Hrefused Hidle (or_intror Hother)) as (_ & _ & _ & Hworld).
  split; [by vm_compute|]. split; [exact Hworld|]. by vm_compute.
Defined.

End bridge_evaluated.

End DatabaseWrapperProofs.


(** ** ContextCache: construction and persistence *)

Module ChunkCachePersistenceProofs.
Import ContextCache ContextCacheProofs ChunkCachePersistence.

Section persistence_facts.
Context `{PyRuntime} `{EmbeddingModel}.
Implicit Types (self : cache) (chunk h t : string).

Lemma written_through_init thr (d : disk) : written_through (__init__ thr d).
Proof. done. Qed.

Lemma written_through_get self chunk :
  written_through self → written_through (after (get_chunk self chunk)).
Proof.
  intros Hw.
  destruct (get_chunk_cases self chunk)
    as [(txt & _ & ->) | [(txt & _ & _ & ->) | (_ & _ & ->)]]; done.
Qed.

Lemma written_through_ops (ops : list op) self :
  written_through self → written_through (run_ops ops self).
Proof.
  revert self. induction ops as [|o ops IH]; intros self Hw; [done|].
  apply IH. destruct o; [by apply written_through_get|done].
Qed.

Lemma sem_threshold_get self chunk :
  sem_threshold (after (get_chunk self chunk)) = sem_threshold self.
Proof.
  destruct (get_chunk_cases self chunk)
    as [(txt & _ & ->) | [(txt & _ & _ & ->) | (_ & _ & ->)]]; done.
Qed.

Lemma sem_threshold_ops (ops : list op) self :
  sem_threshold (run_ops ops self) = sem_threshold self.
Proof.
  revert self. induction ops as [|o ops IH]; intros self; [done|].
  simpl. rewrite IH. destruct o; [apply sem_threshold_get|done].
Qed.

(** X1: Restart: whatever files the cache was started from and whatever was
    done with it since, starting a new cache from the files it leaves
    gives the same indexes and the same files back. *)
Theorem restart_restores_cache thr (d : disk) (ops : list op) :
  let self := run_ops ops (__init__ thr d) in
  __init__ thr (disk_of self) = self.
Proof.
  intros self.
  pose proof (written_through_ops ops _ (written_through_init thr d))
    as [Hex Hsem].
  pose proof (sem_threshold_ops ops (__init__ thr d)) as Hthr.
  fold self in Hex, Hsem, Hthr. simpl in Hthr.
  unfold __init__, _load_caches, disk_of. simpl.
  rewrite <-Hex, <-Hsem, <-Hthr. by destruct self.
Qed.

(** X2: A second lookup of the same chunk changes nothing more: the cache
    after two lookups is the cache after one. *)
Theorem get_chunk_settles self chunk :
  after (get_chunk (after (get_chunk self chunk)) chunk) =
  after (get_chunk self chunk).
Proof.
  destruct (get_chunk_cases self chunk)
    as [(txt & Hh & ->) | [(txt & Hh & Hs & ->) | (Hh & Hs & ->)]]; simpl.
  - by rewrite (get_chunk_exact _ _ _ Hh).
  - by rewrite (get_chunk_semantic _ _ _ Hh Hs).
  - erewrite get_chunk_exact; [done|].
    rewrite register_exact. apply lookup_insert_eq.
Qed.

Lemma scan_app_first emb thr (l1 l2 : list (Emb * string)) e txt :
  Forall (λ et, sim_ge et.1 emb thr = false) l1 →
  sim_ge e emb thr = true →
  scan emb thr (l1 ++ (e, txt) :: l2) = Some txt.
Proof.
  intros Hl1 He. induction Hl1 as [|[e' t'] l1 Hf _ IH]; simpl.
  - by rewrite He.
  - simpl in Hf. by rewrite Hf.
Qed.

Lemma scan_none emb thr (l : list (Emb * string)) :
  scan emb thr l = None ↔ Forall (λ et, sim_ge et.1 emb thr = false) l.
Proof.
  induction l as [|[e t] l IH]; simpl.
  - split; [by constructor|done].
  - destruct (sim_ge e emb thr) eqn:He.
    + split; [done|]. intros Hf. apply Forall_cons_1 in Hf as [Hf _].
      simpl in Hf. congruence.
    + rewrite IH. split; [by constructor|]. by intros [_ ?]%Forall_cons_1.
Qed.

Lemma scan_some emb thr (l : list (Emb * string)) txt :
  scan emb thr l = Some txt →
  ∃ l1 e l2, l = l1 ++ (e, txt) :: l2 ∧
             Forall (λ et, sim_ge et.1 emb thr = false) l1 ∧
             sim_ge e emb thr = true.
Proof.
  induction l as [|[e t] l IH]; simpl; [done|].
  destruct (sim_ge e emb thr) eqn:He.
  - intros [= ->]. by exists [], e, l.
  - intros (l1 & e1 & l2 & -> & Hl1 & He1)%IH.
    exists ((e, t) :: l1), e1, l2. repeat split; [|done]. by constructor.
Qed.

Lemma scan_app_some emb thr (l l' : list (Emb * string)) txt :
  scan emb thr l = Some txt → scan emb thr (l ++ l') = Some txt.
Proof.
  intros (l1 & e & l2 & -> & Hl1 & He)%scan_some.
  rewrite <-app_assoc. simpl. by apply scan_app_first.
Qed.

(** X3: Ties go to the older entry: when the chunk's hash is not in the
    exact index, the call returns the text of the first entry of the
    semantic index, in insertion order, that passes the similarity test,
    however many later entries pass it too. *)
Theorem semantic_hit_is_first_match self chunk l1 e txt l2 :
  exact_cache self !! _hash chunk = None →
  sem_cache self = l1 ++ (e, txt) :: l2 →
  Forall (λ et, passes self chunk et = false) l1 →
  passes self chunk (e, txt) = true →
  get_chunk self chunk = (txt, [Encode chunk; PrintSemanticHit], self).
Proof.
  intros Hh Hsem Hl1 He. apply get_chunk_semantic; [done|].
  rewrite Hsem. by apply scan_app_first.
Qed.

Lemma coupled_get self chunk :
  coupled self → coupled (after (get_chunk self chunk)).
Proof.
  intros (Hkeys & Hsem & Hnodup & Hsize).
  destruct (get_chunk_cases self chunk)
    as [(txt & _ & ->) | [(txt & _ & _ & ->) | (Hh & _ & ->)]];
    try done.
  unfold coupled. simpl. repeat split.
  - intros h t. rewrite lookup_insert. case_decide as Heq.
    + by intros [= <-].
    + apply Hkeys.
  - apply Forall_app. split.
    + eapply Forall_impl; [exact Hsem|]. intros [e t] [He Ht]. simpl in *.
      split; [done|]. rewrite lookup_insert_ne; [done|]. congruence.
    + repeat constructor. simpl. apply lookup_insert_eq.
  - rewrite fmap_app. apply NoDup_app. repeat split; [done| |].
    + intros t Ht Hin. simpl in Hin. apply list_elem_of_singleton in Hin.
      subst t. apply list_elem_of_fmap in Ht as ([e t] & -> & Het).
      rewrite Forall_forall in Hsem. destruct (Hsem _ Het) as [_ Hex].
      simpl in *. congruence.
    + simpl. apply NoDup_singleton.
  - rewrite map_size_insert_None by done. rewrite length_app. simpl. lia.
Qed.

Lemma coupled_clear self : coupled (clear_caches self).
Proof.
  unfold coupled. simpl. repeat split; try done.
  - apply NoDup_nil_2.
Qed.

Lemma coupled_fresh thr : coupled (__init__ thr {| exact_pkl := None; sem_pkl := None |}).
Proof.
  unfold coupled. simpl. repeat split; try done.
  - apply NoDup_nil_2.
Qed.

Lemma coupled_ops (ops : list op) self :
  coupled self → coupled (run_ops ops self).
Proof.
  revert self. induction ops as [|o ops IH]; intros self Hc; [done|].
  apply IH. destruct o; [by apply coupled_get|apply coupled_clear].
Qed.

(** X4: The two indexes stay in step: from a cache started with no files, or
    from a cleared one, any sequence of lookups and clears leaves every
    text of the exact index stored under its own hash, every entry of the
    semantic index holding a text with its own embedding that is also in
    the exact index, no text twice in the semantic index, and as many
    entries in one index as in the other. *)
Theorem indexes_stay_coupled thr (ops : list op) self :
  coupled (run_ops ops (__init__ thr {| exact_pkl := None; sem_pkl := None |})) ∧
  coupled (run_ops ops (clear_caches self)).
Proof.
  split; apply coupled_ops; [apply coupled_fresh|apply coupled_clear].
Qed.

(** X5: What a lookup returns is a stored text: with the indexes in step,
    looking up the returned text is an exact hit that returns it. *)
Theorem returned_text_is_canonical self chunk :
  coupled self →
  let r := get_chunk self chunk in
  get_chunk (after r) (text_of r) =
    (text_of r, [PrintExactHit (prefix8 (_hash (text_of r)))], after r).
Proof.
  intros (Hkeys & Hsem & _ & _) r. subst r.
  destruct (get_chunk_cases self chunk)
    as [(txt & Hh & ->) | [(txt & Hh & Hs & ->) | (Hh & Hs & ->)]];
    unfold text_of, after; simpl.
  - apply get_chunk_exact. by rewrite <-(Hkeys _ _ Hh).
  - apply get_chunk_exact.
    apply scan_some in Hs as (l1 & e & l2 & Hl & _ & _).
    rewrite Forall_forall in Hsem.
    refine (proj2 (Hsem (e, txt) _)). rewrite Hl.
    apply elem_of_app. right. apply list_elem_of_here.
  - apply get_chunk_exact. rewrite register_exact. apply lookup_insert_eq.
Qed.

Lemma stable_step self chunk c' txt :
  (∀ x y, sha256_hexdigest x = sha256_hexdigest y → x = y) →
  get_chunk self chunk = (txt, [Encode chunk; PrintSemanticHit], self) →
  get_chunk (after (get_chunk self c')) chunk =
    (txt, [Encode chunk; PrintSemanticHit], after (get_chunk self c')).
Proof.
  intros Hinj Hget.
  assert (exact_cache self !! _hash chunk = None ∧
          scan (encode chunk) (sem_threshold self) (sem_cache self) = Some txt)
    as [Hh Hs].
  { destruct (get_chunk_cases self chunk)
      as [(t & _ & Heq) | [(t & ? & ? & Heq) | (_ & _ & Heq)]];
      rewrite Heq in Hget; by simplify_eq. }
  destruct (get_chunk_cases self c')
    as [(t & _ & ->) | [(t & _ & _ & ->) | (Hh' & Hs' & ->)]]; simpl; try done.
  apply get_chunk_semantic; simpl.
  - rewrite lookup_insert_ne; [done|].
    intros Heq. apply Hinj in Heq. subst c'. congruence.
  - by apply scan_app_some.
Qed.

Lemma stable_ops (ops : list op) self chunk txt :
  (∀ x y, sha256_hexdigest x = sha256_hexdigest y → x = y) →
  ClearCaches ∉ ops →
  get_chunk self chunk = (txt, [Encode chunk; PrintSemanticHit], self) →
  get_chunk (run_ops ops self) chunk =
    (txt, [Encode chunk; PrintSemanticHit], run_ops ops self).
Proof.
  intros Hinj. revert self. induction ops as [|o ops IH]; intros self Hclear Hget.
  - done.
  - apply not_elem_of_cons in Hclear as [Ho Hclear].
    destruct o as [c'|]; [|done]. simpl. apply IH; [done|].
    by apply stable_step.
Qed.

(** X6: A resolution lasts: with a digest that has no collisions, what a
    chunk resolved to the first time is what it resolves to after any
    further lookups of any chunks, until the caches are cleared. *)
Theorem resolution_is_stable (ops : list op) self chunk :
  (∀ x y, sha256_hexdigest x = sha256_hexdigest y → x = y) →
  ClearCaches ∉ ops →
  text_of (get_chunk (run_ops ops (after (get_chunk self chunk))) chunk) =
  text_of (get_chunk self chunk).
Proof.
  intros Hinj Hclear.
  destruct (get_chunk_cases self chunk)
    as [(txt & Hh & Heq) | [(txt & Hh & Hs & Heq) | (Hh & Hs & Heq)]];
    rewrite Heq; unfold after; simpl.
  - destruct (run_ops_keeps ops self _ _ Hh) as [Hk|?]; [|done].
    by rewrite (get_chunk_exact _ _ _ Hk).
  - by rewrite (stable_ops ops self chunk txt Hinj Hclear Heq).
  - assert (exact_cache (register self (_hash chunk) (encode chunk) chunk)
              !! _hash chunk = Some chunk) as Hreg.
    { rewrite register_exact. apply lookup_insert_eq. }
    destruct (run_ops_keeps ops _ _ _ Hreg) as [Hk|?]; [|done].
    by rewrite (get_chunk_exact _ _ _ Hk).
Qed.

(** A semantic hit outlives the lookup of another chunk, provided that
    chunk does not share the hash. *)
Lemma semantic_hit_step self chunk c' txt :
  (_hash c' = _hash chunk → c' = chunk) →
  get_chunk self chunk = (txt, [Encode chunk; PrintSemanticHit], self) →
  get_chunk (after (get_chunk self c')) chunk =
    (txt, [Encode chunk; PrintSemanticHit], after (get_chunk self c')).
Proof.
  intros Hinj Hget.
  assert (exact_cache self !! _hash chunk = None ∧
          scan (encode chunk) (sem_threshold self) (sem_cache self) = Some txt)
    as [Hh Hs].
  { destruct (get_chunk_cases self chunk)
      as [(t & _ & Heq) | [(t & ? & ? & Heq) | (_ & _ & Heq)]];
      rewrite Heq in Hget; by simplify_eq. }
  destruct (get_chunk_cases self c')
    as [(t & _ & ->) | [(t & _ & _ & ->) | (Hh' & Hs' & ->)]]; simpl; try done.
  apply get_chunk_semantic; simpl.
  - rewrite lookup_insert_ne; [done|].
    intros Heq. apply Hinj in Heq. subst c'. congruence.
  - by apply scan_app_some.
Qed.

Lemma semantic_hit_ops (ops : list op) self chunk txt :
  ClearCaches ∉ ops →
  (∀ c', GetChunk c' ∈ ops → _hash c' = _hash chunk → c' = chunk) →
  get_chunk self chunk = (txt, [Encode chunk; PrintSemanticHit], self) →
  get_chunk (run_ops ops self) chunk =
    (txt, [Encode chunk; PrintSemanticHit], run_ops ops self).
Proof.
  revert self. induction ops as [|o ops IH]; intros self Hclear Hinj Hget.
  - done.
  - apply not_elem_of_cons in Hclear as [Ho Hclear].
    destruct o as [c'|]; [|done]. simpl. apply IH; [done| |].
    + intros c Hc. apply Hinj. by apply list_elem_of_further.
    + apply semantic_hit_step; [|done]. apply Hinj. apply list_elem_of_here.
Qed.

(** Right after a clear every lookup is a miss. *)
Lemma cleared_lookup_is_miss self chunk :
  get_chunk (clear_caches self) chunk =
    (chunk,
     [Encode chunk; PrintMiss (prefix8 (_hash chunk)); SaveExact; SaveSem],
     register (clear_caches self) (_hash chunk) (encode chunk) chunk).
Proof. by apply get_chunk_miss. Qed.

(** C10 (amended): a call of [get_chunk] that returns through a hit,
    exact or semantic, leaves both indexes and both files as they were.
    After a semantic hit the chunk's own hash is still absent from the
    exact index, and every further lookup of the chunk, back to back or
    after any lookups of other chunks, is the same call again (embedding
    computed, semantic index scanned, same text, nothing registered), as
    long as the caches are not cleared and no chunk looked up in between
    has the chunk's hash. Right after [clear_caches], though, a lookup
    of the chunk is a miss that registers it under its own hash, and the
    lookup after that is an exact hit with no embedding computed. *)
Theorem hit_leaves_cache_unchanged self chunk :
  (is_hit (log_of (get_chunk self chunk)) = true →
   after (get_chunk self chunk) = self ∧
   (semantic_hit (log_of (get_chunk self chunk)) = true →
    exact_cache (after (get_chunk self chunk)) !! _hash chunk = None ∧
    (∀ n : nat,
       lookups n self chunk =
         (replicate n (text_of (get_chunk self chunk),
                       [Encode chunk; PrintSemanticHit]), self)) ∧
    (∀ ops : list op,
       ClearCaches ∉ ops →
       (∀ c', GetChunk c' ∈ ops → _hash c' = _hash chunk → c' = chunk) →
       get_chunk (run_ops ops self) chunk =
         (text_of (get_chunk self chunk), [Encode chunk; PrintSemanticHit],
          run_ops ops self) ∧
       exact_cache (run_ops ops self) !! _hash chunk = None))) ∧
  (let again := get_chunk (clear_caches self) chunk in
   log_of again =
     [Encode chunk; PrintMiss (prefix8 (_hash chunk)); SaveExact; SaveSem] ∧
   exact_cache (after again) !! _hash chunk = Some chunk ∧
   get_chunk (after again) chunk =
     (chunk, [PrintExactHit (prefix8 (_hash chunk))], after again)).
Proof.
  split.
  - intros Hhit. pose proof (hit_unchanged _ _ Hhit) as Hfix.
    split; [done|]. intros Hsem. rewrite Hfix.
    destruct (get_chunk_cases self chunk)
      as [(txt & Hh & Heq) | [(txt & Hh & Hs & Heq) | (Hh & Hs & Heq)]];
      rewrite Heq in Hsem; simpl in Hsem; try done.
    split; [done|]. split.
    + intros n. rewrite (lookups_fixed n self chunk Hfix), Heq. done.
    + intros ops Hclear Hinj. rewrite Heq. unfold text_of. simpl.
      pose proof (semantic_hit_ops ops self chunk txt Hclear Hinj Heq)
        as Hlater.
      split; [done|].
      destruct (get_chunk_cases (run_ops ops self) chunk)
        as [(t & _ & Heq') | [(t & Hnone & _ & _) | (_ & _ & Heq')]];
        [|done|]; rewrite Heq' in Hlater; by simplify_eq.
  - intros again. subst again. rewrite cleared_lookup_is_miss.
    unfold log_of, after. cbn [fst snd].
    assert (exact_cache (register (clear_caches self) (_hash chunk)
              (encode chunk) chunk) !! _hash chunk = Some chunk) as Hreg.
    { rewrite register_exact. apply lookup_insert_eq. }
    split; [done|]. split; [done|]. by apply get_chunk_exact.
Qed.

End persistence_facts.

Section hits_evaluated.
Local Existing Instance toy_runtime.

(** C10, as stated, fails once the caches are cleared: "xyz" is resolved
    by similarity to "abc"; after [clear_caches] the next lookup of
    "xyz" is a miss that registers it under its own hash, and the lookup
    after that is an exact hit with no embedding computed. *)
Lemma cleared_chunk_is_registered_counterexample :
  let hit := get_chunk seen_abc "xyz" in
  let again := get_chunk (clear_caches (after hit)) "xyz" in
  let third := get_chunk (after again) "xyz" in
  log_of hit = [Encode "xyz"; PrintSemanticHit] ∧
  text_of hit = "abc" ∧
  log_of again =
    [Encode "xyz"; PrintMiss (prefix8 (_hash "xyz")); SaveExact; SaveSem] ∧
  exact_cache (after again) !! _hash "xyz" = Some "xyz" ∧
  log_of third = [PrintExactHit (prefix8 (_hash "xyz"))] ∧
  embeds (log_of third) = false.
Proof. vm_compute. done. Qed.

Lemma hit_leaves_cache_unchanged_witness :
  is_hit (log_of (get_chunk seen_abc "xyz")) = true ∧
  after (get_chunk seen_abc "xyz") = seen_abc ∧
  get_chunk (run_ops [GetChunk "hello"; GetChunk "xyz"; GetChunk "abcd"]
               seen_abc) "xyz" =
    ("abc", [Encode "xyz"; PrintSemanticHit],
     run_ops [GetChunk "hello"; GetChunk "xyz"; GetChunk "abcd"] seen_abc).
Proof.
  assert (is_hit (log_of (get_chunk seen_abc "xyz")) = true) as Hhit
    by (by vm_compute).
  split; [exact Hhit|].
  destruct (hit_leaves_cache_unchanged seen_abc "xyz") as [Hkept _].
  destruct (Hkept Hhit) as [Hsame Hsem].
  split; [exact Hsame|].
  destruct Hsem as (_ & _ & Hlater); [by vm_compute|].
  destruct (Hlater [GetChunk "hello"; GetChunk "xyz"; GetChunk "abcd"])
    as [Hget _].
  - intros Hin. repeat (apply elem_of_cons in Hin as [Hin|Hin]; [done|]).
    by apply not_elem_of_nil in Hin.
  - intros c' _ Heq. revert Heq. cbv. by intros [= ->].
  - rewrite Hget. by vm_compute.
Defined.

End hits_evaluated.

Lemma toy_digest_injective x y :
  sha256_hexdigest (PyRuntime := toy_runtime) x =
  sha256_hexdigest (PyRuntime := toy_runtime) y → x = y.
Proof. cbv. by intros [= ->]. Qed.

Lemma semantic_hit_is_first_match_witness :
  get_chunk (H := toy_runtime) near_cache "xyz" =
  ("ab", [Encode "xyz"; PrintSemanticHit], near_cache).
Proof.
  apply (semantic_hit_is_first_match (H := toy_runtime) (H0 := toy_model)
           near_cache "xyz" [(7%nat, "abcdefg")] 2%nat "ab" [(4%nat, "abcd")]);
    [by vm_compute|by vm_compute|by repeat constructor|by vm_compute].
Defined.

Lemma returned_text_is_canonical_witness :
  get_chunk (H := toy_runtime)
    (after (get_chunk (H := toy_runtime) seen_abc "xyz"))
    (text_of (get_chunk (H := toy_runtime) seen_abc "xyz")) =
  (text_of (get_chunk (H := toy_runtime) seen_abc "xyz"),
   [PrintExactHit (prefix8 (_hash (H := toy_runtime)
      (text_of (get_chunk (H := toy_runtime) seen_abc "xyz"))))],
   after (get_chunk (H := toy_runtime) seen_abc "xyz")).
Proof.
  apply (returned_text_is_canonical (H := toy_runtime) seen_abc "xyz").
  apply (coupled_get (H := toy_runtime) fresh_cache "abc").
  apply (coupled_fresh (H := toy_runtime) (H0 := toy_model) 0%nat).
Defined.

Lemma resolution_is_stable_witness :
  text_of (get_chunk (H := toy_runtime)
    (run_ops (H := toy_runtime) [GetChunk "hello"; GetChunk "abcd"]
       (after (get_chunk (H := toy_runtime) seen_abc "xyz"))) "xyz") =
  text_of (get_chunk (H := toy_runtime) seen_abc "xyz").
Proof.
  apply (resolution_is_stable (H := toy_runtime)).
  - exact toy_digest_injective.
  - intros Hin. repeat (apply elem_of_cons in Hin as [Hin|Hin]; [done|]).
    by apply not_elem_of_nil in Hin.
Defined.

End ChunkCachePersistenceProofs.

(** ** User accounts *)

Module UserAuthProofs.
Import UserAuth.

Section accounts_facts.
Context `{PyRuntime}.
Implicit Types (form_data : gmap string string)
  (file : option (gmap string user_rec)).

Lemma load_users_spec file :
  load_users file = (users_of file, Some (users_of file)).
Proof. by destruct file. Qed.

Lemma all_filled_false form_data k :
  form_data !! k = Some "" → all_filled form_data = false.
Proof.
  intros Hk. unfold all_filled. apply not_true_is_false. intros Hall.
  rewrite forallb_forall in Hall.
  specialize (Hall (k, "")). simpl in Hall.
  enough (false = true) by done. apply Hall.
  apply list_elem_of_In, elem_of_map_to_list. done.
Qed.

(** What a signup that goes through has checked and done. *)
Lemma signup_success form_data file b file' :
  signup_user form_data file = (inr b, file') →
  ∃ u pw name email role,
    form_data !! "username" = Some u ∧
    form_data !! "password" = Some pw ∧
    form_data !! "confirm_password" = Some pw ∧
    form_data !! "name" = Some name ∧
    form_data !! "email" = Some email ∧
    form_data !! "role" = Some role ∧
    all_filled form_data = true ∧
    users_of file !! u = None ∧
    b = true ∧
    file' = Some (<[u := {| rec_name := name; rec_email := email;
                            rec_password := sha256_hexdigest pw;
                            rec_role := role |}]> (users_of file)).
Proof.
  unfold signup_user. rewrite load_users_spec.
  destruct (form_data !! "username") as [u|]; [|done].
  destruct (all_filled form_data) eqn:Hall; simpl; [|done].
  destruct (form_data !! "password") as [pw|]; [|done].
  destruct (form_data !! "confirm_password") as [cpw|]; [|done].
  destruct (String.eqb pw cpw) eqn:Hpw; simpl; [|done].
  apply String.eqb_eq in Hpw as <-.
  case_bool_decide as Hu; [done|].
  destruct (form_data !! "name") as [name|]; [|done].
  destruct (form_data !! "email") as [email|]; [|done].
  destruct (form_data !! "role") as [role|]; [|done].
  intros [= <- <-]. exists u, pw, name, email, role.
  repeat split; try done.
  by apply eq_None_not_Some.
Qed.

(** Every signup that is refused leaves the registered users as they
    were (the file exists afterwards, created empty if it was missing). *)
Lemma signup_failure form_data file err file' :
  signup_user form_data file = (inl err, file') →
  file' = Some (users_of file).
Proof.
  unfold signup_user. rewrite load_users_spec.
  repeat (match goal with
          | |- context [match ?x with _ => _ end] => destruct x
          end; simpl; try done);
    by intros [= <- <-].
Qed.

(** X7: Signup then login: after a signup that went through, logging in with
    the username and password of the form succeeds and returns the name,
    role and email of the form, leaving the file as it is. *)
Theorem signup_then_login form_data file file' u pw :
  signup_user form_data file = (inr true, file') →
  form_data !! "username" = Some u →
  form_data !! "password" = Some pw →
  ∃ name email role,
    form_data !! "name" = Some name ∧
    form_data !! "email" = Some email ∧
    form_data !! "role" = Some role ∧
    login_user u pw file' =
      (inr {| info_username := u; info_name := name;
              info_role := role; info_email := email |}, file').
Proof.
  intros Hs Hu Hpw.
  apply signup_success in Hs
    as (u' & pw' & name & email & role & Hu' & Hpw' & _ & Hn & He & Hr &
        _ & _ & _ & ->).
  simplify_eq. exists name, email, role. repeat split; try done.
  unfold login_user. simpl. rewrite lookup_insert_eq. simpl.
  by rewrite String.eqb_refl.
Qed.

(** X8: A registered username is never taken over: signing up with it
    raises and the registered users stay as they were, whatever else the
    form holds. What is raised is one of the five refusals of the
    function, and it is "Username already exists." whenever every value
    of the form is filled in and the two passwords are present and
    equal. *)
Theorem signup_never_overwrites form_data file u rec :
  form_data !! "username" = Some u →
  users_of file !! u = Some rec →
  ∃ err,
    signup_user form_data file = (inl err, Some (users_of file)) ∧
    err ∈ [ValueError "All fields are required."; KeyError "password";
           KeyError "confirm_password"; ValueError "Passwords must match.";
           ValueError "Username already exists."] ∧
    (all_filled form_data = true →
     (∃ pw, form_data !! "password" = Some pw ∧
            form_data !! "confirm_password" = Some pw) →
     err = ValueError "Username already exists.").
Proof.
  intros Hu Hrec. unfold signup_user. rewrite load_users_spec, Hu.
  destruct (all_filled form_data); cbn [negb].
  2: { eexists. split; [done|]. split; [|done].
       rewrite !elem_of_cons. tauto. }
  destruct (form_data !! "password") as [pw|].
  2: { eexists. split; [done|]. split; [rewrite !elem_of_cons; tauto|].
       by intros _ (pw & [=] & _). }
  destruct (form_data !! "confirm_password") as [cpw|].
  2: { eexists. split; [done|]. split; [rewrite !elem_of_cons; tauto|].
       by intros _ (pw' & _ & [=]). }
  destruct (String.eqb pw cpw) eqn:Hpw; cbn [negb].
  2: { eexists. split; [done|]. split; [rewrite !elem_of_cons; tauto|].
       intros _ (pw' & [= ->] & [= ->]). by rewrite String.eqb_refl in Hpw. }
  rewrite bool_decide_eq_true_2 by (by rewrite Hrec).
  eexists. split; [done|]. split; [|done].
  rewrite !elem_of_cons. tauto.
Qed.

(** X9: A signup that goes through adds one user and touches no other: the
    username was free, the new record holds the name, email and role of
    the form and the digest of the password in place of the password,
    and every other user's record is as before. *)
Theorem signup_adds_one_user form_data file file' :
  signup_user form_data file = (inr true, file') →
  ∃ u pw rec,
    form_data !! "username" = Some u ∧
    form_data !! "password" = Some pw ∧
    users_of file !! u = None ∧
    users_of file' !! u = Some rec ∧
    rec_password rec = sha256_hexdigest pw ∧
    form_data !! "name" = Some (rec_name rec) ∧
    form_data !! "email" = Some (rec_email rec) ∧
    form_data !! "role" = Some (rec_role rec) ∧
    ∀ v, v ≠ u → users_of file' !! v = users_of file !! v.
Proof.
  intros Hs.
  apply signup_success in Hs
    as (u & pw & name & email & role & Hu & Hpw & _ & Hn & He & Hr &
        _ & Hfree & _ & ->).
  exists u, pw, {| rec_name := name; rec_email := email;
                   rec_password := sha256_hexdigest pw; rec_role := role |}.
  simpl. repeat split; try done.
  - apply lookup_insert_eq.
  - intros v Hv. by rewrite lookup_insert_ne.
Qed.

(** X10: A form with an empty value anywhere, even under a key that signup
    does not read, is refused and nothing is registered. The username is
    read first: a form without "username" raises [KeyError]; a form with
    one is refused with "All fields are required." before the passwords
    are compared or the username is looked up. *)
Theorem signup_requires_all_fields form_data file k :
  form_data !! k = Some "" →
  signup_user form_data file =
    (inl (if form_data !! "username" is Some _
          then ValueError "All fields are required."
          else KeyError "username"),
     Some (users_of file)).
Proof.
  intros Hk. unfold signup_user. rewrite load_users_spec.
  destruct (form_data !! "username") as [u|]; [|done].
  by rewrite (all_filled_false _ _ Hk).
Qed.

(** X11: Login lets nobody in without the right digest: a login that goes
    through is for a registered user whose stored password is the digest
    of the password given, and it returns that user's stored name, role
    and email. *)
Theorem login_checks_digest username password file info file' :
  login_user username password file = (inr info, file') →
  ∃ rec, users_of file !! username = Some rec ∧
         sha256_hexdigest password = rec_password rec ∧
         info = {| info_username := username; info_name := rec_name rec;
                   info_role := rec_role rec; info_email := rec_email rec |} ∧
         file' = Some (users_of file).
Proof.
  unfold login_user. rewrite load_users_spec.
  destruct (users_of file !! username) as [rec|]; [|done].
  destruct (String.eqb _ _) eqn:Heq; simpl; [|done].
  apply String.eqb_eq in Heq. intros [= <- <-]. by exists rec.
Qed.

Lemma login_keeps_users username password file :
  (login_user username password file).2 = Some (users_of file).
Proof.
  unfold login_user. rewrite load_users_spec.
  destruct (users_of file !! username) as [rec|]; [|done].
  by destruct (negb _).
Qed.

Lemma apply_auth_keeps file (o : auth_op) u rec :
  users_of file !! u = Some rec →
  users_of (apply_auth file o) !! u = Some rec.
Proof.
  intros Hrec. destruct o as [form_data|username password|]; simpl.
  - destruct (signup_user form_data file) as [[err|b] file'] eqn:Hs; simpl.
    + by rewrite (signup_failure _ _ _ _ Hs).
    + apply signup_success in Hs
        as (u' & ? & ? & ? & ? & _ & _ & _ & _ & _ & _ & _ & Hfree & _ & ->).
      simpl. rewrite lookup_insert_ne; [done|]. congruence.
  - by rewrite login_keeps_users.
  - done.
Qed.

(** X12: Once registered, always registered, and unchanged: over any sequence
    of signups, logins and logouts a user's record stays what it was
    when it was stored. *)
Theorem registered_users_are_kept (ops : list auth_op) file u rec :
  users_of file !! u = Some rec →
  users_of (run_auth ops file) !! u = Some rec.
Proof.
  revert file. induction ops as [|o ops IH]; intros file Hrec; [done|].
  apply IH. by apply apply_auth_keeps.
Qed.

End accounts_facts.

Section accounts_evaluated.
Local Existing Instance toy_runtime.

Lemma alice_signs_up :
  signup_user alice_form None =
    (inr true,
     Some {[ "alice" := {| rec_name := "Alice Johnson";
                           rec_email := "alice@student.edu";
                           rec_password := "sha256:student123";
                           rec_role := "student" |} ]}).
Proof. by vm_compute. Qed.

Lemma signup_then_login_witness :
  ∃ name email role,
    alice_form !! "name" = Some name ∧
    alice_form !! "email" = Some email ∧
    alice_form !! "role" = Some role ∧
    login_user "alice" "student123" (signup_user alice_form None).2 =
      (inr {| info_username := "alice"; info_name := name;
              info_role := role; info_email := email |},
       (signup_user alice_form None).2).
Proof.
  apply (signup_then_login alice_form None); by vm_compute.
Defined.

Lemma signup_never_overwrites_witness :
  alice_form !! "username" = Some "alice" ∧
  is_Some (users_of (signup_user alice_form None).2 !! "alice") ∧
  signup_user alice_form (signup_user alice_form None).2 =
    (inl (ValueError "Username already exists."),
     Some (users_of (signup_user alice_form None).2)).
Proof.
  assert (alice_form !! "username" = Some "alice") as Hu by (by vm_compute).
  assert (users_of (signup_user alice_form None).2 !! "alice" =
          Some {| rec_name := "Alice Johnson"; rec_email := "alice@student.edu";
                  rec_password := "sha256:student123";
                  rec_role := "student" |}) as Hrec by (by vm_compute).
  split; [exact Hu|]. split; [by eexists|].
  destruct (signup_never_overwrites alice_form _ "alice" _ Hu Hrec)
    as (err & Hrun & _ & Hlast).
  assert (err = ValueError "Username already exists.") as Herr.
  { apply Hlast; [by vm_compute|]. exists "student123". split; by vm_compute. }
  rewrite <-Herr. exact Hrun.
Defined.

Lemma signup_adds_one_user_witness :
  ∃ u pw rec,
    alice_form !! "username" = Some u ∧
    alice_form !! "password" = Some pw ∧
    users_of None !! u = None ∧
    users_of (signup_user alice_form None).2 !! u = Some rec ∧
    rec_password rec = sha256_hexdigest pw ∧
    alice_form !! "name" = Some (rec_name rec) ∧
    alice_form !! "email" = Some (rec_email rec) ∧
    alice_form !! "role" = Some (rec_role rec) ∧
    ∀ v, v ≠ u → users_of (signup_user alice_form None).2 !! v =
                 users_of None !! v.
Proof.
  apply (signup_adds_one_user alice_form None). by vm_compute.
Defined.

Lemma signup_requires_all_fields_witness :
  (<["nickname" := ""]> alice_form : gmap string string) !! "nickname" =
    Some "" ∧
  signup_user (<["nickname" := ""]> alice_form) None =
    (inl (ValueError "All fields are required."), Some (users_of None)) ∧
  signup_user ({["nickname" := ""]} : gmap string string) None =
    (inl (KeyError "username"), Some (users_of None)).
Proof.
  assert ((<["nickname" := ""]> alice_form : gmap string string)
            !! "nickname" = Some "") as Hk by (by vm_compute).
  split; [exact Hk|]. split.
  - pose proof (signup_requires_all_fields _ None "nickname" Hk) as Hw.
    vm_compute in Hw. vm_compute. exact Hw.
  - assert (({["nickname" := ""]} : gmap string string) !! "nickname" =
            Some "") as Hk' by (by vm_compute).
    pose proof (signup_requires_all_fields _ None "nickname" Hk') as Hw.
    vm_compute in Hw. vm_compute. exact Hw.
Defined.

Lemma login_checks_digest_witness :
  ∃ rec, users_of (signup_user alice_form None).2 !! "alice" = Some rec ∧
         sha256_hexdigest "student123" = rec_password rec ∧
         {| info_username := "alice"; info_name := "Alice Johnson";
            info_role := "student"; info_email := "alice@student.edu" |} =
         {| info_username := "alice"; info_name := rec_name rec;
            info_role := rec_role rec; info_email := rec_email rec |} ∧
         (signup_user alice_form None).2 =
           Some (users_of (signup_user alice_form None).2).
Proof.
  apply (login_checks_digest "alice" "student123"). by vm_compute.
Defined.

Lemma registered_users_are_kept_witness :
  users_of (run_auth
    [Login "alice" "wrong"; Signup alice_form; Logout]
    (signup_user alice_form None).2) !! "alice" =
  Some {| rec_name := "Alice Johnson"; rec_email := "alice@student.edu";
          rec_password := "sha256:student123"; rec_role := "student" |}.
Proof.
  apply (registered_users_are_kept _ (signup_user alice_form None).2).
  by vm_compute.
Defined.

End accounts_evaluated.

End UserAuthProofs.

(** ** The response cache: rows, keys and the pool *)

Module ResponseCacheLifecycleProofs.
Import ResponseCache ResponseCacheProofs ResponseCacheLifecycle.

Section rows.
Context `{PyRuntime} `{TTLPolicy}.

Lemma later_row_refl r : later_row r r.
Proof. by repeat split. Qed.

Lemma perform_clock who s t w : clock w ≤ clock (perform who s t w).2.
Proof.
  unfold perform. destruct (is_sync s); [simpl; lia|].
  destruct (fault t); simpl; lia.
Qed.

(** No statement deletes a row, changes its query text, creation time
    or expiry, or lowers its hit count. *)
Lemma perform_holds_row who s t w h r :
  holds_row h r w → holds_row h r (perform who s t w).2.
Proof.
  intros (r' & Hr' & Hlater). unfold holds_row, perform.
  destruct (is_sync s) eqn:Hsync.
  - destruct s; simplify_eq/=. by exists r'.
  - destruct (fault t); simpl; [by exists r'|].
    destruct s; simpl; try (by exists r').
    + destruct (pool (wstore w)); simpl; by exists r'.
    + destruct (pool (wstore w)); simpl; by exists r'.
    + destruct (decide (h0 = h)) as [->|Hne].
      * rewrite lookup_alter_eq, Hr'. simpl. eexists. split; [done|].
        destruct Hlater as (? & ? & ? & ?). repeat split; simpl; (done || lia).
      * rewrite lookup_alter_ne by done. by exists r'.
    + unfold upsert. destruct (decide (h0 = h)) as [->|Hne].
      * rewrite Hr', lookup_insert_eq. eexists. split; [done|].
        destruct Hlater as (? & ? & ? & ?). repeat split; simpl; (done || lia).
      * destruct (table (wstore w) !! h0); rewrite lookup_insert_ne by done;
          by exists r'.
Qed.

Lemma run_clock {A : Type} who (p : prog A) sc w :
  clock w ≤ clock (world_of (run who p sc w)).
Proof.
  apply (run_invariant who (λ _, True) (λ _ w', clock w ≤ clock w'));
    [done| |by apply Forall_true|lia].
  intros s k t w0 _ Hle. pose proof (perform_clock who s t w0). lia.
Qed.

Lemma run_holds_row {A : Type} who (p : prog A) sc w h r :
  holds_row h r w → holds_row h r (world_of (run who p sc w)).
Proof.
  intros Hrow.
  apply (run_invariant who (λ _, True) (λ _ w', holds_row h r w'));
    [done| |by apply Forall_true|done].
  intros s k t w0 _ Hw0. by apply perform_holds_row.
Qed.

Lemma sched_holds_row {A : Type} sched (c : config A) h r :
  holds_row h r (cworld c) → holds_row h r (cworld (run_sched sched c)).
Proof.
  revert c. induction sched as [|it sched IH]; intros c Hrow; [done|].
  apply IH. unfold sched_step.
  destruct (threads c !! it.1) as [[a|e|s k]|]; try done.
  simpl. by apply perform_holds_row.
Qed.

(** X13: Rows are for keeps: whatever coroutine of the service runs, alone or
    several interleaved in any way, with whatever delays and failures, a
    row that is in the table stays in the table with the same query
    text, the same creation time and the same expiry, and its hit count
    never goes down. *)
Theorem rows_are_kept {A : Type} who (p : prog A) sc sched
  (ts : list (prog A)) w h r :
  table (wstore w) !! h = Some r →
  holds_row h r (world_of (run who p sc w)) ∧
  holds_row h r (cworld (run_sched sched {| cworld := w; threads := ts |})).
Proof.
  intros Hr.
  assert (holds_row h r w) as Hrow by (exists r; split; [done|apply later_row_refl]).
  split; [by apply run_holds_row|by apply sched_holds_row].
Qed.

Lemma get_absent_step who h ph s t w tbl0 :
  tbl0 !! h = None →
  get_waits h ph = Some s →
  table (wstore w) = tbl0 ∧ get_unserved ph →
  table (wstore (perform who s t w).2) = tbl0 ∧
  get_unserved (get_next ph (perform who s t w).1).
Proof.
  intros Hnone Hw (Htbl & HJ).
  destruct ph; simpl in Hw, HJ; simplify_eq; perform_cases t w;
    repeat split; try done;
    try (by unfold handled; destruct (is_Exception _)).
  unfold select_live. by rewrite Hnone.
Qed.

(** X14: A miss: reading a query that has no row returns no payload, writes
    nothing, and creates no row; unless something other than an
    [Exception] is raised it returns [None]. *)
Theorem unknown_query_reads_absent who query sc w :
  table (wstore w) !! query_hash_of query = None →
  let res := run who (get_cached_response query) sc w in
  table (wstore (world_of res)) = table (wstore w) ∧
  (∀ data, outcome_of res ≠ Returned (Some data)) ∧
  (Forall benign sc → outcome_of res = Returned None).
Proof.
  intros Hnone res.
  pose proof (machine_run (get_at query) get_next
    (get_waits (query_hash_of query))
    GDone (get_at_awaited query) (get_at_exact query) (get_at_stopped query)
    who (λ _, True)
    (λ ph w0, table (wstore w0) = table (wstore w) ∧ get_unserved ph)) as Hrun.
  specialize (Hrun I
    (λ ph s t w0 _ Hw HJ, get_absent_step who _ ph s t w0 _ Hnone Hw HJ)
    GCheck sc w).
  destruct Hrun as (Htbl & Hun).
  { by apply Forall_true. }
  { done. }
  cbn [get_at] in Htbl, Hun. fold res in Htbl, Hun.
  assert (∀ data, outcome_of res ≠ Returned (Some data)) as Hno.
  { intros data Hd. by rewrite Hd in Hun. }
  repeat split; [done|done|].
  intros Hsc. destruct (get_never_raises who query sc w Hsc) as [[data|] Hres].
  - by destruct (Hno data).
  - done.
Qed.

Lemma get_expired_again who query sc w r :
  table (wstore w) !! query_hash_of query = Some r →
  expires_at r ≤ clock w →
  ∀ data, outcome_of (run who (get_cached_response query) sc w) ≠
          Returned (Some data).
Proof.
  intros Hr Hexp data Hd.
  pose proof (machine_run (get_at query) get_next
    (get_waits (query_hash_of query))
    GDone (get_at_awaited query) (get_at_exact query) (get_at_stopped query)
    who (λ _, True)
    (λ ph w0, table (wstore w0) = table (wstore w) ∧ clock w ≤ clock w0 ∧
              get_unserved ph)) as Hrun.
  specialize (Hrun I
    (λ ph s t w0 _ Hw HJ,
       get_expired_step who _ r (clock w) _ ph s t w0 Hr Hexp Hw HJ)
    GCheck sc w).
  destruct Hrun as (_ & _ & Hun).
  { by apply Forall_true. }
  { split; [done|]. split; [lia|done]. }
  cbn [get_at] in Hun. by rewrite Hd in Hun.
Qed.

(** X15: Expired is for good: once the row of a query has expired, no read of
    that query returns a payload any more, whatever the service has run
    in between, writes of that very query included. *)
Theorem expired_query_is_never_served {A : Type} who (between : prog A)
  query sc sc' w r :
  table (wstore w) !! query_hash_of query = Some r →
  expires_at r ≤ clock w →
  ∀ data,
    outcome_of (run who (get_cached_response query) sc'
                  (world_of (run who between sc w))) ≠ Returned (Some data).
Proof.
  intros Hr Hexp.
  assert (holds_row (query_hash_of query) r w) as Hrow
    by (exists r; split; [done|apply later_row_refl]).
  apply (run_holds_row who between sc) in Hrow
    as (r' & Hr' & _ & _ & Hsame & _).
  apply (get_expired_again who query sc' _ r' Hr').
  pose proof (run_clock who between sc w). lia.
Qed.

Lemma get_frame_step who h h' o ph s t w :
  h' ≠ h → get_waits h ph = Some s →
  table (wstore w) !! h' = o →
  table (wstore (perform who s t w).2) !! h' = o.
Proof.
  intros Hne Hw Ho.
  destruct ph; simpl in Hw; simplify_eq; perform_cases t w; try done.
  by rewrite lookup_alter_ne.
Qed.

Lemma put_frame_step who h h' q data o ph s t w :
  h' ≠ h → put_waits h q data ph = Some s →
  table (wstore w) !! h' = o →
  table (wstore (perform who s t w).2) !! h' = o.
Proof.
  intros Hne Hw Ho.
  destruct ph; simpl in Hw; simplify_eq; perform_cases t w; try done.
  unfold upsert. destruct (table (wstore w) !! h); by rewrite lookup_insert_ne.
Qed.

(** X16: Each call keeps to its own key: a read or a write of one query
    leaves the row of every other key exactly as it was. *)
Theorem other_keys_untouched who query data sc w h' :
  h' ≠ query_hash_of query →
  table (wstore (world_of (run who (get_cached_response query) sc w))) !! h' =
    table (wstore w) !! h' ∧
  table (wstore (world_of (run who (cache_response query data) sc w))) !! h' =
    table (wstore w) !! h'.
Proof.
  intros Hne. split.
  - exact (machine_run (get_at query) get_next
      (get_waits (query_hash_of query))
      GDone (get_at_awaited query) (get_at_exact query) (get_at_stopped query)
      who (λ _, True)
      (λ _ w0, table (wstore w0) !! h' = table (wstore w) !! h') I
      (λ ph s t w0 _ Hw HJ, get_frame_step who _ h' _ ph s t w0 Hne Hw HJ)
      GCheck sc w (Forall_true _ _ (λ _, I)) eq_refl).
  - exact (machine_run (put_at query data) put_next
      (put_waits (query_hash_of query) query data)
      PDone (put_at_awaited query data) (put_at_exact query data)
      (put_at_stopped query data)
      who (λ _, True)
      (λ _ w0, table (wstore w0) !! h' = table (wstore w) !! h') I
      (λ ph s t w0 _ Hw HJ, put_frame_step who _ h' _ _ _ ph s t w0 Hne Hw HJ)
      PCheck sc w (Forall_true _ _ (λ _, I)) eq_refl).
Qed.

Lemma same_key_same_read q1 q2 :
  str_lower q1 = str_lower q2 →
  get_cached_response q2 = get_cached_response q1.
Proof.
  intros Hl. unfold get_cached_response, get_cached_response_body,
    query_hash_of. by rewrite Hl.
Qed.

(** X17: Keys ignore case: with nothing failing, what is written under a
    query is returned by a read under any query with the same lower-case
    form, and the round trip has added two to the hit count, provided the
    row the write left has not expired when the read is over. *)
Theorem written_is_read_ignoring_case who written data read sc w :
  let h := query_hash_of written in
  let res := run who (put_then_get_as written data read) sc w in
  str_lower written = str_lower read →
  Forall smooth sc →
  (∀ r, table (wstore (world_of res)) !! h = Some r →
        clock (world_of res) < expires_at r) →
  outcome_of res = Returned (true, Some data) ∧
  hits h (world_of res) = hits h w + 2.
Proof.
  intros h res Hcase Hsc Hlive. subst res. unfold put_then_get_as in *.
  rewrite (same_key_same_read written read Hcase) in *.
  by apply (round_trip_of_live_row who written data sc w).
Qed.

Ltac holds_cases t w :=
  perform_cases t w;
  repeat match goal with
         | H : _ ∧ _ |- _ => destruct H
         | H : pool (wstore w) = _ |- _ => rewrite H in *; clear H
         end;
  simplify_eq/=; try done;
  try (by unfold handled; destruct (is_Exception _));
  try (by match goal with |- context [default _ ?p] => destruct p end);
  try (by split; apply eq_None_not_Some).

Lemma get_holds_step who h p0 ph s t w :
  get_waits h ph = Some s → get_holds p0 ph w →
  get_holds p0 (get_next ph (perform who s t w).1) (perform who s t w).2.
Proof.
  intros Hw HJ. unfold get_holds in *.
  destruct ph; simpl in Hw, HJ; simplify_eq; holds_cases t w.
  by destruct (select_live _ _ _).
Qed.

Lemma put_holds_step who h q data p0 ph s t w :
  put_waits h q data ph = Some s → put_holds p0 ph w →
  put_holds p0 (put_next ph (perform who s t w).1) (perform who s t w).2.
Proof.
  intros Hw HJ. unfold put_holds in *.
  destruct ph; simpl in Hw, HJ; simplify_eq; holds_cases t w.
Qed.

(** X19: Connections come back: a read that returns a payload and a write
    that reports success have released the connection they acquired, so
    as many connections are handed out after the call as before it (none
    when the call itself created the pool). *)
Theorem served_call_returns_connection who query data sc w :
  let got := run who (get_cached_response query) sc w in
  let put := run who (cache_response query data) sc w in
  (if outcome_of got is Returned (Some _)
   then pool (wstore (world_of got)) = Some (handed_out w) else True) ∧
  (if outcome_of put is Returned true
   then pool (wstore (world_of put)) = Some (handed_out w) else True).
Proof.
  intros got put. split.
  - pose proof (machine_run (get_at query) get_next
      (get_waits (query_hash_of query))
      GDone (get_at_awaited query) (get_at_exact query) (get_at_stopped query)
      who (λ _, True) (get_holds (pool (wstore w))) I
      (λ ph s t w0 _ Hw HJ, get_holds_step who _ _ ph s t w0 Hw HJ)
      GCheck sc w (Forall_true _ _ (λ _, I)) eq_refl) as Hrun.
    cbn [get_at] in Hrun. fold got in Hrun.
    by destruct (outcome_of got) as [[d|]|].
  - pose proof (machine_run (put_at query data) put_next
      (put_waits (query_hash_of query) query data)
      PDone (put_at_awaited query data) (put_at_exact query data)
      (put_at_stopped query data)
      who (λ _, True) (put_holds (pool (wstore w))) I
      (λ ph s t w0 _ Hw HJ, put_holds_step who _ _ _ _ ph s t w0 Hw HJ)
      PCheck sc w (Forall_true _ _ (λ _, I)) eq_refl) as Hrun.
    cbn [put_at] in Hrun. fold put in Hrun.
    by destruct (outcome_of put) as [[]|].
Qed.

Lemma run_awaiting {A : Type} who (p : prog A) s sc w :
  awaited p = Some s →
  run who p sc w =
    run who (feed p (perform who s (hd calm sc) w).1)
      (if is_sync s then sc else tail sc) (perform who s (hd calm sc) w).2.
Proof. destruct p; intros; simplify_eq/=; done. Qed.

Lemma run_get_step who q ph s sc w :
  get_waits (query_hash_of q) ph = Some s →
  run who (get_at q ph) sc w =
    run who (get_at q (get_next ph (perform who s (hd calm sc) w).1))
      (if is_sync s then sc else tail sc) (perform who s (hd calm sc) w).2.
Proof.
  intros Hw. rewrite <-get_at_exact. apply run_awaiting.
  by rewrite get_at_awaited.
Qed.

Lemma run_put_step who q data ph s sc w :
  put_waits (query_hash_of q) q data ph = Some s →
  run who (put_at q data ph) sc w =
    run who (put_at q data (put_next ph (perform who s (hd calm sc) w).1))
      (if is_sync s then sc else tail sc) (perform who s (hd calm sc) w).2.
Proof.
  intros Hw. rewrite <-put_at_exact. apply run_awaiting.
  by rewrite put_at_awaited.
Qed.

Lemma store_eta (st : store) (n : nat) :
  pool st = Some n → {| table := table st; pool := Some n |} = st.
Proof. destruct st. simpl. by intros ->. Qed.

Lemma get_run_failed_select who query (n : nat) ta ts tr sc e w :
  pool (wstore w) = Some n →
  fault ta = None → fault ts = Some e → fault tr = None →
  is_Exception e = true →
  ∃ c1 c2 c3,
    run who (get_cached_response query) (ta :: ts :: tr :: sc) w =
      (Returned None, sc,
       {| wstore := wstore w; clock := c3;
          trace := trace w ++
            [(who, PoolCheck, clock w); (who, Acquire, c1);
             (who, SelectLive (query_hash_of query), c2);
             (who, Release, c3)] |}).
Proof.
  intros Hpool Hta Hts Htr He.
  change (get_cached_response query) with (get_at query GCheck).
  rewrite (run_get_step who query GCheck PoolCheck) by done.
  unfold perform. cbn [is_sync exec fst snd]. rewrite Hpool.
  rewrite bool_decide_eq_true_2 by done. cbn [get_next fst snd].
  rewrite (run_get_step who query GAcquire Acquire) by done.
  unfold perform. cbn [is_sync hd tail wstore clock trace].
  rewrite Hta. cbn [exec fst snd pool table]. rewrite Hpool.
  cbn [fst snd get_next].
  rewrite (run_get_step who query GSelect (SelectLive (query_hash_of query)))
    by done.
  unfold perform. cbn [is_sync hd tail wstore clock trace].
  rewrite Hts. cbn [fst snd get_next].
  rewrite (run_get_step who query (GReleaseFailed e) Release) by done.
  unfold perform. cbn [is_sync hd tail wstore clock trace].
  rewrite Htr. cbn [exec fst snd pool table get_next Nat.pred].
  unfold handled. rewrite He. cbn [get_at finished run].
  rewrite (store_eta _ _ Hpool), <-!app_assoc. simpl. by eexists _, _, _.
Qed.

Lemma put_run_failed_upsert who query data (n : nat) ta ts tr sc e w :
  pool (wstore w) = Some n →
  fault ta = None → fault ts = Some e → fault tr = None →
  is_Exception e = true →
  ∃ c1 c2 c3,
    run who (cache_response query data) (ta :: ts :: tr :: sc) w =
      (Returned false, sc,
       {| wstore := wstore w; clock := c3;
          trace := trace w ++
            [(who, PoolCheck, clock w); (who, Acquire, c1);
             (who, Upsert (query_hash_of query) query data, c2);
             (who, Release, c3)] |}).
Proof.
  intros Hpool Hta Hts Htr He.
  change (cache_response query data) with (put_at query data PCheck).
  rewrite (run_put_step who query data PCheck PoolCheck) by done.
  unfold perform. cbn [is_sync exec fst snd]. rewrite Hpool.
  rewrite bool_decide_eq_true_2 by done. cbn [put_next fst snd].
  rewrite (run_put_step who query data PAcquire Acquire) by done.
  unfold perform. cbn [is_sync hd tail wstore clock trace].
  rewrite Hta. cbn [exec fst snd pool table]. rewrite Hpool.
  cbn [fst snd put_next].
  rewrite (run_put_step who query data PUpsert
             (Upsert (query_hash_of query) query data)) by done.
  unfold perform. cbn [is_sync hd tail wstore clock trace].
  rewrite Hts. cbn [fst snd put_next].
  rewrite (run_put_step who query data (PReleaseFailed e) Release) by done.
  unfold perform. cbn [is_sync hd tail wstore clock trace].
  rewrite Htr. cbn [exec fst snd pool table put_next Nat.pred].
  unfold handled. rewrite He. cbn [put_at finished run].
  rewrite (store_eta _ _ Hpool), <-!app_assoc. simpl. by eexists _, _, _.
Qed.

(** X20: A failing statement does not leak the connection: with a pool in
    place, when the connection is acquired and then the statement (the
    SELECT of a read, the upsert of a write) raises an [Exception], the
    connection is released all the same, the call returns [None],
    respectively [False], and the store is as it was. *)
Theorem failed_statement_releases who query data (n : nat) ta ts tr sc e w :
  let h := query_hash_of query in
  let script := ta :: ts :: tr :: sc in
  let got := run who (get_cached_response query) script w in
  let put := run who (cache_response query data) script w in
  pool (wstore w) = Some n →
  fault ta = None → fault ts = Some e → fault tr = None →
  is_Exception e = true →
  (outcome_of got = Returned None ∧
   wstore (world_of got) = wstore w ∧
   ∃ new, trace (world_of got) = trace w ++ new ∧
          stmts_of new = [PoolCheck; Acquire; SelectLive h; Release]) ∧
  (outcome_of put = Returned false ∧
   wstore (world_of put) = wstore w ∧
   ∃ new, trace (world_of put) = trace w ++ new ∧
          stmts_of new = [PoolCheck; Acquire; Upsert h query data; Release]).
Proof.
  intros h script got put Hpool Hta Hts Htr He. split.
  - destruct (get_run_failed_select who query n ta ts tr sc e w
                Hpool Hta Hts Htr He) as (c1 & c2 & c3 & Hrun).
    subst got script. rewrite Hrun. repeat split. by eexists.
  - destruct (put_run_failed_upsert who query data n ta ts tr sc e w
                Hpool Hta Hts Htr He) as (c1 & c2 & c3 & Hrun).
    subst put script. rewrite Hrun. repeat split. by eexists.
Qed.

Lemma stmts_of_snoc tr who s now :
  stmts_of (tr ++ [(who, s, now)]) = stmts_of tr ++ [s].
Proof. unfold stmts_of. by rewrite !fmap_app. Qed.

Lemma get_reuses_step who h ph s t w new :
  get_waits h ph = Some s → get_reuses ph w new →
  get_reuses (get_next ph (perform who s t w).1) (perform who s t w).2
    (new ++ [s]).
Proof.
  intros Hw (Hpool & Hph & Hnew). unfold get_reuses.
  destruct Hpool as [n Hn].
  assert (s ≠ CreatePool) as Hs by (destruct ph; by simplify_eq/=).
  assert (CreatePool ∉ new ++ [s]) as Hnew'.
  { rewrite elem_of_app, list_elem_of_singleton. intros [?|?]; by simplify_eq. }
  destruct ph; simpl in Hw; simplify_eq; unfold perform; cbn [is_sync];
    try (destruct (fault t) as [e1|] eqn:Hf); cbn; rewrite ?Hn; cbn;
    try (by repeat split);
    try (by rewrite bool_decide_eq_true_2 by done; repeat split).
  by destruct (select_live _ _ _); repeat split.
Qed.

Lemma put_reuses_step who h q data ph s t w new :
  put_waits h q data ph = Some s → put_reuses ph w new →
  put_reuses (put_next ph (perform who s t w).1) (perform who s t w).2
    (new ++ [s]).
Proof.
  intros Hw (Hpool & Hph & Hnew). unfold put_reuses.
  destruct Hpool as [n Hn].
  assert (s ≠ CreatePool) as Hs by (destruct ph; by simplify_eq/=).
  assert (CreatePool ∉ new ++ [s]) as Hnew'.
  { rewrite elem_of_app, list_elem_of_singleton. intros [?|?]; by simplify_eq. }
  destruct ph; simpl in Hw; simplify_eq; unfold perform; cbn [is_sync];
    try (destruct (fault t) as [e1|] eqn:Hf); cbn; rewrite ?Hn; cbn;
    try (by repeat split);
    try (by rewrite bool_decide_eq_true_2 by done; repeat split).
Qed.

Lemma get_pooled_step who h ph s t w :
  smooth t → get_waits h ph = Some s → get_pooled ph w →
  get_pooled (get_next ph (perform who s t w).1) (perform who s t w).2.
Proof.
  unfold smooth. intros Ht Hw HJ.
  destruct ph; simpl in Hw, HJ; simplify_eq; unfold perform; cbn [is_sync];
    rewrite ?Ht; cbn; try done.
  - by case_bool_decide.
  - destruct HJ as [n Hn]. rewrite Hn. by cbn.
  - by destruct (select_live _ _ _).
  - destruct HJ as [n Hn]. rewrite Hn. by cbn.
  - destruct HJ as [n Hn]. rewrite Hn. by cbn.
Qed.

Lemma put_pooled_step who h q data ph s t w :
  smooth t → put_waits h q data ph = Some s → put_pooled ph w →
  put_pooled (put_next ph (perform who s t w).1) (perform who s t w).2.
Proof.
  unfold smooth. intros Ht Hw HJ.
  destruct ph; simpl in Hw, HJ; simplify_eq; unfold perform; cbn [is_sync];
    rewrite ?Ht; cbn; try done.
  - by case_bool_decide.
  - destruct HJ as [n Hn]. rewrite Hn. by cbn.
  - destruct HJ as [n Hn]. rewrite Hn. by cbn.
Qed.

Lemma get_reuses_pool who query sc w :
  is_Some (pool (wstore w)) →
  ∃ new, trace (world_of (run who (get_cached_response query) sc w)) =
           trace w ++ new ∧
         (CreatePool ∉ stmts_of new) ∧
         is_Some (pool (wstore (world_of
           (run who (get_cached_response query) sc w)))).
Proof.
  intros Hpool.
  pose (J := λ (ph : get_phase) (w0 : world),
          ∃ new, trace w0 = trace w ++ new ∧ get_reuses ph w0 (stmts_of new)).
  assert (∀ ph s t w0, True → get_waits (query_hash_of query) ph = Some s →
            J ph w0 →
            J (get_next ph (perform who s t w0).1) (perform who s t w0).2)
    as Hstep.
  { intros ph s t w0 _ Hw (new & Htr & HJ).
    destruct (perform_trace who s t w0) as (now & Hnow).
    exists (new ++ [(who, s, now)]). split.
    - by rewrite Hnow, Htr, <-app_assoc.
    - rewrite stmts_of_snoc. by apply (get_reuses_step who (query_hash_of query)). }
  assert (J GCheck w) as Hinit.
  { exists []. rewrite app_nil_r. repeat split; [done..|]. apply not_elem_of_nil. }
  destruct (machine_run (get_at query) get_next
    (get_waits (query_hash_of query))
    GDone (get_at_awaited query) (get_at_exact query) (get_at_stopped query)
    who (λ _, True) J I Hstep GCheck sc w (Forall_true _ _ (λ _, I)) Hinit)
    as (new & Htr & Hp & _ & Hnew).
  by exists new.
Qed.

Lemma put_reuses_pool who query data sc w :
  is_Some (pool (wstore w)) →
  ∃ new, trace (world_of (run who (cache_response query data) sc w)) =
           trace w ++ new ∧
         (CreatePool ∉ stmts_of new) ∧
         is_Some (pool (wstore (world_of
           (run who (cache_response query data) sc w)))).
Proof.
  intros Hpool.
  pose (J := λ (ph : put_phase) (w0 : world),
          ∃ new, trace w0 = trace w ++ new ∧ put_reuses ph w0 (stmts_of new)).
  assert (∀ ph s t w0, True →
            put_waits (query_hash_of query) query data ph = Some s →
            J ph w0 →
            J (put_next ph (perform who s t w0).1) (perform who s t w0).2)
    as Hstep.
  { intros ph s t w0 _ Hw (new & Htr & HJ).
    destruct (perform_trace who s t w0) as (now & Hnow).
    exists (new ++ [(who, s, now)]). split.
    - by rewrite Hnow, Htr, <-app_assoc.
    - rewrite stmts_of_snoc.
      by apply (put_reuses_step who (query_hash_of query) query data). }
  assert (J PCheck w) as Hinit.
  { exists []. rewrite app_nil_r. repeat split; [done..|]. apply not_elem_of_nil. }
  destruct (machine_run (put_at query data) put_next
    (put_waits (query_hash_of query) query data)
    PDone (put_at_awaited query data) (put_at_exact query data)
    (put_at_stopped query data)
    who (λ _, True) J I Hstep PCheck sc w (Forall_true _ _ (λ _, I)) Hinit)
    as (new & Htr & Hp & _ & Hnew).
  by exists new.
Qed.

(** X21: The pool is created once: a call made with a pool in place issues no
    [create_pool] and leaves a pool in place, whatever fails; and a call
    made with no pool, when nothing fails, leaves one in place for the
    calls that follow. *)
Theorem pool_is_created_once who query data sc w :
  let got := run who (get_cached_response query) sc w in
  let put := run who (cache_response query data) sc w in
  (is_Some (pool (wstore w)) →
   (∃ new, trace (world_of got) = trace w ++ new ∧
           (CreatePool ∉ stmts_of new) ∧
           is_Some (pool (wstore (world_of got)))) ∧
   (∃ new, trace (world_of put) = trace w ++ new ∧
           (CreatePool ∉ stmts_of new) ∧
           is_Some (pool (wstore (world_of put))))) ∧
  (Forall smooth sc →
   is_Some (pool (wstore (world_of got))) ∧
   is_Some (pool (wstore (world_of put)))).
Proof.
  intros got put. split.
  - intros Hpool. split;
      [by apply get_reuses_pool|by apply put_reuses_pool].
  - intros Hsc. split.
    + pose proof (machine_run (get_at query) get_next
        (get_waits (query_hash_of query))
        GDone (get_at_awaited query) (get_at_exact query) (get_at_stopped query)
        who smooth get_pooled eq_refl
        (λ ph s t w0, get_pooled_step who _ ph s t w0)
        GCheck sc w Hsc I) as Hrun.
      cbn [get_at] in Hrun. fold got in Hrun.
      by destruct (outcome_of got) as [[]|].
    + pose proof (machine_run (put_at query data) put_next
        (put_waits (query_hash_of query) query data)
        PDone (put_at_awaited query data) (put_at_exact query data)
        (put_at_stopped query data)
        who smooth put_pooled eq_refl
        (λ ph s t w0, put_pooled_step who _ _ _ ph s t w0)
        PCheck sc w Hsc I) as Hrun.
      cbn [put_at] in Hrun. fold put in Hrun.
      by destruct (outcome_of put) as [[]|].
Qed.

End rows.

Section lifecycle_evaluated.
Local Existing Instance toy_runtime.
Local Existing Instance hour.

Lemma rows_are_kept_witness :
  holds_row "sha256:q" sample_row
    (world_of (run 0 (put_then_get "q" "new") [] expired_world)) ∧
  holds_row "sha256:q" sample_row
    (cworld (run_sched [(0%nat, calm); (1%nat, calm); (0%nat, calm)]
       {| cworld := expired_world;
          threads := [put_then_get "q" "one"; put_then_get "q" "two"] |})).
Proof.
  apply (rows_are_kept 0%nat (put_then_get "q" "new") []
           [(0%nat, calm); (1%nat, calm); (0%nat, calm)]
           [put_then_get "q" "one"; put_then_get "q" "two"]).
  by vm_compute.
Defined.

Lemma unknown_query_reads_absent_witness :
  table (wstore empty_world) !! query_hash_of "q" = None ∧
  table (wstore (world_of (run 0 (get_cached_response "q") [] empty_world))) =
    table (wstore empty_world).
Proof.
  assert (table (wstore empty_world) !! query_hash_of "q" = None) as Hnone
    by (by vm_compute).
  split; [exact Hnone|].
  apply (unknown_query_reads_absent 0%nat "q" [] empty_world Hnone).
Defined.

Lemma expired_query_is_never_served_witness :
  table (wstore expired_world) !! query_hash_of "q" = Some sample_row ∧
  expires_at sample_row ≤ clock expired_world ∧
  ∀ data,
    outcome_of (run 0 (get_cached_response "q") []
      (world_of (run 0 (cache_response "q" "new") [] expired_world))) ≠
    Returned (Some data).
Proof.
  assert (table (wstore expired_world) !! query_hash_of "q" = Some sample_row)
    as Hrow by (by vm_compute).
  assert (expires_at sample_row ≤ clock expired_world) as Hexp
    by (by vm_compute).
  split; [exact Hrow|]. split; [exact Hexp|].
  exact (expired_query_is_never_served 0%nat (cache_response "q" "new") "q"
           [] [] expired_world sample_row Hrow Hexp).
Defined.

Lemma other_keys_untouched_witness :
  table (wstore (world_of
    (run 0 (get_cached_response "other") [] live_world))) !! "sha256:q" =
    table (wstore live_world) !! "sha256:q" ∧
  table (wstore (world_of
    (run 0 (cache_response "other" "new") [] live_world))) !! "sha256:q" =
    table (wstore live_world) !! "sha256:q".
Proof.
  apply (other_keys_untouched 0%nat "other" "new" [] live_world "sha256:q").
  by vm_compute.
Defined.

Lemma written_is_read_ignoring_case_witness :
  outcome_of (run 0 (put_then_get_as "q" "new" "q") [] empty_world) =
    Returned (true, Some "new") ∧
  hits (query_hash_of "q")
    (world_of (run 0 (put_then_get_as "q" "new" "q") [] empty_world)) =
    hits (query_hash_of "q") empty_world + 2.
Proof.
  apply (written_is_read_ignoring_case 0%nat "q" "new" "q" [] empty_world).
  - done.
  - constructor.
  - intros r. vm_compute. intros [= <-]. done.
Defined.

Lemma overwrite_keeps_expiry_witness :
  ∃ r', table (wstore (world_of
          (run 0 (cache_response "q" "new") [] live_world)))
          !! query_hash_of "q" = Some r' ∧
        response_data r' = "new" ∧
        hit_count r' = hit_count sample_row + 1 ∧
        created_at r' = created_at sample_row ∧
        expires_at r' = expires_at sample_row.
Proof.
  apply (overwrite_keeps_expiry 0%nat "q" "new" [] live_world sample_row);
    by vm_compute.
Defined.

Lemma failed_statement_releases_witness :
  outcome_of (run 0 (get_cached_response "q")
    [calm; {| elapse := 1; fault := Some TimeoutError |}; calm] live_world) =
    Returned None ∧
  wstore (world_of (run 0 (get_cached_response "q")
    [calm; {| elapse := 1; fault := Some TimeoutError |}; calm] live_world)) =
    wstore live_world.
Proof.
  destruct (failed_statement_releases 0%nat "q" "new" 0%nat calm
    {| elapse := 1; fault := Some TimeoutError |} calm [] TimeoutError
    live_world eq_refl eq_refl eq_refl eq_refl eq_refl)
    as ((Hout & Hst & _) & _).
  by split.
Defined.

Lemma pool_is_created_once_witness :
  is_Some (pool (wstore live_world)) ∧
  Forall smooth [calm] ∧
  is_Some (pool (wstore (world_of
    (run 0 (get_cached_response "q") [calm] live_world)))).
Proof.
  assert (Forall smooth [calm]) as Hsc by (by repeat constructor).
  assert (is_Some (pool (wstore live_world))) as Hpool by (by eexists).
  split; [exact Hpool|]. split; [exact Hsc|].
  destruct (pool_is_created_once 0%nat "q" "new" [calm] live_world)
    as [Hreuse Hfirst].
  destruct (Hreuse Hpool) as [(new & _ & _ & Hgot) _].
  exact Hgot.
Defined.

End lifecycle_evaluated.

End ResponseCacheLifecycleProofs.

(** ** The synchronous interface *)

Module SyncInterfaceProofs.
Import ResponseCache ResponseCacheProofs DatabaseWrapper DatabaseWrapperProofs.

Section sync_facts.
Context `{PyRuntime} `{TTLPolicy}.

(** When the bridge runs the coroutine, the caller gets what the run
    gives. *)
Lemma run_async_runs {A : Type} (self : wrapper) ctx (coro : prog A) sc w :
  is_running (loop self) ctx = true ∨
    (is_closed (loop self) ctx = false ∧ running_here ctx = None) →
  ∃ who, bridge_outcome (_run_async self ctx coro sc w) =
           of_outcome (outcome_of (run who coro sc w)).
Proof.
  intros Hruns. unfold _run_async.
  destruct (is_running (loop self) ctx) eqn:Hrunning;
    cbn [negb bridge_outcome].
  - exists worker. unfold asyncio_run. cbn [fst].
    by destruct (outcome_of (run worker coro sc w)).
  - destruct Hruns as [[=]|[Hopen Hnone]]. exists caller.
    unfold run_until_complete. by rewrite Hopen, Hrunning, Hnone.
Qed.

(** When the bridge refuses, nothing has run. *)
Lemma run_async_refuses {A : Type} (self : wrapper) ctx (coro : prog A) sc w :
  is_running (loop self) ctx = false →
  is_closed (loop self) ctx = true ∨ is_Some (running_here ctx) →
  (∃ msg, bridge_outcome (_run_async self ctx coro sc w) = RuntimeError msg) ∧
  bridge_world (_run_async self ctx coro sc w) = w.
Proof.
  intros Hidle Hrefused. unfold _run_async. rewrite Hidle.
  cbn [negb bridge_outcome bridge_world].
  unfold run_until_complete. rewrite Hidle.
  destruct (is_closed (loop self) ctx) eqn:Hclosed; cbn [fst snd].
  { split; [by eexists|done]. }
  destruct Hrefused as [Hc|[l Hl]]; [done|]. rewrite Hl. cbn [fst snd].
  split; [by eexists|done].
Qed.

(** X22: The sync calls raise only when the bridge refuses. The async
    methods absorb every [Exception] of the store, and so do the sync
    [get_cached_response] and [cache_response] whenever the bridge runs
    them: with the wrapper's loop running, or open with no loop running
    in the calling thread, they return a value. But with the wrapper's
    loop not running and another loop running in the calling thread, or
    the wrapper's loop closed, they raise [RuntimeError], which no
    [try] of the methods can catch, since the method is never started:
    no statement is issued and the store and the clock are as they
    were. *)
Theorem sync_calls_raise_only_when_refused (self : wrapper) ctx
  query data sc w :
  let g := DatabaseWrapper.get_cached_response self ctx query sc w in
  let p := DatabaseWrapper.cache_response self ctx query data sc w in
  (is_running (loop self) ctx = true ∨
     (is_closed (loop self) ctx = false ∧ running_here ctx = None) →
   Forall benign sc →
   (∃ r, bridge_outcome g = Result r) ∧
   (∃ b, bridge_outcome p = Result b)) ∧
  (is_running (loop self) ctx = false →
   is_closed (loop self) ctx = true ∨ is_Some (running_here ctx) →
   (∃ msg, bridge_outcome g = RuntimeError msg) ∧ bridge_world g = w ∧
   (∃ msg, bridge_outcome p = RuntimeError msg) ∧ bridge_world p = w).
Proof.
  intros g p. subst g p.
  unfold DatabaseWrapper.get_cached_response, DatabaseWrapper.cache_response.
  split.
  - intros Hruns Hsc. split.
    + destruct (run_async_runs self ctx
        (ResponseCache.get_cached_response query) sc w Hruns) as [who ->].
      destruct (get_never_raises who query sc w Hsc) as [r ->]. by exists r.
    + destruct (run_async_runs self ctx
        (ResponseCache.cache_response query data) sc w Hruns) as [who ->].
      destruct (put_never_raises who query data sc w Hsc) as [b ->].
      by exists b.
  - intros Hidle Hrefused.
    destruct (run_async_refuses self ctx
      (ResponseCache.get_cached_response query) sc w Hidle Hrefused)
      as [Hg Hgw].
    destruct (run_async_refuses self ctx
      (ResponseCache.cache_response query data) sc w Hidle Hrefused)
      as [Hp Hpw].
    done.
Qed.

End sync_facts.

Section sync_evaluated.
Local Existing Instance toy_runtime.
Local Existing Instance hour.

Lemma sync_calls_raise_only_when_refused_witness :
  Forall benign [calm; {| elapse := 1; fault := Some TimeoutError |}] ∧
  is_running (loop wrapper0) inside_own_loop = true ∧
  (∃ r, bridge_outcome (DatabaseWrapper.get_cached_response
          wrapper0 inside_own_loop "q"
          [calm; {| elapse := 1; fault := Some TimeoutError |}] live_world) =
        Result r) ∧
  is_running (loop wrapper0) inside_other_loop = false ∧
  ∃ msg, bridge_outcome (DatabaseWrapper.get_cached_response
           wrapper0 inside_other_loop "q"
           [calm; {| elapse := 1; fault := Some TimeoutError |}] live_world) =
         RuntimeError msg.
Proof.
  assert (Forall benign [calm; {| elapse := 1; fault := Some TimeoutError |}])
    as Hsc by (by repeat constructor).
  assert (is_running (loop wrapper0) inside_own_loop = true) as Hown
    by (by vm_compute).
  assert (is_running (loop wrapper0) inside_other_loop = false) as Hidle
    by (by vm_compute).
  split; [exact Hsc|]. split; [exact Hown|].
  destruct (sync_calls_raise_only_when_refused wrapper0 inside_own_loop
    "q" "new" [calm; {| elapse := 1; fault := Some TimeoutError |}] live_world)
    as (Hruns & _).
  destruct (sync_calls_raise_only_when_refused wrapper0 inside_other_loop
    "q" "new" [calm; {| elapse := 1; fault := Some TimeoutError |}] live_world)
    as (_ & Hrefused).
  split; [exact (proj1 (Hruns (or_introl Hown) Hsc))|].
  split; [exact Hidle|].
  exact (proj1 (Hrefused Hidle (or_intror (ex_intro _ 1%nat eq_refl)))).
Defined.

End sync_evaluated.

End SyncInterfaceProofs.

(** ** Roles and permissions *)

Module ModelsProofs.
Import Models.

(** X23: Roles and their strings: a role's value converts back to the role,
    and a string converts to a role only if it is that role's value, so
    any other string (another spelling, another case) is refused. *)
Theorem role_value_round_trip (r : UserRole) (s : string) :
  role_of_value (role_value r) = Some r ∧
  (if role_of_value s is Some r' then s = role_value r' else
     s ≠ "admin" ∧ s ≠ "student" ∧ s ≠ "teacher" ∧ s ≠ "parent").
Proof.
  split; [by destruct r|].
  unfold role_of_value.
  destruct (String.eqb s "admin") eqn:Ha; [by apply String.eqb_eq in Ha|].
  destruct (String.eqb s "student") eqn:Hs; [by apply String.eqb_eq in Hs|].
  destruct (String.eqb s "teacher") eqn:Ht; [by apply String.eqb_eq in Ht|].
  destruct (String.eqb s "parent") eqn:Hp; [by apply String.eqb_eq in Hp|].
  apply String.eqb_neq in Ha, Hs, Ht, Hp. done.
Qed.

(** X24: Who may do what: whoever may upload documents may view analytics;
    nobody may both upload documents and view student progress; the
    users who may view both analytics and student progress are the
    teachers; and a student has none of the three permissions. *)
Theorem permissions_by_role (u : User) :
  implb (can_upload_documents u) (can_view_analytics u) = true ∧
  can_upload_documents u && can_view_student_progress u = false ∧
  can_view_analytics u && can_view_student_progress u =
    bool_decide (role u = TEACHER) ∧
  bool_decide (role u = STUDENT) &&
    (can_upload_documents u || can_view_analytics u ||
     can_view_student_progress u) = false.
Proof.
  unfold can_upload_documents, can_view_analytics, can_view_student_progress.
  destruct (role u); by vm_compute.
Qed.

End ModelsProofs.

(** ** Users, activities and closing the pool *)

Module UserServiceProofs.
Import Models Activity UserService.

Section running_tasks.
Context `{Calendar}.

Lemma task_and_then {A B : Type} (p : task A) (f : A → task B) sc w :
  run (and_then p f) sc w =
  match run p sc w with
  | (inr a, sc', w') => run (f a) sc' w'
  | (inl e, sc', w') => (inl e, sc', w')
  end.
Proof.
  revert sc w. induction p as [a|e|s k IH]; intros sc w; cbn [and_then run].
  - done.
  - done.
  - apply IH.
Qed.

Lemma task_try_except {A : Type} (p : task A) handler sc w :
  run (try_except p handler) sc w =
  match run p sc w with
  | (inr a, sc', w') => (inr a, sc', w')
  | (inl e, sc', w') => run (handler e) sc' w'
  end.
Proof.
  revert sc w. induction p as [a|e|s k IH]; intros sc w; cbn [try_except run].
  - done.
  - done.
  - apply IH.
Qed.

Lemma task_try_finally {A : Type} (p : task A) fin sc w :
  run (try_finally p fin) sc w =
  match run p sc w with
  | (r, sc', w') =>
      match run fin sc' w' with
      | (inr _, sc'', w'') => (r, sc'', w'')
      | (inl e, sc'', w'') => (inl e, sc'', w'')
      end
  end.
Proof.
  revert sc w. induction p as [a|e|s k IH]; intros sc w;
    cbn [try_finally run].
  - rewrite task_and_then. by destruct (run fin sc w) as [[[e1|[]] sc'] w'].
  - rewrite task_and_then. by destruct (run fin sc w) as [[[e1|[]] sc'] w'].
  - apply IH.
Qed.

(** No request changes what the database answers. *)
Lemma perform_database s f w : database (perform s f w).2 = database w.
Proof. unfold perform. by destruct (if is_local s then None else f). Qed.

Lemma run_database {A : Type} (p : task A) sc w :
  database (run p sc w).2 = database w.
Proof.
  revert sc w. induction p as [a|e|s k IH]; intros sc w; cbn [run]; try done.
  by rewrite IH, perform_database.
Qed.

Lemma perform_issued s f w : issued (perform s f w).2 = issued w ++ [s].
Proof. unfold perform. by destruct (if is_local s then None else f). Qed.

(** The requests of a run are added at the end of the log. *)
Lemma run_issued {A : Type} (p : task A) sc w :
  ∃ new, issued (run p sc w).2 = issued w ++ new.
Proof.
  revert sc w. induction p as [a|e|s k IH]; intros sc w; cbn [run].
  - exists []. by rewrite app_nil_r.
  - exists []. by rewrite app_nil_r.
  - destruct (IH (perform s (hd None sc) w).1
                 (if is_local s then sc else tl sc)
                 (perform s (hd None sc) w).2) as [new Hnew].
    exists (s :: new). rewrite Hnew, perform_issued, <-app_assoc. done.
Qed.

Lemma perform_raises s f w e :
  benign f → (perform s f w).1 = inl e → is_Exception e = true.
Proof.
  unfold perform. intros Hf.
  destruct (if is_local s then None else f) as [e1|] eqn:Hl.
  - destruct (is_local s); [done|]. subst f. by intros [= <-].
  - destruct s, (pool w); cbn; intros [= <-]; done.
Qed.

Lemma benign_hd sc : Forall benign sc → benign (hd None sc).
Proof. by intros [|f sc' Hf Hsc']. Qed.

Lemma benign_tl sc : Forall benign sc → Forall benign (tl sc).
Proof. by intros [|f sc' Hf Hsc']. Qed.

Lemma run_tame {A : Type} (p : task A) sc w e :
  tame p → Forall benign sc → (run p sc w).1.1 = inl e →
  is_Exception e = true.
Proof.
  intros Hp. revert sc w. induction Hp as [a|e1 He1|s k Hk IH]; intros sc w Hsc.
  - done.
  - by intros [= <-].
  - cbn [run]. apply IH.
    + destruct (perform s (hd None sc) w).1 as [e2|r] eqn:Hr; [|done].
      eapply perform_raises; [|exact Hr]. by apply benign_hd.
    + destruct (is_local s); [done|by apply benign_tl].
Qed.

Lemma tame_and_then {A B : Type} (p : task A) (f : A → task B) :
  tame p → (∀ a, tame (f a)) → tame (and_then p f).
Proof.
  intros Hp Hf. induction Hp as [a|e He|s k Hk IH]; cbn [and_then].
  - apply Hf.
  - by constructor.
  - constructor. intros r Hr. by apply IH.
Qed.

Lemma tame_try_finally {A : Type} (p : task A) fin :
  tame p → tame fin → tame (try_finally p fin).
Proof.
  intros Hp Hfin. induction Hp as [a|e He|s k Hk IH]; cbn [try_finally].
  - apply tame_and_then; [done|]. intros _. constructor.
  - apply tame_and_then; [done|]. intros _. by constructor.
  - constructor. intros r Hr. by apply IH.
Qed.

Lemma tame_call s : tame (call s).
Proof.
  constructor. intros [e|r] Hr; cbn [evaluate]; by constructor.
Qed.

Lemma tame_execute s : tame (execute s).
Proof. apply tame_and_then; [apply tame_call|]. intros _. constructor. Qed.

Lemma tame_fetch s : tame (fetch s).
Proof. apply tame_and_then; [apply tame_call|]. intros r. constructor. Qed.

Lemma tame_fetchrow s : tame (fetchrow s).
Proof. apply tame_and_then; [apply tame_fetch|]. intros r. constructor. Qed.

Lemma tame_with_connection {A : Type} (body : task A) :
  tame body → tame (with_connection body).
Proof.
  intros Hbody. unfold with_connection, acquire_connection.
  apply tame_and_then.
  - apply tame_and_then.
    { apply tame_and_then; [apply tame_call|]. intros r. constructor. }
    intros ready. apply tame_and_then.
    { destruct ready; [constructor|apply tame_execute]. }
    intros _. apply tame_execute.
  - intros _. apply tame_try_finally; [done|apply tame_execute].
Qed.

Lemma user_of_row_raises row e :
  user_of_row row = inl e → is_Exception e = true.
Proof.
  unfold user_of_row. destruct (role_of_value (row_role row)); [|by intros [= <-]].
  destruct (row_created_at row); [done|by intros [= <-]].
Qed.

Lemma tame_user_of_row row : tame (evaluate (user_of_row row)).
Proof.
  destruct (user_of_row row) as [e|u] eqn:Hu; cbn [evaluate]; constructor.
  by eapply user_of_row_raises.
Qed.

Lemma tame_user_of_fetched row : tame (user_of_fetched row).
Proof.
  destruct row as [row|]; cbn [user_of_fetched]; [|constructor].
  apply tame_and_then; [apply tame_user_of_row|]. intros u. constructor.
Qed.

Lemma tame_append_students rows students : tame (append_students rows students).
Proof.
  revert students. induction rows as [|row rows IH]; intros students;
    cbn [append_students]; [constructor|].
  apply tame_and_then; [apply tame_user_of_row|]. intros u. apply IH.
Qed.

Lemma tame_values_of_activity activity :
  tame (evaluate (values_of_activity activity)).
Proof.
  unfold values_of_activity.
  destruct (fromisoformat (timestamp activity)); cbn [evaluate]; by constructor.
Qed.

(** [try: p except Exception: return default] returns when [p] is tame
    and the failures are instances of [Exception]. *)
Lemma guarded_returns {A : Type} (p : task A) (default : A) sc w :
  tame p → Forall benign sc →
  ∃ a, (run (try_except p (except_Exception default)) sc w).1.1 = inr a.
Proof.
  intros Hp Hsc. rewrite task_try_except.
  destruct (run p sc w) as [[[e|a] sc'] w'] eqn:Hrun; [|by exists a].
  assert (is_Exception e = true) as He.
  { apply (run_tame p sc w e Hp Hsc). by rewrite Hrun. }
  unfold except_Exception. rewrite He. by exists default.
Qed.

(** X25: The guarded methods raise nothing: with failures that are instances
    of [Exception], whatever the database answers, whatever shape its
    rows have and whatever the activity holds, each of the four returns
    a value. *)
Theorem guarded_methods_return username user_id parent_id activity sc w :
  Forall benign sc →
  (∃ u, (run (get_user_by_username username) sc w).1.1 = inr u) ∧
  (∃ u, (run (get_user_by_id user_id) sc w).1.1 = inr u) ∧
  (∃ us, (run (get_students_for_parent parent_id) sc w).1.1 = inr us) ∧
  (∃ ok, (run (log_activity activity) sc w).1.1 = inr ok).
Proof.
  intros Hsc. repeat split; apply guarded_returns; try done;
    apply tame_with_connection.
  - apply tame_and_then; [apply tame_fetchrow|]. apply tame_user_of_fetched.
  - apply tame_and_then; [apply tame_fetchrow|]. apply tame_user_of_fetched.
  - apply tame_and_then; [apply tame_fetch|]. intros rows.
    apply tame_append_students.
  - apply tame_and_then; [apply tame_values_of_activity|]. intros v.
    apply tame_and_then; [apply tame_execute|]. intros _. constructor.
Qed.

Lemma run_unfailing {A : Type} (p : task A) sc w :
  Forall (λ f, f = None) sc →
  (run p sc w).1.1 = (run p [] w).1.1 ∧ (run p sc w).2 = (run p [] w).2.
Proof.
  revert sc w. induction p as [a|e|s k IH]; intros sc w Hsc; cbn [run]; try done.
  assert (hd None sc = None) as -> by (by destruct Hsc).
  assert (Forall (λ f, f = None) (tl sc)) as Htl by (by destruct Hsc).
  destruct (is_local s); cbn [hd tl]; by apply IH.
Qed.

(** The log with one more request. *)
Lemma run_call s sc w :
  run (call s) sc w =
    ((perform s (hd None sc) w).1, (if is_local s then sc else tl sc),
     (perform s (hd None sc) w).2).
Proof.
  unfold call. cbn [run].
  by destruct (perform s (hd None sc) w).1.
Qed.

Lemma run_execute s sc w :
  run (execute s) sc w =
    (match (perform s (hd None sc) w).1 with
     | inl e => inl e
     | inr _ => inr tt
     end, (if is_local s then sc else tl sc), (perform s (hd None sc) w).2).
Proof.
  unfold execute. rewrite task_and_then, run_call.
  by destruct (perform s (hd None sc) w).1.
Qed.

(** What a query that is answered returns: the rows the database holds
    for it. *)
Lemma run_fetch s sc w rows :
  (∀ rows p, effect s rows p = (inr (ARows rows), p)) →
  (run (fetch s) sc w).1.1 = inr rows → rows = database w s.
Proof.
  intros Hs. unfold fetch. rewrite task_and_then, run_call.
  unfold perform. destruct (if is_local s then None else hd None sc); [done|].
  rewrite Hs. cbn. by intros [= <-].
Qed.

(** Entering [get_connection] issues pool requests only. *)
Lemma acquire_connection_issues sc w :
  ∃ new, issued (run acquire_connection sc w).2 = issued w ++ new ∧
         Forall (λ s, s ∈ [CheckPool; NewPool; AcquireConn]) new.
Proof.
  destruct w as [[n|] db log]; destruct sc as [|[e|] [|[e'|] sc]]; cbn;
    (eexists; split;
     [rewrite <-?app_assoc; cbn [app]; reflexivity
     |repeat constructor;
      rewrite ?elem_of_cons; auto]).
Qed.

(** A body that returned under [get_connection] was run with a
    connection, on the same database. *)
Lemma with_connection_returned {A : Type} (body : task A) sc w a :
  (run (with_connection body) sc w).1.1 = inr a →
  ∃ sc1 w1 pre,
    database w1 = database w ∧
    issued w1 = issued w ++ pre ∧
    Forall (λ s, s ∈ [CheckPool; NewPool; AcquireConn]) pre ∧
    (run body sc1 w1).1.1 = inr a ∧
    issued (run (with_connection body) sc w).2 =
      issued (run body sc1 w1).2 ++ [ReleaseConn].
Proof.
  unfold with_connection. rewrite task_and_then.
  destruct (acquire_connection_issues sc w) as (pre & Hpre & Hin).
  pose proof (run_database acquire_connection sc w) as Hdb.
  destruct (run acquire_connection sc w) as [[[e|[]] sc1] w1]; [done|].
  rewrite task_try_finally.
  destruct (run body sc1 w1) as [[r sc2] w2] eqn:Hbody.
  rewrite run_execute.
  pose proof (perform_issued ReleaseConn (hd None sc2) w2) as Hrel.
  destruct (perform ReleaseConn (hd None sc2) w2) as [[e|x] w3]; cbn; [done|].
  intros ->. exists sc1, w1, pre. rewrite Hbody. done.
Qed.

(** What leaving and entering [get_connection] issue around a body. *)
Lemma with_connection_issues {A : Type} (body : task A) sc w :
  ∃ pre sc1 w1 post,
    issued w1 = issued w ++ pre ∧
    Forall (λ s, s ∈ [CheckPool; NewPool; AcquireConn]) pre ∧
    Forall (λ s, s = ReleaseConn) post ∧
    (issued (run (with_connection body) sc w).2 = issued w1 ∨
     issued (run (with_connection body) sc w).2 =
       issued (run body sc1 w1).2 ++ post).
Proof.
  unfold with_connection. rewrite task_and_then.
  destruct (acquire_connection_issues sc w) as (pre & Hpre & Hin).
  destruct (run acquire_connection sc w) as [[[e|[]] sc1] w1].
  - exists pre, sc1, w1, []. repeat split; try done. by left.
  - exists pre, sc1, w1, [ReleaseConn]. repeat split; try done.
    { by repeat constructor. }
    right. rewrite task_try_finally.
    destruct (run body sc1 w1) as [[r sc2] w2] eqn:Hbody.
    rewrite run_execute.
    pose proof (perform_issued ReleaseConn (hd None sc2) w2) as Hrel.
    by destruct (perform ReleaseConn (hd None sc2) w2) as [[e|x] w3].
Qed.

Lemma user_of_row_spec row :
  match role_of_value (row_role row), row_created_at row with
  | Some r, Some created =>
      user_of_row row = inr
        {| id := row_id row;
           username := row_username row;
           name := row_name row;
           email := row_email row;
           password_hash := row_password_hash row;
           role := r;
           parent_ids := row_parent_ids row;
           student_ids := row_student_ids row;
           class_ids := row_class_ids row;
           created_at := Some (isoformat created);
           last_login := isoformat <$> row_last_login row;
           is_active := row_is_active row |}
  | _, _ => ∃ e, user_of_row row = inl e
  end.
Proof.
  unfold user_of_row. destruct (role_of_value (row_role row)); [|by eexists].
  destruct (row_created_at row); [done|by eexists].
Qed.

(** What a lookup returns when it returns a user. *)
Lemma lookup_returned s sc w u :
  (∀ rows p, effect s rows p = (inr (ARows rows), p)) →
  (run (try_except
          (with_connection (let* row := fetchrow s in user_of_fetched row))
          (except_Exception None)) sc w).1.1 = inr (Some u) →
  ∃ row rest, database w s = row :: rest ∧ user_of_row row = inr u.
Proof.
  intros Hs. rewrite task_try_except.
  destruct (run (with_connection _) sc w) as [[[e|a] sc'] w'] eqn:Hrun.
  { unfold except_Exception. by destruct (is_Exception e). }
  cbn. intros [= ->].
  destruct (with_connection_returned
    (let* row := fetchrow s in user_of_fetched row) sc w (Some u))
    as (sc1 & w1 & pre & Hdb & _ & _ & Hbody & _); [by rewrite Hrun|].
  revert Hbody. unfold fetchrow. rewrite !task_and_then.
  destruct (run (fetch s) sc1 w1) as [[[e|rows] sc2] w2] eqn:Hfetch; [done|].
  assert (rows = database w1 s) as Hrows.
  { apply (run_fetch s sc1 w1 rows Hs). by rewrite Hfetch. }
  cbn [run]. destruct rows as [|row rest]; cbn [head user_of_fetched run]; [done|].
  rewrite task_and_then.
  destruct (user_of_row row) as [e|u'] eqn:Hu; cbn [evaluate run]; [done|].
  intros [= ->]. exists row, rest. by rewrite <-Hdb, <-Hrows.
Qed.

(** What a lookup returns when nothing fails. *)
Lemma lookup_unfailing s sc w :
  (∀ rows p, effect s rows p = (inr (ARows rows), p)) → is_local s = false →
  Forall (λ f, f = None) sc →
  let res := run (try_except
          (with_connection (let* row := fetchrow s in user_of_fetched row))
          (except_Exception None)) sc w in
  res.1.1 = inr (match database w s with
                 | [] => None
                 | row :: _ => match user_of_row row with
                               | inr u => Some u
                               | inl _ => None
                               end
                 end) ∧
  pool res.2 = Some (default 0%nat (pool w)).
Proof.
  intros Hs Hl Hsc res. subst res.
  destruct (run_unfailing (try_except
          (with_connection (let* row := fetchrow s in user_of_fetched row))
          (except_Exception None)) sc w Hsc) as [-> ->].
  destruct w as [[n|] db log]; cbn; unfold perform; rewrite Hl; cbn;
    rewrite Hs; cbn.
  - destruct (db s) as [|row rest]; cbn; [done|].
    destruct (user_of_row row) as [e|u] eqn:Hu; cbn; [|done].
    unfold except_Exception. by rewrite (user_of_row_raises row e Hu).
  - destruct (db s) as [|row rest]; cbn; [done|].
    destruct (user_of_row row) as [e|u] eqn:Hu; cbn; [|done].
    unfold except_Exception. by rewrite (user_of_row_raises row e Hu).
Qed.

(** X26: Lookups: a user that [get_user_by_username] or [get_user_by_id]
    returns is the first row the database holds for the query, with its
    role converted and its timestamps in ISO text, whatever fails on the
    way; and when nothing fails the call returns that user, or [None]
    when there is no row or when the row does not convert (its role is
    none of the four, or its [created_at] is NULL), and the connection
    is released. *)
Theorem lookup_returns_first_row username user_id lookup query sc w :
  (lookup, query) ∈
    [(get_user_by_username username, SelectUserByUsername username);
     (get_user_by_id user_id, SelectUserById user_id)] →
  let res := run lookup sc w in
  let expected :=
    match database w query with
    | [] => None
    | row :: _ =>
        match role_of_value (row_role row), row_created_at row with
        | Some r, Some created =>
            Some {| id := row_id row;
                    username := row_username row;
                    name := row_name row;
                    email := row_email row;
                    password_hash := row_password_hash row;
                    role := r;
                    parent_ids := row_parent_ids row;
                    student_ids := row_student_ids row;
                    class_ids := row_class_ids row;
                    created_at := Some (isoformat created);
                    last_login := isoformat <$> row_last_login row;
                    is_active := row_is_active row |}
        | _, _ => None
        end
    end in
  (∀ u, res.1.1 = inr (Some u) → expected = Some u) ∧
  (Forall (λ f, f = None) sc →
   res.1.1 = inr expected ∧ pool res.2 = Some (default 0%nat (pool w))).
Proof.
  intros Hin res expected.
  assert (∃ s, query = s ∧
    (∀ rows p, effect s rows p = (inr (ARows rows), p)) ∧ is_local s = false ∧
    lookup = try_except
      (with_connection (let* row := fetchrow s in user_of_fetched row))
      (except_Exception None)) as (s & -> & Hs & Hl & ->).
  { apply elem_of_cons in Hin as [[= -> ->]|Hin];
      [|apply list_elem_of_singleton in Hin as [= -> ->]]; by eexists. }
  assert (expected = match database w s with
                     | [] => None
                     | row :: _ => match user_of_row row with
                                   | inr u => Some u
                                   | inl _ => None
                                   end
                     end) as Hexp.
  { subst expected. destruct (database w s) as [|row rest]; [done|].
    pose proof (user_of_row_spec row) as Hrow.
    destruct (role_of_value (row_role row)) as [r|];
      [destruct (row_created_at row) as [created|]|].
    - by rewrite Hrow.
    - by destruct Hrow as [e ->].
    - by destruct Hrow as [e ->]. }
  split.
  - intros u Hu. apply (lookup_returned s sc w u Hs) in Hu
      as (row & rest & Hdb & Hrow).
    by rewrite Hexp, Hdb, Hrow.
  - intros Hsc. rewrite Hexp. by apply lookup_unfailing.
Qed.

(** The loop of [get_students_for_parent] has no awaits: it ends with
    every row converted, in order, or with the exception of the first
    row that does not convert. *)
Lemma append_students_spec rows students :
  (∃ us, Forall2 (λ row u, user_of_row row = inr u) rows us ∧
         append_students rows students = Done (students ++ us)) ∨
  (∃ e, is_Exception e = true ∧
        Exists (λ row, role_of_value (row_role row) = None ∨
                       row_created_at row = None) rows ∧
        append_students rows students = Throw e).
Proof.
  revert students. induction rows as [|row rows IH]; intros students;
    cbn [append_students].
  - left. exists []. split; [constructor|by rewrite app_nil_r].
  - pose proof (user_of_row_spec row) as Hrow.
    destruct (user_of_row row) as [e|u] eqn:Hu; cbn [evaluate and_then].
    + right. exists e. split; [by eapply user_of_row_raises|]. split; [|done].
      apply Exists_cons_hd.
      destruct (role_of_value (row_role row)); [|by left].
      destruct (row_created_at row); [done|by right].
    + destruct (IH (students ++ [u])) as [(us & Hus & ->)|(e & He & Hbad & ->)].
      * left. exists (u :: us). split; [by constructor|].
        by rewrite <-app_assoc.
      * right. exists e. split; [done|]. split; [|done].
        by apply Exists_cons_tl.
Qed.

Lemma bad_row_does_not_convert rows us :
  Forall2 (λ row u, user_of_row row = inr u) rows us →
  Exists (λ row, role_of_value (row_role row) = None ∨
                 row_created_at row = None) rows → False.
Proof.
  induction 1 as [|row u rows us Hu Hus IH]; intros Hbad.
  - by apply Exists_nil in Hbad.
  - apply Exists_cons in Hbad as [Hbad|Hbad]; [|by apply IH].
    pose proof (user_of_row_spec row) as Hrow.
    destruct (role_of_value (row_role row)) as [r|];
      [destruct (row_created_at row) as [created|]|].
    + by destruct Hbad.
    + destruct Hrow as [e He]. congruence.
    + destruct Hrow as [e He]. congruence.
Qed.

Lemma converted_rows_unique rows us us' :
  Forall2 (λ row u, user_of_row row = inr u) rows us →
  Forall2 (λ row u, user_of_row row = inr u) rows us' → us = us'.
Proof.
  intros Hus. revert us'. induction Hus as [|row u rows us Hu Hus IH];
    intros us' Hus'.
  - by apply Forall2_nil_inv_l in Hus'.
  - apply Forall2_cons_inv_l in Hus' as (u' & us'' & Hu' & Hus'' & ->).
    f_equal; [congruence|by apply IH].
Qed.

(** X27: All or nothing: whatever fails, the list [get_students_for_parent]
    returns is empty or holds every row of the answer, converted, in
    order, never a part of them. When nothing fails it returns them
    all if every row converts, and the empty list as soon as one row
    does not (its role is none of the four, or its [created_at] is
    NULL). *)
Theorem students_all_or_nothing parent_id sc w :
  let rows := database w (SelectStudentsOfParent parent_id) in
  let res := run (get_students_for_parent parent_id) sc w in
  (∀ us, res.1.1 = inr us →
         us = [] ∨ Forall2 (λ row u, user_of_row row = inr u) rows us) ∧
  (Forall (λ f, f = None) sc →
   (∀ us, Forall2 (λ row u, user_of_row row = inr u) rows us →
          res.1.1 = inr us) ∧
   (Exists (λ row, role_of_value (row_role row) = None ∨
                   row_created_at row = None) rows →
    res.1.1 = inr [])).
Proof.
  intros rows res. split.
  - intros us. subst res. unfold get_students_for_parent.
    rewrite task_try_except.
    destruct (run (with_connection _) sc w) as [[[e|a] sc'] w'] eqn:Hrun.
    { unfold except_Exception. destruct (is_Exception e); [|done].
      cbn. intros [= <-]. by left. }
    cbn. intros [= ->].
    destruct (with_connection_returned
      (let* rows := fetch (SelectStudentsOfParent parent_id) in
       append_students rows []) sc w us)
      as (sc1 & w1 & pre & Hdb & _ & _ & Hbody & _); [by rewrite Hrun|].
    revert Hbody. rewrite task_and_then.
    destruct (run (fetch _) sc1 w1) as [[[e|got] sc2] w2] eqn:Hfetch; [done|].
    assert (got = database w1 (SelectStudentsOfParent parent_id)) as Hrows.
    { apply (run_fetch _ sc1 w1 got); [done|]. by rewrite Hfetch. }
    destruct (append_students_spec got []) as [(us' & Hus & ->)|(e & _ & _ & ->)];
      cbn [run]; [|done].
    intros [= <-]. right. subst rows. by rewrite <-Hdb, <-Hrows.
  - intros Hsc. subst res.
    destruct (run_unfailing (get_students_for_parent parent_id) sc w Hsc)
      as [-> _].
    assert ((run (get_students_for_parent parent_id) [] w).1.1 =
            (run (try_except (append_students rows [])
                   (except_Exception [])) [] w).1.1) as ->.
    { subst rows. destruct w as [[n|] db log]; cbn;
        destruct (append_students_spec (db (SelectStudentsOfParent parent_id)) [])
          as [(us' & _ & ->)|(e & He & _ & ->)]; cbn; try done;
        unfold except_Exception; by rewrite He. }
    destruct (append_students_spec rows []) as [(us' & Hus' & ->)|(e & He & Hbad & ->)];
      cbn [try_except run].
    + split.
      * intros us Hus. by rewrite (converted_rows_unique rows us us').
      * intros Hbad. by destruct (bad_row_does_not_convert rows us').
    + unfold except_Exception. rewrite He. cbn. split; [|done].
      intros us Hus. by destruct (bad_row_does_not_convert rows us).
Qed.

(** The handler of [except Exception] issues nothing. *)
Lemma guarded_service {A : Type} (p : task A) (default : A) sc w :
  (run (try_except p (except_Exception default)) sc w).2 = (run p sc w).2.
Proof.
  rewrite task_try_except.
  destruct (run p sc w) as [[[e|a] sc'] w']; [|done].
  unfold except_Exception. by destruct (is_Exception e).
Qed.

Lemma values_of_activity_spec activity :
  values_of_activity activity =
  match fromisoformat (timestamp activity) with
  | None => inl (ValueError (timestamp activity))
  | Some t =>
      inr {| values_of := activity;
             type_value := activity_type_value (activity_type activity);
             at_time := t;
             metadata_value := default ∅ (metadata activity) |}
  end.
Proof.
  unfold values_of_activity.
  destruct (fromisoformat (timestamp activity)) as [t|]; [|done].
  do 2 f_equal. destruct (metadata activity) as [m|]; [|done].
  cbn. by case_bool_decide.
Qed.

(** X28: Logging one activity: without an ISO timestamp the call acquires
    and releases a connection, inserts nothing and does not return
    [True] (it returns [False] unless something other than an
    [Exception] is raised); with one, a call that returns [True] has
    inserted the activity's values, with the type's string, the parsed
    time, and [{}] for a missing or empty metadata, as its last
    statement before the release, and when nothing fails it returns
    [True]. *)
Theorem log_activity_needs_iso_timestamp activity sc w :
  let res := run (log_activity activity) sc w in
  (fromisoformat (timestamp activity) = None →
   res.1.1 ≠ inr true ∧
   (Forall benign sc → res.1.1 = inr false) ∧
   ∃ new, issued res.2 = issued w ++ new ∧
          Forall (λ s, s ∈ [CheckPool; NewPool; AcquireConn; ReleaseConn]) new) ∧
  (∀ t, fromisoformat (timestamp activity) = Some t →
   let v := {| values_of := activity;
               type_value := activity_type_value (activity_type activity);
               at_time := t;
               metadata_value := default ∅ (metadata activity) |} in
   (res.1.1 = inr true →
    ∃ pre, issued res.2 = issued w ++ pre ++ [InsertActivity v; ReleaseConn] ∧
           Forall (λ s, s ∈ [CheckPool; NewPool; AcquireConn]) pre) ∧
   (Forall (λ f, f = None) sc → res.1.1 = inr true)).
Proof.
  intros res. subst res. unfold log_activity.
  rewrite values_of_activity_spec. split.
  - intros ->. cbn [evaluate and_then].
    assert ((run (try_except (with_connection (Throw (ValueError (timestamp activity))))
               (except_Exception false)) sc w).1.1 ≠ inr true) as Hnot.
    { rewrite task_try_except.
      destruct (run (with_connection _) sc w) as [[[e|a] sc'] w'] eqn:Hrun.
      - unfold except_Exception. by destruct (is_Exception e).
      - destruct (with_connection_returned
          (Throw (ValueError (timestamp activity)) : task bool) sc w a)
          as (sc1 & w1 & pre & _ & _ & _ & Hbody & _); [by rewrite Hrun|].
        done. }
    split; [done|]. split.
    + intros Hsc.
      destruct (guarded_returns
        (with_connection (Throw (ValueError (timestamp activity)))) false sc w)
        as [[|] Ha]; try done.
      apply tame_with_connection. by constructor.
    + rewrite guarded_service.
      destruct (with_connection_issues
        (Throw (ValueError (timestamp activity)) : task bool) sc w)
        as (pre & sc1 & w1 & post & Hpre & Hin & Hpost & [->| ->]).
      * exists pre. split; [done|].
        eapply Forall_impl; [exact Hin|]. intros s Hs. cbn beta in *.
        rewrite !elem_of_cons in *. tauto.
      * exists (pre ++ post). cbn [run snd]. rewrite Hpre, <-app_assoc.
        split; [done|]. apply Forall_app. split.
        -- eapply Forall_impl; [exact Hin|]. intros s Hs. cbn beta in *.
           rewrite !elem_of_cons in *. tauto.
        -- eapply Forall_impl; [exact Hpost|]. intros s ->.
           rewrite !elem_of_cons. tauto.
  - intros t Ht. rewrite Ht. cbn [evaluate and_then].
    set (v := {| values_of := activity;
                 type_value := activity_type_value (activity_type activity);
                 at_time := t;
                 metadata_value := default ∅ (metadata activity) |}).
    split.
    + rewrite task_try_except.
      destruct (run (with_connection _) sc w) as [[[e|a] sc'] w'] eqn:Hrun.
      { unfold except_Exception. by destruct (is_Exception e). }
      cbn. intros [= ->].
      destruct (with_connection_returned
        (execute (InsertActivity v) >> Done true) sc w true)
        as (sc1 & w1 & pre & _ & Hpre & Hin & _ & Hiss); [by rewrite Hrun|].
      rewrite Hrun in Hiss. cbn [snd] in Hiss. exists pre. split; [|done].
      rewrite Hiss, task_and_then, run_execute.
      pose proof (perform_issued (InsertActivity v) (hd None sc1) w1) as Hins.
      destruct (perform (InsertActivity v) (hd None sc1) w1) as [[e|x] w2];
        cbn in *; rewrite Hins, Hpre, <-!app_assoc; done.
    + intros Hsc.
      destruct (run_unfailing (try_except
        (with_connection (execute (InsertActivity v) >> Done true))
        (except_Exception false)) sc w Hsc) as [-> _].
      by destruct w as [[n|] db log].
Qed.

Lemma values_of_dicts_missing activities a :
  a ∈ activities →
  a !! "student_id" = None ∨ a !! "session_id" = None ∨
    a !! "activity_type" = None →
  ∃ key, key ∈ ["student_id"; "session_id"; "activity_type"] ∧
         values_of_dicts activities = inl (KeyError key).
Proof.
  intros Hin Hmiss. induction activities as [|b activities IH].
  - by apply not_elem_of_nil in Hin.
  - cbn [values_of_dicts].
    assert (∀ v, values_of_dict b = inr v →
      ∃ key, key ∈ ["student_id"; "session_id"; "activity_type"] ∧
             match values_of_dicts activities with
             | inl e => inl e
             | inr vs => inr (v :: vs)
             end = inl (KeyError key)) as Htail.
    { intros v Hv. apply elem_of_cons in Hin as [->|Hin].
      - revert Hv. unfold values_of_dict, item.
        destruct Hmiss as [->|[->| ->]]; [done| |].
        + by destruct (b !! "student_id").
        + by destruct (b !! "student_id"), (b !! "session_id").
      - destruct (IH Hin) as (key & Hkey & ->). by exists key. }
    destruct (values_of_dict b) as [e|v] eqn:Hb; [|by apply Htail].
    revert Hb. unfold values_of_dict, item.
    destruct (b !! "student_id");
      [|intros [= <-]; eexists; split; last done;
        rewrite !elem_of_cons; tauto].
    destruct (b !! "session_id");
      [|intros [= <-]; eexists; split; last done;
        rewrite !elem_of_cons; tauto].
    destruct (b !! "activity_type");
      [done|intros [= <-]; eexists; split; last done;
            rewrite !elem_of_cons; tauto].
Qed.

(** X29: Batch logging is not guarded: [log_activity_batch] never returns
    [False]. With a pool in place, when the connection is acquired and
    the insert then raises, the exception reaches the caller, after the
    connection is released, where [log_activity] under the same failure
    returns [False]; and an activity without one of its three required
    keys makes the call raise [KeyError] without inserting anything,
    again after acquiring and releasing a connection. *)
Theorem batch_logging_is_not_guarded activities sc w :
  let res := run (log_activity_batch activities) sc w in
  res.1.1 ≠ inr false ∧
  (∀ n e rest vs activity t,
     pool w = Some n →
     sc = None :: Some e :: None :: rest →
     ResponseCache.is_Exception e = true →
     values_of_dicts activities = inr vs →
     fromisoformat (timestamp activity) = Some t →
     res.1.1 = inl (Exn e) ∧
     pool res.2 = Some n ∧
     issued res.2 =
       issued w ++ [CheckPool; AcquireConn; InsertActivities vs; ReleaseConn] ∧
     (run (log_activity activity) sc w).1.1 = inr false) ∧
  (∀ a, a ∈ activities →
     a !! "student_id" = None ∨ a !! "session_id" = None ∨
       a !! "activity_type" = None →
     Forall (λ f, f = None) sc →
     ∃ key, key ∈ ["student_id"; "session_id"; "activity_type"] ∧
            res.1.1 = inl (KeyError key) ∧
            pool res.2 = Some (default 0%nat (pool w)) ∧
            ∃ new, issued res.2 = issued w ++ new ∧
                   Forall (λ s, s ∈ [CheckPool; NewPool; AcquireConn; ReleaseConn])
                          new).
Proof.
  intros res. subst res. unfold log_activity_batch. split; [|split].
  - intros Hfalse.
    destruct (with_connection_returned
      (let* vs := evaluate (values_of_dicts activities) in
       execute (InsertActivities vs) >> Done true) sc w false)
      as (sc1 & w1 & pre & _ & _ & _ & Hbody & _); [done|].
    revert Hbody. destruct (values_of_dicts activities) as [e|vs];
      cbn [evaluate and_then]; [done|].
    rewrite task_and_then, run_execute.
    by destruct (perform (InsertActivities vs) (hd None sc1) w1).1.
  - intros n e rest vs activity t Hpool -> He Hvs Ht.
    unfold log_activity. rewrite values_of_activity_spec, Ht, Hvs.
    destruct w as [p db log]. cbn in Hpool. subst p. cbn.
    rewrite <-!app_assoc. unfold except_Exception. cbn. rewrite He. done.
  - intros a Hin Hmiss Hsc.
    destruct (values_of_dicts_missing activities a Hin Hmiss)
      as (key & Hkey & ->).
    exists key. split; [done|].
    destruct (run_unfailing (with_connection
      (let* vs := evaluate (inl (KeyError key)) in
       execute (InsertActivities vs) >> Done true)) sc w Hsc) as [-> ->].
    destruct w as [[n|] db log]; cbn; (split; [done|]); (split; [done|]).
    + exists [CheckPool; AcquireConn; ReleaseConn]. rewrite <-!app_assoc.
      split; [done|]. repeat constructor; rewrite !elem_of_cons; tauto.
    + exists [CheckPool; NewPool; AcquireConn; ReleaseConn]. rewrite <-!app_assoc.
      split; [done|]. repeat constructor; rewrite !elem_of_cons; tauto.
Qed.

(** With no pool, a lookup creates one before it acquires a
    connection. *)
Lemma lookup_creates_pool username sc w :
  pool w = None → Forall (λ f, f = None) sc →
  issued (run (get_user_by_username username) sc w).2 =
    issued w ++ [CheckPool; NewPool; AcquireConn;
                 SelectUserByUsername username; ReleaseConn].
Proof.
  intros Hpool Hsc.
  destruct (run_unfailing (get_user_by_username username) sc w Hsc) as [_ ->].
  destruct w as [p db log]. cbn in Hpool. subst p. cbn.
  destruct (db (SelectUserByUsername username)) as [|row rest]; cbn.
  - by rewrite <-!app_assoc.
  - destruct (user_of_row row) as [e|u] eqn:Hu; cbn.
    + unfold except_Exception. rewrite (user_of_row_raises row e Hu). cbn.
      by rewrite <-!app_assoc.
    + by rewrite <-!app_assoc.
Qed.

(** X30: Closing: with no pool [close] does nothing; with a pool, when
    [pool.close()] returns, the service has no pool any more, and the
    next call creates one again before it acquires a connection; when
    [pool.close()] raises, the exception reaches the caller and the pool
    stays set. *)
Theorem close_forgets_the_pool sc w :
  let res := run close sc w in
  (pool w = None →
   res.1.1 = inr tt ∧ res.1.2 = sc ∧ pool res.2 = None ∧
   issued res.2 = issued w ++ [CheckPool]) ∧
  (is_Some (pool w) → hd None sc = None →
   res.1.1 = inr tt ∧ pool res.2 = None ∧
   issued res.2 = issued w ++ [CheckPool; ClosePool; DropPool] ∧
   ∀ username sc', Forall (λ f, f = None) sc' →
     issued (run (get_user_by_username username) sc' res.2).2 =
       issued res.2 ++ [CheckPool; NewPool; AcquireConn;
                        SelectUserByUsername username; ReleaseConn]) ∧
  (∀ e, is_Some (pool w) → hd None sc = Some e →
   res.1.1 = inl (Exn e) ∧ pool res.2 = pool w ∧
   issued res.2 = issued w ++ [CheckPool; ClosePool]).
Proof.
  intros res.
  assert (is_Some (pool w) → hd None sc = None → pool res.2 = None) as Hnone.
  { subst res. destruct w as [p db log]. cbn [pool].
    intros [n ->] Hhd. cbn. by rewrite Hhd. }
  split; [|split].
  - subst res. destruct w as [p db log]. cbn [pool issued].
    intros ->. by cbn.
  - intros Hpool Hhd. split; [|split; [by apply Hnone|split]].
    + subst res. destruct w as [p db log]. destruct Hpool as [n Hn].
      cbn in Hn. subst p. cbn. by rewrite Hhd.
    + subst res. destruct w as [p db log]. destruct Hpool as [n Hn].
      cbn in Hn. subst p. cbn. rewrite Hhd. cbn. by rewrite <-!app_assoc.
    + intros username sc' Hsc'. apply lookup_creates_pool; [|done].
      by apply Hnone.
  - subst res. destruct w as [p db log]. cbn [pool issued].
    intros e [n ->] Hhd. cbn. rewrite Hhd. cbn. by rewrite <-!app_assoc.
Qed.

End running_tasks.

Section tasks_evaluated.
Local Existing Instance toy_calendar.

Lemma guarded_methods_return_witness :
  Forall benign [Some ResponseCache.TimeoutError] ∧
  ∃ u, (run (get_user_by_username "bob")
          [Some ResponseCache.TimeoutError] bob_service).1.1 = inr u.
Proof.
  assert (Forall benign [Some ResponseCache.TimeoutError]) as Hsc
    by (by repeat constructor).
  split; [exact Hsc|].
  exact (proj1 (guarded_methods_return "bob" "7" "1" login_of_bob
                  [Some ResponseCache.TimeoutError] bob_service Hsc)).
Defined.

Lemma lookup_returns_first_row_witness :
  (get_user_by_username "bob", SelectUserByUsername "bob") ∈
    [(get_user_by_username "bob", SelectUserByUsername "bob");
     (get_user_by_id "7", SelectUserById "7")] ∧
  ∃ u, (run (get_user_by_username "bob") [] bob_service).1.1 = inr (Some u) ∧
       role u = STUDENT ∧ created_at u = Some "1970-01-01T00:00:00".
Proof.
  assert ((get_user_by_username "bob", SelectUserByUsername "bob") ∈
    [(get_user_by_username "bob", SelectUserByUsername "bob");
     (get_user_by_id "7", SelectUserById "7")]) as Hin by (by left).
  split; [exact Hin|].
  destruct (lookup_returns_first_row "bob" "7" _ _ [] bob_service Hin)
    as [_ Hres].
  destruct (Hres (Forall_nil_2 _)) as [Hgot _].
  eexists. split; [exact Hgot|]. by vm_compute.
Defined.

Lemma students_all_or_nothing_witness :
  Exists (λ row, role_of_value (row_role row) = None ∨
                 row_created_at row = None)
    (database mixed_service (SelectStudentsOfParent "1")) ∧
  (run (get_students_for_parent "1") [] mixed_service).1.1 = inr [].
Proof.
  assert (Exists (λ row, role_of_value (row_role row) = None ∨
                         row_created_at row = None)
            (database mixed_service (SelectStudentsOfParent "1"))) as Hbad.
  { apply Exists_cons_tl, Exists_cons_hd. by left. }
  split; [exact Hbad|].
  destruct (students_all_or_nothing "1" [] mixed_service) as [_ Hres].
  destruct (Hres (Forall_nil_2 _)) as [_ Hnone].
  exact (Hnone Hbad).
Defined.

Lemma log_activity_needs_iso_timestamp_witness :
  fromisoformat (timestamp undated_login) = None ∧
  (run (log_activity undated_login) [] bob_service).1.1 = inr false.
Proof.
  assert (fromisoformat (timestamp undated_login) = None) as Hts by done.
  split; [exact Hts|].
  destruct (log_activity_needs_iso_timestamp undated_login [] bob_service)
    as [Hnone _].
  destruct (Hnone Hts) as (_ & Hfalse & _).
  exact (Hfalse (Forall_nil_2 _)).
Defined.

Lemma batch_logging_is_not_guarded_witness :
  no_session ∈ [no_session] ∧
  ∃ key, (run (log_activity_batch [no_session]) [] busy_service).1.1 =
           inl (KeyError key).
Proof.
  assert (no_session ∈ [no_session]) as Hin by (by left).
  split; [exact Hin|].
  destruct (batch_logging_is_not_guarded [no_session] [] busy_service)
    as (_ & _ & Hkey).
  destruct (Hkey no_session Hin) as (key & _ & Hraised & _).
  - right. left. by vm_compute.
  - constructor.
  - by exists key.
Defined.

Lemma close_forgets_the_pool_witness :
  is_Some (pool busy_service) ∧
  pool (run close [] busy_service).2 = None.
Proof.
  assert (is_Some (pool busy_service)) as Hpool by (by eexists).
  split; [exact Hpool|].
  destruct (close_forgets_the_pool [] busy_service) as (_ & Hclosed & _).
  destruct (Hclosed Hpool eq_refl) as (_ & Hnone & _).
  exact Hnone.
Defined.

End tasks_evaluated.

End UserServiceProofs.
